(** * SmartFlow todo: the task ranking and filtering engine

    A shallow embedding of the task sorting and filtering utilities
    ([utils/taskUtils]: the scoring function, the sort comparator, the
    filter and the badge counter) and of [hoursUntilDeadline] from
    [utils/dateUtils.ts], followed by the properties the specification
    states about them.

    Conventions of the embedding.
    - The scoring and sorting functions are given at three levels.  The
      first part takes the evaluation time [now] as an argument and
      computes in exact rationals ([Q]): the division of
      [hoursUntilDeadline] is the exact quotient, and every comparison of
      the source ([<], [!==], the sign of the comparator's result) is the
      comparison of rationals.  [Module Double] has the same functions in
      double arithmetic: a double is the rational it denotes and each
      operation is the exact one followed by rounding to the nearest
      double.  [Module Engine] runs them the way the source does: in
      doubles, reading the clock inside [hoursUntilDeadline], on array
      objects.  [Module Clocked] is the clock with exact arithmetic, and
      [Module Binary64] holds the scoring function over the kernel's
      floats, for checking sample values.
    - [deadline] is held as the epoch-millisecond value that
      [new Date(task.deadline).getTime()] yields for the stored ISO 8601
      string (an integer); the other date fields stay opaque strings.
    - [now] is the value [new Date().getTime()] yields inside
      [hoursUntilDeadline].
    - Lists stand for the contents of arrays; [Module Ref] adds the
      identity of the array objects, for what concerns mutation. *)

From Stdlib Require Import ZArith QArith Qminmax Qround Qpower Lqa Lia Floats Uint63.
From Stdlib Require Import Sorting.Sorted Sorting.Permutation.
From stdpp Require Import base list strings gmap pretty.

Local Open Scope Q_scope.

(** ** Data model ([src/types]) *)

Inductive Priority : Set := LOW | MEDIUM | HIGH.

Inductive Category : Set := WORK | PERSONAL | STUDY | OTHER.

Record Task : Set := mkTask {
  id : string;
  userId : string;
  title : string;
  description : string;
  dateTime : string;
  deadline : Z;
  priority : Priority;
  category : Category;
  completed : bool;
  createdAt : string;
  updatedAt : string
}.

#[global] Instance Priority_eq_dec : EqDecision Priority.
Proof. solve_decision. Defined.

#[global] Instance Category_eq_dec : EqDecision Category.
Proof. solve_decision. Defined.


(** [TaskFilter] is the union ['all' | 'active' | 'completed'] at compile
    time and a plain string at run time: [filterTasks] switches on the string
    and has a [default] arm. *)
Definition TaskFilter : Set := string.

(** ** Numbers *)

Definition Qlt_bool (x y : Q) : bool := negb (Qle_bool y x).

Definition Math_min (x y : Q) : Q := Qmin x y.

(** [Number.isInteger]: the rational has an integral value. *)
Definition Number_isInteger (q : Q) : bool :=
  (Qnum q mod Z.pos (Qden q) =? 0)%Z.

(** A rational with an integral value, as a proposition. *)
Definition Qintegral (q : Q) : Prop := exists z : Z, q == inject_Z z.

(** ** [hoursUntilDeadline] ([src/utils/dateUtils.ts]) *)

Definition hoursUntilDeadline (now : Z) (deadline : Z) : Q :=
  let millisRemaining := (deadline - now)%Z in
  inject_Z millisRemaining / inject_Z (1000 * 60 * 60).

(** ** Scoring *)

Definition PRIORITY_WEIGHTS (p : Priority) : Q :=
  match p with
  | HIGH => 100
  | MEDIUM => 50
  | LOW => 10
  end.

Definition calculateTaskScore (now : Z) (task : Task) : Q :=
  if completed task then -1000
  else
    let score := PRIORITY_WEIGHTS (priority task) in
    let hoursRemaining := hoursUntilDeadline now (deadline task) in
    let score :=
      if Qlt_bool hoursRemaining 0 then score + 1000
      else if Qlt_bool hoursRemaining 24 then score + 500
      else if Qlt_bool hoursRemaining 48 then score + 200
      else if Qlt_bool hoursRemaining 168 then score + 50
      else score in
    score - Math_min hoursRemaining 1000.

(** The formula of the specification, section 4.1: a base weight, one
    urgency bonus chosen by the first matching tier, and the capped hours. *)
Definition spec_base (p : Priority) : Q :=
  match p with HIGH => 100 | MEDIUM => 50 | LOW => 10 end.

Definition spec_bonus (hoursRemaining : Q) : Q :=
  if Qlt_bool hoursRemaining 0 then 1000
  else if Qlt_bool hoursRemaining 24 then 500
  else if Qlt_bool hoursRemaining 48 then 200
  else if Qlt_bool hoursRemaining 168 then 50
  else 0.

Definition spec_hoursRemaining (now : Z) (task : Task) : Q :=
  inject_Z (deadline task - now) / 3600000.

Definition spec_score (now : Z) (task : Task) : Q :=
  if completed task then -1000
  else
    spec_base (priority task) + spec_bonus (spec_hoursRemaining now task)
    - Qmin (spec_hoursRemaining now task) 1000.

(** ** [Array.prototype.sort]

    The engine's built-in, by its ECMAScript contract: [comparefn a b > 0]
    puts [a] after [b], and the sort is stable.  The model is the stable
    insertion sort; [Array_sort_unique] below shows that for a consistent
    comparator every stable sort returns the same array, so nothing depends
    on the engine's algorithm. *)

Section ArraySort.

Context {A : Type} (comparefn : A -> A -> Q).

Fixpoint sortedInsert (x : A) (l : list A) : list A :=
  match l with
  | [] => [x]
  | y :: l' =>
    if Qlt_bool 0 (comparefn x y) then y :: sortedInsert x l'
    else x :: y :: l'
  end.

Fixpoint Array_sort (l : list A) : list A :=
  match l with
  | [] => []
  | x :: l' => sortedInsert x (Array_sort l')
  end.

(** [a] may stand before [b]. *)
Definition sortsBefore (a b : A) : Prop := comparefn a b <= 0.

(** [comparefn] calls [a] and [b] equal. *)
Definition sameRank (a b : A) : bool := Qeq_bool (comparefn a b) 0.

End ArraySort.

(** ** Sorting ([sortTasksByPriority]) *)

(** The comparator passed to [sort]. *)
Definition sortComparator (now : Z) (a b : Task) : Q :=
  if completed a && negb (completed b) then 1
  else if negb (completed a) && completed b then -1
  else
    let scoreA := calculateTaskScore now a in
    let scoreB := calculateTaskScore now b in
    if negb (Qeq_bool scoreA scoreB) then scoreB - scoreA
    else
      let deadlineA := deadline a in
      let deadlineB := deadline b in
      inject_Z (deadlineA - deadlineB).

Definition sortTasksByPriority (now : Z) (tasks : list Task) : list Task :=
  Array_sort (sortComparator now) tasks.

(** The order of the specification, section 4.2, rules 1 to 3: [a] is
    ranked strictly ahead of [b]. *)
Definition rankedAhead (now : Z) (a b : Task) : Prop :=
  (completed a = false /\ completed b = true)
  \/ (completed a = completed b
      /\ calculateTaskScore now b < calculateTaskScore now a)
  \/ (completed a = completed b
      /\ calculateTaskScore now a == calculateTaskScore now b
      /\ (deadline a < deadline b)%Z).

(** Rule 4: equal completion status, equal score and equal deadline. *)
Definition residualTie (now : Z) (a b : Task) : Prop :=
  completed a = completed b
  /\ calculateTaskScore now a == calculateTaskScore now b
  /\ deadline a = deadline b.

Definition residualTieb (now : Z) (a b : Task) : bool :=
  Bool.eqb (completed a) (completed b)
  && Qeq_bool (calculateTaskScore now a) (calculateTaskScore now b)
  && (deadline a =? deadline b)%Z.

(** ** Filtering ([filterTasks], [sortAndFilterTasks]) *)

Definition filterTasks (tasks : list Task) (filter : TaskFilter) : list Task :=
  if String.eqb filter "active" then
    List.filter (fun task => negb (completed task)) tasks
  else if String.eqb filter "completed" then
    List.filter (fun task => completed task) tasks
  else tasks.

Definition sortAndFilterTasks (now : Z) (tasks : list Task)
    (filter : TaskFilter) : list Task :=
  let filtered := filterTasks tasks filter in
  sortTasksByPriority now filtered.

(** ** Counting ([getTaskCounts]) *)

(** The result is a [Record<TaskFilter, number>]: an object keyed by the
    filter names. *)
Definition getTaskCounts (tasks : list Task) : gmap string nat :=
  <["all" := length tasks]>
  (<["active" := length (List.filter (fun task => negb (completed task)) tasks)]>
  (<["completed" := length (List.filter (fun task => completed task) tasks)]>
   ∅)).

(** The number of tasks whose [completed] field is [c], counted one by
    one (the specification's "count of incomplete" and "count of
    complete"). *)
Definition countCompleted (c : bool) (tasks : list Task) : nat :=
  count_occ Bool.bool_dec (map completed tasks) c.

(** ** Arrays as objects

    A JavaScript array is an object with an identity: [sort] reorders it in
    place, [filter] and the spread [[...tasks]] allocate a new one.  A heap
    maps references to the current contents of the arrays; the functions
    below are the ones above over references, and report what they do to
    the heap. *)

Module Ref.

Abbreviation heap := (list (list Task)) (only parsing).
Abbreviation ref := nat (only parsing).

(** [[...arr]]: a fresh array with the same elements. *)
Definition spread (arr : ref) (h : heap) : option (ref * heap) :=
  elems ← h !! arr;
  Some (length h, h ++ [elems]).

(** [arr.sort(comparefn)]: sorts [arr] in place and returns [arr]. *)
Definition sort (comparefn : Task -> Task -> Q) (arr : ref) (h : heap)
    : option (ref * heap) :=
  elems ← h !! arr;
  Some (arr, <[arr := Array_sort comparefn elems]> h).

(** [arr.filter(p)]: a fresh array with the elements that satisfy [p]. *)
Definition filter (p : Task -> bool) (arr : ref) (h : heap)
    : option (ref * heap) :=
  elems ← h !! arr;
  Some (length h, h ++ [List.filter p elems]).

Definition sortTasksByPriority (now : Z) (tasks : ref) (h : heap)
    : option (ref * heap) :=
  '(copy, h1) ← spread tasks h;
  sort (sortComparator now) copy h1.

Definition filterTasks (tasks : ref) (filter : TaskFilter) (h : heap)
    : option (ref * heap) :=
  if String.eqb filter "active" then
    Ref.filter (fun task => negb (completed task)) tasks h
  else if String.eqb filter "completed" then
    Ref.filter (fun task => completed task) tasks h
  else Some (tasks, h).

Definition sortAndFilterTasks (now : Z) (tasks : ref) (filter : TaskFilter)
    (h : heap) : option (ref * heap) :=
  '(filtered, h1) ← filterTasks tasks filter h;
  sortTasksByPriority now filtered h1.

End Ref.

(** ** The wall clock

    [hoursUntilDeadline] reads the clock itself ([new Date()]) each time it
    is called.  Here the clock is the sequence of its readings, and a
    computation carries the number of readings taken so far. *)

Module Clocked.

Definition Clock : Type := nat -> Z.

Definition M (A : Type) : Type := Clock -> nat -> A * nat.

Definition ret {A : Type} (a : A) : M A := fun _ n => (a, n).

Definition bind {A B : Type} (m : M A) (k : A -> M B) : M B :=
  fun clk n => let '(a, n') := m clk n in k a clk n'.

Declare Scope clocked_scope.
Delimit Scope clocked_scope with clocked.
Notation "'let*' x ':=' m 'in' k" := (bind m (fun x => k))
  (at level 10, x name, m at level 100, k at level 200,
   only parsing) : clocked_scope.
Local Open Scope clocked_scope.

(** [new Date().getTime()] *)
Definition Date_now : M Z := fun clk n => (clk n, S n).

Definition hoursUntilDeadline (deadline : Z) : M Q :=
  let* now := Date_now in
  let millisRemaining := (deadline - now)%Z in
  ret (inject_Z millisRemaining / inject_Z (1000 * 60 * 60)).

Definition calculateTaskScore (task : Task) : M Q :=
  if completed task then ret (-1000)
  else
    let score := PRIORITY_WEIGHTS (priority task) in
    let* hoursRemaining := hoursUntilDeadline (deadline task) in
    let score :=
      if Qlt_bool hoursRemaining 0 then score + 1000
      else if Qlt_bool hoursRemaining 24 then score + 500
      else if Qlt_bool hoursRemaining 48 then score + 200
      else if Qlt_bool hoursRemaining 168 then score + 50
      else score in
    ret (score - Math_min hoursRemaining 1000).

Definition sortComparator (a b : Task) : M Q :=
  if completed a && negb (completed b) then ret 1
  else if negb (completed a) && completed b then ret (-1)
  else
    let* scoreA := calculateTaskScore a in
    let* scoreB := calculateTaskScore b in
    if negb (Qeq_bool scoreA scoreB) then ret (scoreB - scoreA)
    else
      let deadlineA := deadline a in
      let deadlineB := deadline b in
      ret (inject_Z (deadlineA - deadlineB)).

(** The stable insertion sort again, with a comparator that may read the
    clock.  In which order an engine submits the pairs is its own affair:
    where an output is shown that depends on it, the answer of the
    comparator that forces it is shown too. *)
Fixpoint sortedInsert {A : Type} (comparefn : A -> A -> M Q) (x : A)
    (l : list A) : M (list A) :=
  match l with
  | [] => ret [x]
  | y :: l' =>
    let* c := comparefn x y in
    if Qlt_bool 0 c then
      let* r := sortedInsert comparefn x l' in ret (y :: r)
    else ret (x :: y :: l')
  end.

Fixpoint Array_sort {A : Type} (comparefn : A -> A -> M Q) (l : list A)
    : M (list A) :=
  match l with
  | [] => ret []
  | x :: l' =>
    let* s := Array_sort comparefn l' in
    sortedInsert comparefn x s
  end.

Definition sortTasksByPriority (tasks : list Task) : M (list Task) :=
  Array_sort sortComparator tasks.

Definition sortAndFilterTasks (tasks : list Task) (filter : TaskFilter)
    : M (list Task) :=
  let filtered := filterTasks tasks filter in
  sortTasksByPriority filtered.

(** A clock that shows the same time at every reading. *)
Definition steady (now : Z) : Clock := fun _ => now.


End Clocked.

(** ** Binary64 arithmetic

    The scoring function over IEEE 754 doubles, the numbers the source
    computes with.  It is used to check on the sample inputs that what the
    rational model shows is what double arithmetic gives. *)

Module Binary64.

Local Open Scope float_scope.

(** The double nearest an integer (exact below 2^53 in magnitude). *)
Definition Number_of_Z (z : Z) : float :=
  if (z <? 0)%Z then - of_uint63 (Uint63.of_Z (- z))
  else of_uint63 (Uint63.of_Z z).

Definition Math_min (x y : float) : float :=
  if is_nan x || is_nan y then nan
  else if x <? y then x else y.

Definition Number_isInteger (x : float) : bool :=
  match Prim2SF x with
  | S754_zero _ => true
  | S754_finite _ m e =>
    (0 <=? e)%Z || (Z.pos m mod 2 ^ (- e) =? 0)%Z
  | _ => false
  end.

Definition PRIORITY_WEIGHTS (p : Priority) : float :=
  match p with
  | HIGH => 100
  | MEDIUM => 50
  | LOW => 10
  end.

Definition hoursUntilDeadline (now : Z) (deadline : Z) : float :=
  let millisRemaining := Number_of_Z deadline - Number_of_Z now in
  millisRemaining / (1000 * 60 * 60).

Definition calculateTaskScore (now : Z) (task : Task) : float :=
  if completed task then -1000
  else
    let score := PRIORITY_WEIGHTS (priority task) in
    let hoursRemaining := hoursUntilDeadline now (deadline task) in
    let score :=
      if hoursRemaining <? 0 then score + 1000
      else if hoursRemaining <? 24 then score + 500
      else if hoursRemaining <? 48 then score + 200
      else if hoursRemaining <? 168 then score + 50
      else score in
    score - Math_min hoursRemaining 1000.

End Binary64.

(** [withCompleted c t] is [{ ...t, completed: c }]. *)
Definition withCompleted (c : bool) (t : Task) : Task :=
  mkTask (id t) (userId t) (title t) (description t) (dateTime t)
         (deadline t) (priority t) (category t) c (createdAt t) (updatedAt t).

(** Two tasks that agree on every field but [completed]. *)
Definition sameExceptCompleted (a b : Task) : Prop :=
  withCompleted true a = withCompleted true b.

(** Sample tasks. *)
Definition sampleTask (i : string) (p : Priority) (d : Z) (c : bool) : Task :=
  mkTask i "u1" "title" "" "2026-02-20T10:30:00.000Z" d p WORK c
         "2026-02-01T00:00:00.000Z" "2026-02-01T00:00:00.000Z".

Definition hourMs : Z := 3600000.

(** The scenario of the specification, section 8: A is HIGH and one hour
    overdue, B is MEDIUM and due in 50 hours, C is B completed. *)
Definition taskA : Task := sampleTask "A" HIGH (-1 * hourMs) false.
Definition taskB : Task := sampleTask "B" MEDIUM (50 * hourMs) false.
Definition taskC : Task := sampleTask "C" MEDIUM (50 * hourMs) true.

(** A task due in half an hour. *)
Definition taskHalfHour : Task := sampleTask "H" HIGH 1800000 false.

(** Two tasks that tie at any single instant: same priority, same
    deadline, both incomplete. *)
Definition tieA : Task := sampleTask "tie-A" MEDIUM (10 * hourMs) false.
Definition tieB : Task := sampleTask "tie-B" MEDIUM (10 * hourMs) false.


(** ** Doubles

    A JavaScript [number] is an IEEE 754 binary64 value.  Here a finite
    double is the rational it denotes, and an arithmetic operation is the
    exact operation followed by [round64], rounding to the nearest double,
    ties to the even significand, which is how IEEE 754 defines [+], [-],
    [*] and [/].  Comparisons of finite doubles are comparisons of their
    values.  Overflow is left out: the operands of the program are time
    values (integers of magnitude at most 8.64e15) and small constants, and
    no result comes near 2^1024. *)

Module Double.

Definition pow2 (e : Z) : Q := 2 ^ e.

(** The integer part of the binary logarithm of a positive rational. *)
Definition ilog2 (x : Q) : Z :=
  if Qle_bool 1 x then Z.log2 (Qfloor x)
  else (- Z.log2_up (Qceiling (/ x)))%Z.

(** Rounding to the nearest integer, a tie going to the even one. *)
Definition roundHalfEven (q : Q) : Z :=
  let f := Qfloor q in
  match Qcompare (q - inject_Z f) (1 # 2) with
  | Lt => f
  | Gt => (f + 1)%Z
  | Eq => if Z.even f then f else (f + 1)%Z
  end.

(** The exponent of the last place of the double nearest [x]: significands
    have 53 bits, and below 2^-1022 the spacing stays at 2^-1074. *)
Definition ulpExponent (x : Q) : Z := Z.max (-1074) (ilog2 x - 52).

Definition roundPositive (x : Q) : Q :=
  let e := ulpExponent x in
  inject_Z (roundHalfEven (x / pow2 e)) * pow2 e.

Definition round64 (x : Q) : Q :=
  match Qcompare x 0 with
  | Eq => 0
  | Gt => roundPositive x
  | Lt => - roundPositive (- x)
  end.

Definition add (x y : Q) : Q := round64 (x + y).
Definition sub (x y : Q) : Q := round64 (x - y).
Definition mul (x y : Q) : Q := round64 (x * y).
Definition div (x y : Q) : Q := round64 (x / y).

(** The value of a double, when it is finite. *)
Definition ofFloat (f : float) : option Q :=
  match Prim2SF f with
  | S754_zero _ => Some 0
  | S754_finite s m e =>
    let v := inject_Z (Z.pos m) * pow2 e in
    Some (if s then - v else v)
  | _ => None
  end.

(** [x] is the value of the double [f]. *)
Definition isFloat (x : Q) (f : float) : bool :=
  match ofFloat f with
  | Some v => Qeq_bool x v
  | None => false
  end.

(** Every double is a multiple of 2^-1074, the smallest positive one. *)
Definition onGrid (x : Q) : Prop :=
  exists k : Z, x == inject_Z k * pow2 (-1074).

(** *** The ranking at one instant

    The value each function returns when the clock shows [now] at the
    readings the function takes. *)

Definition hoursUntilDeadline (now : Z) (deadline : Z) : Q :=
  let millisRemaining := sub (inject_Z deadline) (inject_Z now) in
  div millisRemaining (mul (mul 1000 60) 60).

Definition calculateTaskScore (now : Z) (task : Task) : Q :=
  if completed task then -1000
  else
    let score := PRIORITY_WEIGHTS (priority task) in
    let hoursRemaining := hoursUntilDeadline now (deadline task) in
    let score :=
      if Qlt_bool hoursRemaining 0 then add score 1000
      else if Qlt_bool hoursRemaining 24 then add score 500
      else if Qlt_bool hoursRemaining 48 then add score 200
      else if Qlt_bool hoursRemaining 168 then add score 50
      else score in
    sub score (Math_min hoursRemaining 1000).

Definition sortComparator (now : Z) (a b : Task) : Q :=
  if completed a && negb (completed b) then 1
  else if negb (completed a) && completed b then -1
  else
    let scoreA := calculateTaskScore now a in
    let scoreB := calculateTaskScore now b in
    if negb (Qeq_bool scoreA scoreB) then sub scoreB scoreA
    else
      let deadlineA := inject_Z (deadline a) in
      let deadlineB := inject_Z (deadline b) in
      sub deadlineA deadlineB.

Definition sortTasksByPriority (now : Z) (tasks : list Task) : list Task :=
  Array_sort (sortComparator now) tasks.

Definition sortAndFilterTasks (now : Z) (tasks : list Task)
    (filter : TaskFilter) : list Task :=
  let filtered := filterTasks tasks filter in
  sortTasksByPriority now filtered.

(** [a] is ranked strictly ahead of [b]: incomplete before completed, then
    the higher score, then the earlier deadline. *)
Definition rankedAhead (now : Z) (a b : Task) : Prop :=
  (completed a = false /\ completed b = true)
  \/ (completed a = completed b
      /\ calculateTaskScore now b < calculateTaskScore now a)
  \/ (completed a = completed b
      /\ calculateTaskScore now a == calculateTaskScore now b
      /\ (deadline a < deadline b)%Z).

(** Equal completion status, equal score and equal deadline. *)
Definition residualTie (now : Z) (a b : Task) : Prop :=
  completed a = completed b
  /\ calculateTaskScore now a == calculateTaskScore now b
  /\ deadline a = deadline b.

Definition residualTieb (now : Z) (a b : Task) : bool :=
  Bool.eqb (completed a) (completed b)
  && Qeq_bool (calculateTaskScore now a) (calculateTaskScore now b)
  && (deadline a =? deadline b)%Z.

End Double.

(** ** The functions as the engine runs them

    Numbers are doubles, the clock is read where the source reads it, and
    arrays are objects. *)

Module Engine.

Local Notation "'let*' x ':=' m 'in' k" := (Clocked.bind m (fun x => k))
  (at level 10, x name, m at level 100, k at level 200, only parsing).

Definition hoursUntilDeadline (deadline : Z) : Clocked.M Q :=
  let* now := Clocked.Date_now in
  let millisRemaining := Double.sub (inject_Z deadline) (inject_Z now) in
  Clocked.ret
    (Double.div millisRemaining (Double.mul (Double.mul 1000 60) 60)).

Definition calculateTaskScore (task : Task) : Clocked.M Q :=
  if completed task then Clocked.ret (-1000)
  else
    let score := PRIORITY_WEIGHTS (priority task) in
    let* hoursRemaining := hoursUntilDeadline (deadline task) in
    let score :=
      if Qlt_bool hoursRemaining 0 then Double.add score 1000
      else if Qlt_bool hoursRemaining 24 then Double.add score 500
      else if Qlt_bool hoursRemaining 48 then Double.add score 200
      else if Qlt_bool hoursRemaining 168 then Double.add score 50
      else score in
    Clocked.ret (Double.sub score (Math_min hoursRemaining 1000)).

Definition sortComparator (a b : Task) : Clocked.M Q :=
  if completed a && negb (completed b) then Clocked.ret 1
  else if negb (completed a) && completed b then Clocked.ret (-1)
  else
    let* scoreA := calculateTaskScore a in
    let* scoreB := calculateTaskScore b in
    if negb (Qeq_bool scoreA scoreB) then
      Clocked.ret (Double.sub scoreB scoreA)
    else
      let deadlineA := inject_Z (deadline a) in
      let deadlineB := inject_Z (deadline b) in
      Clocked.ret (Double.sub deadlineA deadlineB).

Definition sortTasksByPriority (tasks : list Task) : Clocked.M (list Task) :=
  Clocked.Array_sort sortComparator tasks.

Definition sortAndFilterTasks (tasks : list Task) (filter : TaskFilter)
    : Clocked.M (list Task) :=
  let filtered := filterTasks tasks filter in
  sortTasksByPriority filtered.

(** [TaskListScreen]: [useMemo(() => sortAndFilterTasks(tasks,
    activeFilter), [tasks, activeFilter])] runs the function anew, with the
    clock as it then is, whenever the task list or the filter changes. *)
Definition displayTasks (tasks : list Task) (activeFilter : TaskFilter)
    : Clocked.M (list Task) :=
  sortAndFilterTasks tasks activeFilter.

(** Over array objects: [[...tasks].sort(comparefn)] copies the array and
    sorts the copy in place. *)
Module Arrays.

Definition sort (comparefn : Task -> Task -> Clocked.M Q) (arr : Ref.ref)
    (h : Ref.heap) : Clocked.M (option (Ref.ref * Ref.heap)) :=
  match h !! arr with
  | None => Clocked.ret None
  | Some elems =>
    let* sorted := Clocked.Array_sort comparefn elems in
    Clocked.ret (Some (arr, <[arr := sorted]> h))
  end.

Definition sortTasksByPriority (tasks : Ref.ref) (h : Ref.heap)
    : Clocked.M (option (Ref.ref * Ref.heap)) :=
  match Ref.spread tasks h with
  | None => Clocked.ret None
  | Some (copy, h1) => sort sortComparator copy h1
  end.

End Arrays.

End Engine.

(** The deadline and the clock reading are time values: integers of
    magnitude at most 8.64e15 milliseconds (ECMAScript's range of a valid
    [Date]). *)
Definition TimeValue (t : Z) : Prop := (Z.abs t <= 8640000000000000)%Z.

(** Two tasks due at the same instant, one HIGH and one LOW. *)
Definition dueHigh : Task := sampleTask "high" HIGH (24 * hourMs) false.
Definition dueLow : Task := sampleTask "low" LOW (24 * hourMs) false.

(** A clock that advances one millisecond after its first reading and then
    stands still. *)
Definition oneTick (start : Z) : Clocked.Clock :=
  fun i => match i with O => start | S _ => (start + 1)%Z end.

(** Pseudo-random integers of magnitude below [range], from a linear
    congruential generator: inputs for comparing the two models of double
    arithmetic. *)
Fixpoint sampleTimes (n : nat) (seed range : Z) : list Z :=
  match n with
  | O => []
  | S n' =>
    let seed' := ((seed * 6364136223846793005 + 1442695040888963407)
                  mod 2 ^ 64)%Z in
    ((seed' / 2 ^ 8) mod (2 * range) - range)%Z :: sampleTimes n' seed' range
  end.

(** At [now], for a task due at [d], [Double.calculateTaskScore] is the
    value of the float [Binary64.calculateTaskScore], whatever the
    priority. *)
Definition scoresAgree (now : Z) (d : Z) : bool :=
  forallb (fun p =>
             let t := sampleTask "s" p d false in
             Double.isFloat (Double.calculateTaskScore now t)
                            (Binary64.calculateTaskScore now t))
          [LOW; MEDIUM; HIGH].
(** * The code around the ranking engine *)

(** ** The other date utilities ([utils/dateUtils.ts])

    Dates are given, like [deadline], by the epoch milliseconds of the
    string; [now] is the reading of [new Date()] inside the function. *)

Definition isPast (now : Z) (date : Z) : bool := (date <? now)%Z.

Definition isOverdue (now : Z) (deadline : Z) (completed : bool) : bool :=
  if completed then false (* Completed tasks are never overdue *)
  else isPast now deadline.

Definition Math_floor (q : Q) : Z := Qfloor q.

Definition getTimeRemainingText (now : Z) (deadline : Z) : string :=
  let hours := hoursUntilDeadline now deadline in
  if Qlt_bool hours 0 then "Overdue"
  else if Qlt_bool hours 1 then
    let minutes := Math_floor (hours * 60) in
    pretty minutes +:+ " min" +:+ (if negb (minutes =? 1)%Z then "s" else "")
    +:+ " left"
  else if Qlt_bool hours 24 then
    let roundedHours := Math_floor hours in
    pretty roundedHours +:+ " hour"
    +:+ (if negb (roundedHours =? 1)%Z then "s" else "") +:+ " left"
  else
    let days := Math_floor (hours / 24) in
    pretty days +:+ " day" +:+ (if negb (days =? 1)%Z then "s" else "")
    +:+ " left".

(** "<n> <unit> left", the unit in the plural unless [n] is 1. *)
Definition quantityLeft (n : Z) (unit : string) : string :=
  pretty n +:+ " " +:+ unit +:+ (if (n =? 1)%Z then "" else "s") +:+ " left".

(** The string has a space in it. *)
Fixpoint hasSpace (s : string) : bool :=
  match s with
  | EmptyString => false
  | String c s' => Ascii.eqb c Ascii.Space || hasSpace s'
  end.

(** The numbers [getTimeRemainingText] prints, in double arithmetic. *)
Module Binary64Text.

Local Open Scope float_scope.

Definition Math_floor (x : float) : Z :=
  match Prim2SF x with
  | S754_finite false m e =>
    if (0 <=? e)%Z then Z.pos m * 2 ^ e else Z.pos m / 2 ^ (- e)
  | S754_finite true m e =>
    if (0 <=? e)%Z then - (Z.pos m * 2 ^ e)
    else - ((Z.pos m + 2 ^ (- e) - 1) / 2 ^ (- e))
  | _ => 0
  end%Z.

Definition minutes (now deadline : Z) : Z :=
  Math_floor (Binary64.hoursUntilDeadline now deadline * 60).

Definition roundedHours (now deadline : Z) : Z :=
  Math_floor (Binary64.hoursUntilDeadline now deadline).

Definition days (now deadline : Z) : Z :=
  Math_floor (Binary64.hoursUntilDeadline now deadline / 24).

End Binary64Text.

(** ** The task reducer ([context/taskReducer]) *)

Record TaskState : Set := mkTaskState {
  tasks : list Task;
  loading : bool;
  error : option string
}.

(** The six actions of [TaskAction], and any other action object, which the
    reducer's [default] arm takes. *)
Inductive TaskAction : Set :=
  | TASKS_LOADING
  | TASKS_LOADED (payload : list Task)
  | TASKS_ERROR (payload : string)
  | TASK_ADDED (payload : Task)
  | TASK_UPDATED (payload : Task)
  | TASK_DELETED (payload : string)
  | OTHER_ACTION (actionType : string).

Definition initialTaskState : TaskState :=
  {| tasks := []; loading := false; error := None |}.

Definition taskReducer (state : TaskState) (action : TaskAction) : TaskState :=
  match action with
  | TASKS_LOADING =>
    {| tasks := tasks state; loading := true; error := None |}
  | TASKS_LOADED payload =>
    {| tasks := payload; loading := false; error := None |}
  | TASKS_ERROR payload =>
    {| tasks := tasks state; loading := false; error := Some payload |}
  | TASK_ADDED payload =>
    {| tasks := tasks state ++ [payload];
       loading := loading state; error := None |}
  | TASK_UPDATED payload =>
    {| tasks :=
         map (fun task =>
                if String.eqb (id task) (id payload) then payload else task)
             (tasks state);
       loading := loading state; error := None |}
  | TASK_DELETED payload =>
    {| tasks :=
         List.filter (fun task => negb (String.eqb (id task) payload))
                     (tasks state);
       loading := loading state; error := None |}
  | OTHER_ACTION _ => state
  end.

(** The state after a sequence of dispatched actions. *)
Definition dispatchAll (state : TaskState) (actions : list TaskAction)
    : TaskState :=
  fold_left taskReducer actions state.

(** ** The operations of [TaskProvider] ([context/TaskContext.tsx])

    Each operation awaits a call of the task service and then dispatches.
    The service is not part of the sources: its outcome is an argument.
    [seen] is the state the operation's closure holds, the one of the render
    that created it; the actions returned are dispatched to the store, and
    the message, if any, is that of the error thrown to the caller. *)

Inductive Outcome (A : Type) : Type :=
  | Resolved (value : A)
  | Rejected (message : string).

Arguments Resolved {A} value.
Arguments Rejected {A} message.

Definition addTask (loggedIn : bool) (service : Outcome Task)
    : list TaskAction * option string :=
  if negb loggedIn then ([], Some "You must be logged in to add tasks")
  else
    match service with
    | Resolved newTask => ([TASK_ADDED newTask], None)
    | Rejected message => ([TASKS_ERROR message], Some message)
    end.

Definition deleteTask (loggedIn : bool) (service : Outcome unit)
    (taskId : string) : list TaskAction * option string :=
  if negb loggedIn then ([], Some "You must be logged in to delete tasks")
  else
    match service with
    | Resolved _ => ([TASK_DELETED taskId], None)
    | Rejected message => ([TASKS_ERROR message], Some message)
    end.

Definition toggleTaskCompletion (loggedIn : bool) (service : Outcome unit)
    (seen : TaskState) (taskId : string) (completed : bool)
    : list TaskAction * option string :=
  if negb loggedIn then ([], Some "You must be logged in to update tasks")
  else
    match service with
    | Resolved _ =>
      let existingTask :=
        List.find (fun t => String.eqb (id t) taskId) (tasks seen) in
      match existingTask with
      | Some existingTask =>
        let updatedTask := withCompleted completed existingTask in
        ([TASK_UPDATED updatedTask], None)
      | None => ([], None)
      end
    | Rejected message => ([TASKS_ERROR message], Some message)
    end.

(** ** The task list screen and its components *)

Module FilterBar.

Definition filters : list (TaskFilter * string) :=
  [("all", "All"); ("active", "Active"); ("completed", "Completed")].

(** The badge of a tab: [count > 0 && ...]; a missing entry is [undefined],
    which is not above zero. *)
Definition badge (counts : gmap string nat) (key : TaskFilter) : option nat :=
  match counts !! key with
  | Some count => if (0 <? count)%nat then Some count else None
  | None => None
  end.

(** The tabs: label, whether the tab is the active one, and its badge. *)
Definition tabs (activeFilter : TaskFilter) (counts : gmap string nat)
    : list (string * bool * option nat) :=
  map (fun filter : TaskFilter * string =>
         let isActive := String.eqb activeFilter (fst filter) in
         (snd filter, isActive, badge counts (fst filter)))
      filters.

End FilterBar.

Module EmptyState.

Record Content : Set := mkContent {
  emoji : string;
  title : string;
  message : string
}.

Definition getEmptyStateContent (filter : TaskFilter) : Content :=
  if String.eqb filter "active" then
    {| emoji := "🎉"; title := "All caught up!";
       message := "You have no active tasks. Great job!" |}
  else if String.eqb filter "completed" then
    {| emoji := "📝"; title := "No completed tasks yet";
       message := "Complete some tasks to see them here." |}
  else
    {| emoji := "✨"; title := "No tasks yet";
       message := "Tap the + button below to create your first task." |}.

End EmptyState.

Module TaskListScreen.

Definition taskCounts (tasks : list Task) : gmap string nat :=
  getTaskCounts tasks.

Definition displayTasks (now : Z) (tasks : list Task)
    (activeFilter : TaskFilter) : list Task :=
  sortAndFilterTasks now tasks activeFilter.

(** What the list area shows: the cards in order, or, when there is no
    card, the empty state (nothing while loading). *)
Inductive ListArea : Set :=
  | Cards (items : list Task)
  | Empty (content : EmptyState.Content)
  | Blank.

Definition renderEmptyState (loading : bool) (activeFilter : TaskFilter)
    : ListArea :=
  if loading then Blank
  else Empty (EmptyState.getEmptyStateContent activeFilter).

Definition listArea (now : Z) (state : TaskState) (activeFilter : TaskFilter)
    : ListArea :=
  match displayTasks now (tasks state) activeFilter with
  | [] => renderEmptyState (loading state) activeFilter
  | items => Cards items
  end.

End TaskListScreen.

(** ** JavaScript strings

    A string is its sequence of UTF-16 code units; [length] counts them,
    and [trim] and the regular expression class [\s] work on them. *)

Module JSString.

Abbreviation t := (list N) (only parsing).

(** WhiteSpace and LineTerminator of ECMAScript: what [trim] strips and
    what [\s] matches. *)
Definition isWhiteSpace (c : N) : bool :=
  ((c =? 9) || (c =? 10) || (c =? 11) || (c =? 12) || (c =? 13)
   || (c =? 32) || (c =? 160) || (c =? 5760)
   || ((8192 <=? c) && (c <=? 8202))
   || (c =? 8232) || (c =? 8233) || (c =? 8239) || (c =? 8287)
   || (c =? 12288) || (c =? 65279))%N.

Fixpoint trimStart (s : list N) : list N :=
  match s with
  | [] => []
  | c :: s' => if isWhiteSpace c then trimStart s' else s
  end.

Definition trimEnd (s : list N) : list N := rev (trimStart (rev s)).

Definition trim (s : list N) : list N := trimEnd (trimStart s).

(** The string does not start with white space. *)
Definition noLeadingSpace (s : list N) : Prop :=
  match s with
  | [] => True
  | c :: _ => isWhiteSpace c = false
  end.

(** The code units of a string of ASCII characters. *)
Definition ofAscii (s : string) : list N :=
  map Ascii.N_of_ascii (String.list_ascii_of_string s).

End JSString.

(** ** Regular expressions

    The fragment the validators use: character classes, sequence and
    repetition, matched against the whole input (the pattern is anchored
    by [^] and [$], without flags). *)

Module RegExp.

Inductive regex : Type :=
  | Empty
  | Eps
  | Class (p : N -> bool)
  | Seq (r1 r2 : regex)
  | Alt (r1 r2 : regex)
  | Star (r : regex).

(** [r+] *)
Definition Plus (r : regex) : regex := Seq r (Star r).

Fixpoint nullable (r : regex) : bool :=
  match r with
  | Empty => false
  | Eps => true
  | Class _ => false
  | Seq r1 r2 => nullable r1 && nullable r2
  | Alt r1 r2 => nullable r1 || nullable r2
  | Star _ => true
  end.

Fixpoint deriv (c : N) (r : regex) : regex :=
  match r with
  | Empty => Empty
  | Eps => Empty
  | Class p => if p c then Eps else Empty
  | Seq r1 r2 =>
    if nullable r1 then Alt (Seq (deriv c r1) r2) (deriv c r2)
    else Seq (deriv c r1) r2
  | Alt r1 r2 => Alt (deriv c r1) (deriv c r2)
  | Star r' => Seq (deriv c r') (Star r')
  end.

(** [/^r$/.test(s)] *)
Fixpoint test (r : regex) (s : list N) : bool :=
  match s with
  | [] => nullable r
  | c :: s' => test (deriv c r) s'
  end.

(** What it means for a regular expression to match a whole string. *)
Inductive Matches : regex -> list N -> Prop :=
  | MEps : Matches Eps []
  | MClass (p : N -> bool) (c : N) : p c = true -> Matches (Class p) [c]
  | MSeq (r1 r2 : regex) (s1 s2 : list N) :
      Matches r1 s1 -> Matches r2 s2 -> Matches (Seq r1 r2) (s1 ++ s2)
  | MAltL (r1 r2 : regex) (s : list N) : Matches r1 s -> Matches (Alt r1 r2) s
  | MAltR (r1 r2 : regex) (s : list N) : Matches r2 s -> Matches (Alt r1 r2) s
  | MStarNil (r : regex) : Matches (Star r) []
  | MStarCons (r : regex) (s1 s2 : list N) :
      Matches r s1 -> Matches (Star r) s2 -> Matches (Star r) (s1 ++ s2).

End RegExp.

(** ** Form validation ([utils/validators]) *)

Module Validators.

Import JSString RegExp.

Definition atSign : N := 64.
Definition fullStop : N := 46.

(** [[^\s@]] *)
Definition notSpaceNorAt (c : N) : bool :=
  negb (isWhiteSpace c || (c =? atSign)%N).

(** [/^[^\s@]+@[^\s@]+\.[^\s@]+$/] *)
Definition emailRegex : regex :=
  Seq (Plus (Class notSpaceNorAt))
      (Seq (Class (N.eqb atSign))
           (Seq (Plus (Class notSpaceNorAt))
                (Seq (Class (N.eqb fullStop))
                     (Plus (Class notSpaceNorAt))))).

(** [!s] for a string: true of the empty string only. *)
Definition isEmptyString (s : list N) : bool :=
  match s with [] => true | _ => false end.

Definition validateEmail (email : list N) : option string :=
  if isEmptyString email || (length (trim email) =? 0)%nat then
    Some "Email is required"
  else if negb (test emailRegex (trim email)) then
    Some "Please enter a valid email address"
  else None.

Definition validatePassword (password : list N) : option string :=
  if isEmptyString password || (length password =? 0)%nat then
    Some "Password is required"
  else if (length password <? 6)%nat then
    Some "Password must be at least 6 characters"
  else None.

Definition validatePasswordMatch (password confirmPassword : list N)
    : option string :=
  if isEmptyString confirmPassword || (length confirmPassword =? 0)%nat then
    Some "Please confirm your password"
  else if negb (bool_decide (password = confirmPassword)) then
    Some "Passwords do not match"
  else None.

Definition validateTaskTitle (title : list N) : option string :=
  if isEmptyString title || (length (trim title) =? 0)%nat then
    Some "Title is required"
  else if (100 <? length (trim title))%nat then
    Some "Title must be 100 characters or less"
  else None.

Definition validateTaskDescription (description : list N) : option string :=
  if negb (isEmptyString description) && (500 <? length description)%nat then
    Some "Description must be 500 characters or less"
  else None.

(** The date validators parse their arguments with [new Date(...)], which
    is the engine's: [Date_getTime] gives the time value of the parsed
    string, [None] standing for the NaN of an invalid date, with which
    every comparison is false. *)
Section Dates.

Context (Date_getTime : list N -> option Z).

(** [a < b] on two dates. *)
Definition dateLt (a b : option Z) : bool :=
  match a, b with
  | Some x, Some y => (x <? y)%Z
  | _, _ => false
  end.

(** [a <= b] on two dates. *)
Definition dateLe (a b : option Z) : bool :=
  match a, b with
  | Some x, Some y => (x <=? y)%Z
  | _, _ => false
  end.

Definition validateFutureDate (now : Z) (dateString : list N)
    : option string :=
  if isEmptyString dateString then Some "Date is required"
  else
    let date := Date_getTime dateString in
    if dateLt date (Some now) then Some "Date cannot be in the past"
    else None.

Definition validateDeadlineAfterStart (startDate deadline : list N)
    : option string :=
  if isEmptyString deadline then Some "Deadline is required"
  else
    let start := Date_getTime startDate in
    let end_ := Date_getTime deadline in
    if dateLe end_ start then Some "Deadline must be after start date"
    else None.

End Dates.

End Validators.

(** ** The login and registration forms

    [handleLogin] and [handleRegister] validate the form and, when it
    passes, call the authentication with the trimmed email and the
    password: the result is the pair of arguments of that call, or [None]
    when validation stops the submission. *)

(** [!v] for a validation result: true of [null] (and of an empty
    message). *)
Definition noMessage (v : option string) : bool :=
  match v with
  | None => true
  | Some s => String.eqb s ""
  end.

Module LoginScreen.

Definition validateForm (email password : list N) : bool :=
  let emailValidation := Validators.validateEmail email in
  let passwordValidation := Validators.validatePassword password in
  noMessage emailValidation && noMessage passwordValidation.

Definition handleLogin (email password : list N)
    : option (list N * list N) :=
  if negb (validateForm email password) then None
  else Some (JSString.trim email, password).

End LoginScreen.

Module RegisterScreen.

Definition validateForm (email password confirmPassword : list N) : bool :=
  let emailValidation := Validators.validateEmail email in
  let passwordValidation := Validators.validatePassword password in
  let passwordMatchValidation :=
    Validators.validatePasswordMatch password confirmPassword in
  noMessage emailValidation && noMessage passwordValidation
  && noMessage passwordMatchValidation.

Definition handleRegister (email password confirmPassword : list N)
    : option (list N * list N) :=
  if negb (validateForm email password confirmPassword) then None
  else Some (JSString.trim email, password).

End RegisterScreen.

(** ** The task form ([components/AddTaskModal])

    The form holds the title and description as typed and the two dates as
    [Date] objects; [validateForm] hands the dates to the validator as ISO
    strings.  [toISOString] and the parser are the engine's. *)

Module AddTaskModal.

Section Form.

Context (Date_getTime : list N -> option Z) (toISOString : Z -> list N).

Definition validateForm (title description : list N) (dateTime deadline : Z)
    : bool :=
  let titleValidation := Validators.validateTaskTitle title in
  let descriptionValidation :=
    Validators.validateTaskDescription description in
  let deadlineValidation :=
    Validators.validateDeadlineAfterStart Date_getTime
      (toISOString dateTime) (toISOString deadline) in
  noMessage titleValidation && noMessage descriptionValidation
  && noMessage deadlineValidation.

(** [isEditMode ? editTask!.completed : false] *)
Definition savedCompleted (editTask : option Task) : bool :=
  match editTask with
  | Some task => completed task
  | None => false
  end.

(** [CreateTaskPayload] *)
Record TaskData : Set := mkTaskData {
  title : list N;
  description : list N;
  dateTime : list N;
  deadline : list N;
  priority : Priority;
  category : Category;
  completed : bool
}.

(** The payload [handleSave] passes to [onSave], or [None] when validation
    stops it. *)
Definition handleSave (editTask : option Task) (title description : list N)
    (dateTime deadline : Z) (priority : Priority) (category : Category)
    : option TaskData :=
  if negb (validateForm title description dateTime deadline) then None
  else
    Some {| title := JSString.trim title;
            description := JSString.trim description;
            dateTime := toISOString dateTime;
            deadline := toISOString deadline;
            priority := priority;
            category := category;
            completed := savedCompleted editTask |}.

End Form.

End AddTaskModal.

(** ** Authentication state ([context/authReducer]) and the root navigator *)

Module Auth.

Section WithUser.

(** [FirebaseAuthTypes.User], which the reducer only stores. *)
Context {User : Type}.

Record AuthState : Type := mkAuthState {
  user : option User;
  loading : bool;
  error : option string
}.

Inductive AuthAction : Type :=
  | AUTH_LOADING
  | AUTH_SUCCESS (payload : User)
  | AUTH_ERROR (payload : string)
  | AUTH_LOGOUT
  | OTHER_ACTION (actionType : string).

Definition initialAuthState : AuthState :=
  {| user := None; loading := false; error := None |}.

Definition authReducer (state : AuthState) (action : AuthAction) : AuthState :=
  match action with
  | AUTH_LOADING =>
    {| user := user state; loading := true; error := None |}
  | AUTH_SUCCESS payload =>
    {| user := Some payload; loading := false; error := None |}
  | AUTH_ERROR payload =>
    {| user := None; loading := false; error := Some payload |}
  | AUTH_LOGOUT => initialAuthState
  | OTHER_ACTION _ => state
  end.

(** No error while loading, and an error only without a user and with
    loading off. *)
Definition authQuiet (state : AuthState) : Prop :=
  (loading state = true -> error state = None)
  /\ (error state <> None -> user state = None /\ loading state = false).

(** What [RootNavigator] renders. *)
Inductive Screen : Set := LoadingIndicator | AppStack | AuthStack.

Definition RootNavigator (state : AuthState) : Screen :=
  if loading state then LoadingIndicator
  else
    let isAuthenticated :=
      match user state with Some _ => true | None => false end in
    if isAuthenticated then AppStack else AuthStack.

End WithUser.

Arguments AuthState User : clear implicits.
Arguments AuthAction User : clear implicits.

End Auth.

(** A stand-in for the engine's ISO strings that parses back: the
    magnitude and the sign. *)
Definition sampleISO (d : Z) : list N :=
  [Z.abs_N d; if (d <? 0)%Z then 1%N else 0%N].

Definition sampleParse (s : list N) : option Z :=
  match s with
  | [n; sign] =>
    Some (if (sign =? 1)%N then (- Z.of_N n)%Z else Z.of_N n)
  | _ => None
  end.

(** * Properties *)

(** ** Numbers *)

Lemma Qlt_bool_iff (x y : Q) : Qlt_bool x y = true <-> x < y.
Proof.
  unfold Qlt_bool. rewrite negb_true_iff.
  destruct (Qle_bool y x) eqn:E.
  - apply Qle_bool_iff in E. split; [discriminate | intros H; lra].
  - split; [intros _ | reflexivity].
    destruct (Qlt_le_dec x y) as [H | H]; [exact H |].
    apply Qle_bool_iff in H. congruence.
Qed.

Lemma Qlt_bool_false_iff (x y : Q) : Qlt_bool x y = false <-> y <= x.
Proof.
  unfold Qlt_bool. rewrite negb_false_iff. apply Qle_bool_iff.
Qed.

Lemma Number_isInteger_spec (q : Q) :
  Number_isInteger q = true <-> exists z : Z, q == inject_Z z.
Proof.
  unfold Number_isInteger. destruct q as [n d]. cbn [Qnum Qden].
  rewrite Z.eqb_eq. split.
  - intros H. exists (n / Z.pos d)%Z. unfold Qeq; cbn.
    rewrite (Z.div_mod n (Z.pos d)) at 1 by lia. rewrite H. lia.
  - intros [z Hz]. unfold Qeq in Hz; cbn in Hz.
    rewrite Z.mul_1_r in Hz. subst n. apply Z.mod_mul. lia.
Qed.

(** ** Scoring *)

Example score_taskA : calculateTaskScore 0 taskA == 1101.
Proof. reflexivity. Qed.

Example score_taskB : calculateTaskScore 0 taskB == 50.
Proof. reflexivity. Qed.

Example score_taskC : calculateTaskScore 0 taskC == -1000.
Proof. reflexivity. Qed.

Lemma hoursUntilDeadline_spec (now : Z) (t : Task) :
  hoursUntilDeadline now (deadline t) = spec_hoursRemaining now t.
Proof. reflexivity. Qed.

Lemma calculateTaskScore_spec_score (now : Z) (task : Task) :
  calculateTaskScore now task == spec_score now task.
Proof.
  unfold calculateTaskScore, spec_score, spec_bonus, Math_min.
  rewrite hoursUntilDeadline_spec.
  destruct (completed task); [reflexivity |].
  cbv zeta.
  assert (Hb : PRIORITY_WEIGHTS (priority task) == spec_base (priority task))
    by (destruct (priority task); reflexivity).
  repeat (match goal with
          | |- context [if Qlt_bool ?x ?y then _ else _] =>
            destruct (Qlt_bool x y)
          end); rewrite Hb; ring.
Qed.

Lemma spec_bonus_tiers (h : Q) :
  (h < 0 -> spec_bonus h = 1000)
  /\ (0 <= h < 24 -> spec_bonus h = 500)
  /\ (24 <= h < 48 -> spec_bonus h = 200)
  /\ (48 <= h < 168 -> spec_bonus h = 50)
  /\ (168 <= h -> spec_bonus h = 0).
Proof.
  unfold spec_bonus.
  repeat split; intros H;
    repeat (match goal with
            | |- context [if Qlt_bool ?x ?y then _ else _] =>
              let E := fresh "E" in
              destruct (Qlt_bool x y) eqn:E;
              [apply Qlt_bool_iff in E | apply Qlt_bool_false_iff in E]
            end); try reflexivity; exfalso; lra.
Qed.

Lemma calculateTaskScore_completed (now : Z) (t : Task) :
  completed t = true -> calculateTaskScore now t = -1000.
Proof. unfold calculateTaskScore. intros ->. reflexivity. Qed.



Lemma spec_bonus_nonneg (h : Q) : 0 <= spec_bonus h.
Proof.
  unfold spec_bonus.
  repeat (match goal with
          | |- context [if Qlt_bool ?x ?y then _ else _] =>
            destruct (Qlt_bool x y)
          end); lra.
Qed.

Lemma spec_base_bounds (p : Priority) : 10 <= spec_base p <= 100.
Proof. destruct p; cbn; lra. Qed.

(** An incomplete task never scores below 10 - 1000. *)
Lemma calculateTaskScore_incomplete_lower_bound (now : Z) (t : Task) :
  completed t = false -> -990 <= calculateTaskScore now t.
Proof.
  intros Hc. rewrite calculateTaskScore_spec_score. unfold spec_score.
  rewrite Hc.
  pose proof (spec_bonus_nonneg (spec_hoursRemaining now t)).
  pose proof (spec_base_bounds (priority t)).
  pose proof (Q.le_min_r (spec_hoursRemaining now t) 1000).
  lra.
Qed.

(** C5: of two tasks that differ in [completed] only, scored at the same
    time, the completed one scores strictly lower. *)
Theorem completed_scores_lower (now : Z) (a b : Task) :
  sameExceptCompleted a b ->
  completed a = true ->
  completed b = false ->
  calculateTaskScore now a < calculateTaskScore now b.
Proof.
  intros _ Ha Hb.
  rewrite (calculateTaskScore_completed now a Ha).
  pose proof (calculateTaskScore_incomplete_lower_bound now b Hb).
  lra.
Qed.

Lemma completed_scores_lower_witness :
  calculateTaskScore 0 (withCompleted true taskB) < calculateTaskScore 0 taskB.
Proof.
  apply (completed_scores_lower 0 (withCompleted true taskB) taskB);
    reflexivity.
Defined.

(** ** Integers among the rationals *)

#[local] Instance Qintegral_proper : Proper (Qeq ==> iff) Qintegral.
Proof.
  intros x y Hxy. unfold Qintegral.
  split; intros [z Hz]; exists z; [rewrite <- Hxy | rewrite Hxy]; exact Hz.
Qed.

Lemma inject_Z_minus (x y : Z) : inject_Z (x - y) = inject_Z x - inject_Z y.
Proof. unfold Z.sub. rewrite inject_Z_plus, inject_Z_opp. reflexivity. Qed.

(** ** Double arithmetic *)

(** *** Powers of two *)

Lemma pow2_pos (e : Z) : 0 < Double.pow2 e.
Proof. apply Qpower_0_lt. reflexivity. Qed.

Lemma pow2_add (a b : Z) :
  Double.pow2 (a + b) == Double.pow2 a * Double.pow2 b.
Proof. apply Qpower_plus. discriminate. Qed.

Lemma pow2_le (a b : Z) : (a <= b)%Z -> Double.pow2 a <= Double.pow2 b.
Proof. intros H. apply Qpower_le_compat_l; [exact H | discriminate]. Qed.

Lemma pow2_lt (a b : Z) : (a < b)%Z -> Double.pow2 a < Double.pow2 b.
Proof. intros H. apply Qpower_lt_compat_l; [exact H | reflexivity]. Qed.

Lemma pow2_inject_Z (e : Z) : (0 <= e)%Z -> Double.pow2 e == inject_Z (2 ^ e).
Proof. intros H. rewrite Zpower_Qpower by exact H. reflexivity. Qed.

Lemma pow2_opp (e : Z) : Double.pow2 (- e) == / Double.pow2 e.
Proof. apply Qpower_opp. Qed.

Lemma pow2_succ (e : Z) : Double.pow2 (e + 1) == 2 * Double.pow2 e.
Proof. rewrite pow2_add. change (Double.pow2 1) with 2. ring. Qed.

(** *** The binary logarithm *)

Lemma ilog2_spec (x : Q) :
  0 < x ->
  Double.pow2 (Double.ilog2 x) <= x < Double.pow2 (Double.ilog2 x + 1).
Proof.
  intros Hx. unfold Double.ilog2.
  destruct (Qle_bool 1 x) eqn:E.
  - apply Qle_bool_iff in E.
    assert (Hf : (1 <= Qfloor x)%Z).
    { rewrite <- (Qfloor_Z 1). apply Qfloor_resp_le. exact E. }
    pose proof (Z.log2_spec (Qfloor x) ltac:(lia)) as [Hlo Hhi].
    pose proof (Z.log2_nonneg (Qfloor x)) as Hnn.
    rewrite !pow2_inject_Z by lia.
    pose proof (Qfloor_le x) as H1. pose proof (Qlt_floor x) as H2.
    rewrite Zle_Qle in Hlo.
    assert (Hhi' : (Qfloor x + 1 <= 2 ^ (Z.log2 (Qfloor x) + 1))%Z) by lia.
    rewrite Zle_Qle in Hhi'.
    split; lra.
  - assert (Hx1 : x < 1).
    { destruct (Qlt_le_dec x 1) as [H | H]; [exact H |].
      apply Qle_bool_iff in H. congruence. }
    assert (Hy : 1 < / x).
    { apply Qlt_shift_inv_l; [exact Hx | lra]. }
    set (c := Qceiling (/ x)).
    assert (Hc : (1 < c)%Z).
    { rewrite Zlt_Qlt. change (inject_Z 1) with 1.
      pose proof (Qle_ceiling (/ x)) as H. fold c in H. lra. }
    pose proof (Z.log2_up_spec c Hc) as [Hlo Hhi].
    pose proof (Z.log2_up_nonneg c) as Hnn.
    assert (Hu : (0 < Z.log2_up c)%Z) by (apply Z.log2_up_pos; exact Hc).
    set (u := Z.log2_up c) in *.
    rewrite pow2_opp.
    replace (- u + 1)%Z with (- (u - 1))%Z by lia. rewrite pow2_opp.
    rewrite !pow2_inject_Z by lia.
    assert (Hlo' : (2 ^ (u - 1) <= c - 1)%Z).
    { replace (Z.pred u) with (u - 1)%Z in Hlo by lia. lia. }
    rewrite Zle_Qle in Hlo', Hhi.
    pose proof (Qle_ceiling (/ x)) as H1. fold c in H1.
    pose proof (Qceiling_lt (/ x)) as H2. fold c in H2.
    assert (Hp1 : 0 < inject_Z (2 ^ u)).
    { rewrite <- pow2_inject_Z by lia. apply pow2_pos. }
    assert (Hp2 : 0 < inject_Z (2 ^ (u - 1))).
    { rewrite <- pow2_inject_Z by lia. apply pow2_pos. }
    split.
    + apply Qle_shift_inv_r; [exact Hp1 |].
      (* 1 <= x * 2^u  since /x <= 2^u *)
      assert (H3 : / x <= inject_Z (2 ^ u)) by lra.
      assert (H4 : x * / x == 1) by (field; lra).
      rewrite <- H4. apply Qmult_le_l; [exact Hx | exact H3].
    + apply Qlt_shift_inv_l; [exact Hp2 |].
      assert (H3 : inject_Z (2 ^ (u - 1)) < / x) by lra.
      assert (H4 : x * / x == 1) by (field; lra).
      rewrite <- H4. apply Qmult_lt_l; [exact Hx | exact H3].
Qed.

#[local] Instance ilog2_comp : Proper (Qeq ==> eq) Double.ilog2.
Proof.
  intros x y Hxy. unfold Double.ilog2. rewrite Hxy.
  destruct (Qle_bool 1 y); [apply f_equal, Qfloor_comp, Hxy |].
  do 2 apply f_equal. apply Qceiling_comp. rewrite Hxy. reflexivity.
Qed.

Lemma ilog2_le (x y : Q) :
  0 < x -> x <= y -> (Double.ilog2 x <= Double.ilog2 y)%Z.
Proof.
  intros Hx Hxy.
  destruct (ilog2_spec x Hx) as [Hx1 _].
  destruct (ilog2_spec y ltac:(lra)) as [_ Hy2].
  destruct (Z_le_gt_dec (Double.ilog2 x) (Double.ilog2 y)) as [H | H];
    [exact H | exfalso].
  pose proof (pow2_le (Double.ilog2 y + 1) (Double.ilog2 x) ltac:(lia)). lra.
Qed.

Lemma ilog2_unique (x : Q) (l : Z) :
  Double.pow2 l <= x -> x < Double.pow2 (l + 1) -> Double.ilog2 x = l.
Proof.
  intros H1 H2.
  assert (Hx : 0 < x) by (pose proof (pow2_pos l); lra).
  destruct (ilog2_spec x Hx) as [Hx1 Hx2].
  destruct (Z.lt_trichotomy (Double.ilog2 x) l) as [H | [H | H]];
    [exfalso | exact H | exfalso].
  - pose proof (pow2_le (Double.ilog2 x + 1) l ltac:(lia)). lra.
  - pose proof (pow2_le (l + 1) (Double.ilog2 x) ltac:(lia)). lra.
Qed.

(** *** Rounding to the nearest integer, ties to even *)

#[local] Instance roundHalfEven_comp :
  Proper (Qeq ==> eq) Double.roundHalfEven.
Proof.
  intros x y Hxy. unfold Double.roundHalfEven.
  rewrite (Qfloor_comp x y Hxy).
  assert (H : x - inject_Z (Qfloor y) == y - inject_Z (Qfloor y))
    by (rewrite Hxy; reflexivity).
  rewrite (Qcompare_comp _ _ H (1 # 2) (1 # 2) (Qeq_refl _)). reflexivity.
Qed.

Lemma roundHalfEven_Z (n : Z) : Double.roundHalfEven (inject_Z n) = n.
Proof.
  unfold Double.roundHalfEven. rewrite Qfloor_Z.
  destruct (Qcompare_spec (inject_Z n - inject_Z n) (1 # 2)) as [H | H | H];
    [exfalso; lra | reflexivity | exfalso; lra].
Qed.

Lemma roundHalfEven_floor (q : Q) :
  (Qfloor q <= Double.roundHalfEven q <= Qfloor q + 1)%Z.
Proof.
  unfold Double.roundHalfEven.
  destruct (Qcompare _ _); [destruct (Z.even _) | |]; lia.
Qed.

Lemma roundHalfEven_le (x y : Q) :
  x <= y -> (Double.roundHalfEven x <= Double.roundHalfEven y)%Z.
Proof.
  intros Hxy.
  pose proof (Qfloor_resp_le x y Hxy) as Hf.
  destruct (Z_lt_le_dec (Qfloor x) (Qfloor y)) as [Hlt | Hge].
  { pose proof (roundHalfEven_floor x). pose proof (roundHalfEven_floor y).
    lia. }
  assert (Heq : Qfloor x = Qfloor y) by lia.
  unfold Double.roundHalfEven. rewrite Heq.
  destruct (Qcompare_spec (x - inject_Z (Qfloor y)) (1 # 2)) as [H1 | H1 | H1];
    destruct (Qcompare_spec (y - inject_Z (Qfloor y)) (1 # 2)) as [H2 | H2 | H2];
    try destruct (Z.even (Qfloor y)); try lia; exfalso; lra.
Qed.

(** An integer bound on the argument bounds the rounded value. *)
Lemma roundHalfEven_lower (n : Z) (q : Q) :
  inject_Z n <= q -> (n <= Double.roundHalfEven q)%Z.
Proof.
  intros H. apply roundHalfEven_le in H.
  rewrite roundHalfEven_Z in H. exact H.
Qed.

Lemma roundHalfEven_upper (n : Z) (q : Q) :
  q <= inject_Z n -> (Double.roundHalfEven q <= n)%Z.
Proof.
  intros H. apply roundHalfEven_le in H.
  rewrite roundHalfEven_Z in H. exact H.
Qed.

(** *** The exponent of the last place *)

#[local] Instance ulpExponent_comp : Proper (Qeq ==> eq) Double.ulpExponent.
Proof. intros x y Hxy. unfold Double.ulpExponent. rewrite Hxy. reflexivity. Qed.

Lemma ulpExponent_le (x y : Q) :
  0 < x -> x <= y -> (Double.ulpExponent x <= Double.ulpExponent y)%Z.
Proof.
  intros Hx Hxy. unfold Double.ulpExponent.
  pose proof (ilog2_le x y Hx Hxy). lia.
Qed.

Lemma ulpExponent_min (x : Q) : (-1074 <= Double.ulpExponent x)%Z.
Proof. unfold Double.ulpExponent. lia. Qed.

(** The significand is below 2^53, and at least 2^52 for a normal number. *)
Lemma significand_upper (x : Q) :
  0 < x -> x / Double.pow2 (Double.ulpExponent x) < inject_Z (2 ^ 53).
Proof.
  intros Hx. apply Qlt_shift_div_r; [apply pow2_pos |].
  rewrite <- pow2_inject_Z, <- pow2_add by lia.
  destruct (ilog2_spec x Hx) as [_ H].
  eapply Qlt_le_trans; [exact H |]. apply pow2_le.
  unfold Double.ulpExponent. lia.
Qed.

Lemma significand_lower (x : Q) :
  0 < x -> (-1074 < Double.ulpExponent x)%Z ->
  inject_Z (2 ^ 52) <= x / Double.pow2 (Double.ulpExponent x).
Proof.
  intros Hx He. apply Qle_shift_div_l; [apply pow2_pos |].
  rewrite <- pow2_inject_Z, <- pow2_add by lia.
  destruct (ilog2_spec x Hx) as [H _].
  eapply Qle_trans; [| exact H]. apply pow2_le.
  unfold Double.ulpExponent in *. lia.
Qed.

(** *** Rounding a positive number *)

#[local] Instance roundPositive_comp :
  Proper (Qeq ==> Qeq) Double.roundPositive.
Proof.
  intros x y Hxy. unfold Double.roundPositive.
  rewrite (ulpExponent_comp x y Hxy).
  assert (H : x / Double.pow2 (Double.ulpExponent y)
              == y / Double.pow2 (Double.ulpExponent y))
    by (rewrite Hxy; reflexivity).
  rewrite (roundHalfEven_comp _ _ H). reflexivity.
Qed.

Lemma roundPositive_nonneg (x : Q) : 0 < x -> 0 <= Double.roundPositive x.
Proof.
  intros Hx. unfold Double.roundPositive.
  apply Qmult_le_0_compat; [| apply Qlt_le_weak, pow2_pos].
  change 0 with (inject_Z 0). rewrite <- Zle_Qle.
  apply roundHalfEven_lower. change (inject_Z 0) with 0.
  apply Qle_shift_div_l; [apply pow2_pos | lra].
Qed.

Lemma roundPositive_le (x y : Q) :
  0 < x -> x <= y -> Double.roundPositive x <= Double.roundPositive y.
Proof.
  intros Hx Hxy. unfold Double.roundPositive.
  pose proof (ulpExponent_le x y Hx Hxy) as He.
  set (ex := Double.ulpExponent x) in *.
  set (ey := Double.ulpExponent y) in *.
  destruct (Z_lt_le_dec ex ey) as [Hlt | Hge].
  - (* [y] is in a higher binade *)
    pose proof (significand_upper x Hx) as Hu. fold ex in Hu.
    pose proof (significand_lower y ltac:(lra)) as Hl. fold ey in Hl.
    pose proof (ulpExponent_min x) as Hm. fold ex in Hm.
    specialize (Hl ltac:(lia)).
    apply Qlt_le_weak, roundHalfEven_upper in Hu.
    apply roundHalfEven_lower in Hl.
    rewrite Zle_Qle in Hu, Hl.
    pose proof (pow2_pos ex) as Hpx. pose proof (pow2_pos ey) as Hpy.
    apply Qle_trans with (inject_Z (2 ^ 53) * Double.pow2 ex).
    { apply Qmult_le_compat_r; [exact Hu | lra]. }
    apply Qle_trans with (inject_Z (2 ^ 52) * Double.pow2 ey).
    2: { apply Qmult_le_compat_r; [exact Hl | lra]. }
    rewrite <- !pow2_inject_Z, <- !pow2_add by lia.
    apply pow2_le. lia.
  - assert (Heq : ex = ey) by lia. rewrite Heq.
    pose proof (pow2_pos ey) as Hp.
    apply Qmult_le_compat_r; [| lra].
    rewrite <- Zle_Qle. apply roundHalfEven_le.
    apply Qmult_le_compat_r; [exact Hxy |].
    apply Qlt_le_weak, Qinv_lt_0_compat, Hp.
Qed.

(** A number with a significand below 2^53 and an exponent in range is a
    double: rounding leaves it as it is. *)
Lemma roundPositive_dyadic (m e : Z) :
  (0 < m < 2 ^ 53)%Z -> (-1074 <= e)%Z ->
  Double.roundPositive (inject_Z m * Double.pow2 e)
  == inject_Z m * Double.pow2 e.
Proof.
  intros Hm He. unfold Double.roundPositive.
  pose proof (pow2_pos e) as Hpe.
  assert (Hl : Double.ilog2 (inject_Z m * Double.pow2 e) = (Z.log2 m + e)%Z).
  { pose proof (Z.log2_spec m ltac:(lia)) as [Hlo Hhi].
    pose proof (Z.log2_nonneg m) as Hnn.
    rewrite Zle_Qle in Hlo. rewrite Zlt_Qlt in Hhi.
    rewrite <- !pow2_inject_Z in Hlo, Hhi by lia.
    apply ilog2_unique.
    - rewrite pow2_add. apply Qmult_le_compat_r; [exact Hlo | lra].
    - replace (Z.log2 m + e + 1)%Z with (Z.succ (Z.log2 m) + e)%Z by lia.
      rewrite pow2_add. apply Qmult_lt_compat_r; [exact Hpe | exact Hhi]. }
  assert (Hlog : (Z.log2 m < 53)%Z) by (apply Z.log2_lt_pow2; lia).
  unfold Double.ulpExponent. rewrite Hl.
  set (e' := Z.max (-1074) (Z.log2 m + e - 52)).
  assert (He' : (e' <= e)%Z) by (unfold e'; lia).
  pose proof (pow2_pos e') as Hpe'.
  assert (Hd : Double.pow2 e == inject_Z (2 ^ (e - e')) * Double.pow2 e').
  { rewrite <- pow2_inject_Z, <- pow2_add by lia.
    replace (e - e' + e')%Z with e by lia. reflexivity. }
  assert (Hs : inject_Z m * Double.pow2 e / Double.pow2 e'
               == inject_Z (m * 2 ^ (e - e'))).
  { rewrite inject_Z_mult, Hd. field. lra. }
  rewrite (roundHalfEven_comp _ _ Hs), roundHalfEven_Z.
  rewrite inject_Z_mult, Hd. ring.
Qed.

Lemma roundPositive_grid (x : Q) :
  exists k : Z, Double.roundPositive x == inject_Z k * Double.pow2 (-1074).
Proof.
  unfold Double.roundPositive.
  pose proof (ulpExponent_min x) as He.
  set (e := Double.ulpExponent x) in *.
  exists (Double.roundHalfEven (x / Double.pow2 e) * 2 ^ (e + 1074))%Z.
  rewrite inject_Z_mult, <- pow2_inject_Z by lia.
  replace e with ((e + 1074) + -1074)%Z at 2 by lia.
  rewrite (pow2_add (e + 1074) (-1074)). ring.
Qed.

(** *** Rounding to the nearest double *)

#[local] Instance round64_comp : Proper (Qeq ==> Qeq) Double.round64.
Proof.
  intros x y Hxy. unfold Double.round64.
  rewrite (Qcompare_comp x y Hxy 0 0 (Qeq_refl 0)).
  destruct (Qcompare y 0); [reflexivity | |].
  - assert (H : - x == - y) by (rewrite Hxy; reflexivity).
    rewrite (roundPositive_comp _ _ H). reflexivity.
  - apply roundPositive_comp, Hxy.
Qed.

Lemma round64_0 : Double.round64 0 == 0.
Proof. reflexivity. Qed.

Lemma round64_opp (x : Q) : Double.round64 (- x) == - Double.round64 x.
Proof.
  unfold Double.round64.
  destruct (Qcompare_spec x 0) as [H | H | H];
    destruct (Qcompare_spec (- x) 0) as [H' | H' | H'];
    try (exfalso; lra); try reflexivity.
  - ring.
  - assert (E : - - x == x) by ring.
    rewrite (roundPositive_comp _ _ E). reflexivity.
Qed.

Lemma round64_nonneg (x : Q) : 0 <= x -> 0 <= Double.round64 x.
Proof.
  intros Hx. unfold Double.round64.
  destruct (Qcompare_spec x 0) as [H | H | H]; [lra | exfalso; lra |].
  apply roundPositive_nonneg, H.
Qed.

Lemma round64_nonpos (x : Q) : x <= 0 -> Double.round64 x <= 0.
Proof.
  intros Hx. pose proof (round64_nonneg (- x) ltac:(lra)) as H.
  rewrite round64_opp in H. lra.
Qed.

(** Rounding is monotone. *)
Lemma round64_le (x y : Q) : x <= y -> Double.round64 x <= Double.round64 y.
Proof.
  intros Hxy.
  destruct (Qlt_le_dec 0 x) as [Hx | Hx].
  - unfold Double.round64.
    destruct (Qcompare_spec x 0) as [H | H | H]; try (exfalso; lra).
    destruct (Qcompare_spec y 0) as [H' | H' | H']; try (exfalso; lra).
    apply roundPositive_le; assumption.
  - destruct (Qlt_le_dec 0 y) as [Hy | Hy].
    + pose proof (round64_nonpos x Hx).
      pose proof (round64_nonneg y ltac:(lra)). lra.
    + destruct (Qeq_dec y 0) as [Hy0 | Hy0].
      { rewrite (round64_comp _ _ Hy0). apply round64_nonpos, Hx. }
      assert (Hy' : y < 0) by lra. assert (Hx' : x < 0) by lra.
      unfold Double.round64.
      destruct (Qcompare_spec x 0) as [H | H | H]; try (exfalso; lra).
      destruct (Qcompare_spec y 0) as [H' | H' | H']; try (exfalso; lra).
      apply Qopp_le_compat. apply roundPositive_le; lra.
Qed.

(** A number [m * 2^e] with [|m| < 2^53] and [-1074 <= e] is a double. *)
Lemma round64_dyadic (m e : Z) :
  (Z.abs m < 2 ^ 53)%Z -> (-1074 <= e)%Z ->
  Double.round64 (inject_Z m * Double.pow2 e) == inject_Z m * Double.pow2 e.
Proof.
  intros Hm He. pose proof (pow2_pos e) as Hp.
  destruct (Z.lt_trichotomy m 0) as [H | [H | H]].
  - assert (E : inject_Z m * Double.pow2 e
                == - (inject_Z (- m) * Double.pow2 e))
      by (rewrite inject_Z_opp; ring).
    rewrite (round64_comp _ _ E), round64_opp.
    assert (Hpos : 0 < inject_Z (- m) * Double.pow2 e).
    { apply Qmult_lt_0_compat; [| exact Hp].
      change 0 with (inject_Z 0). rewrite <- Zlt_Qlt. lia. }
    unfold Double.round64.
    destruct (Qcompare_spec (inject_Z (- m) * Double.pow2 e) 0)
      as [H' | H' | H']; try (exfalso; lra).
    rewrite roundPositive_dyadic by lia. symmetry. exact E.
  - subst m. assert (E : inject_Z 0 * Double.pow2 e == 0) by ring.
    rewrite (round64_comp _ _ E). rewrite E. reflexivity.
  - assert (Hpos : 0 < inject_Z m * Double.pow2 e).
    { apply Qmult_lt_0_compat; [| exact Hp].
      change 0 with (inject_Z 0). rewrite <- Zlt_Qlt. lia. }
    unfold Double.round64.
    destruct (Qcompare_spec (inject_Z m * Double.pow2 e) 0)
      as [H' | H' | H']; try (exfalso; lra).
    apply roundPositive_dyadic; lia.
Qed.

(** Integers below 2^53 in magnitude are doubles. *)
Lemma round64_Z (n : Z) :
  (Z.abs n < 2 ^ 53)%Z -> Double.round64 (inject_Z n) == inject_Z n.
Proof.
  intros H. pose proof (round64_dyadic n 0 H ltac:(lia)) as E.
  assert (E' : inject_Z n * Double.pow2 0 == inject_Z n)
    by (change (Double.pow2 0) with 1; ring).
  rewrite (round64_comp _ _ E') in E. rewrite E, E'. reflexivity.
Qed.

Lemma round64_onGrid (x : Q) : Double.onGrid (Double.round64 x).
Proof.
  unfold Double.round64.
  destruct (Qcompare x 0).
  - exists 0%Z. ring.
  - destruct (roundPositive_grid (- x)) as [k Hk]. exists (- k)%Z.
    rewrite Hk, inject_Z_opp. ring.
  - apply roundPositive_grid.
Qed.

Lemma inject_Z_onGrid (n : Z) : Double.onGrid (inject_Z n).
Proof.
  exists (n * 2 ^ 1074)%Z.
  rewrite inject_Z_mult, <- pow2_inject_Z by lia.
  rewrite <- Qmult_assoc, <- pow2_add.
  change (Double.pow2 (1074 + -1074)) with 1. ring.
Qed.

Lemma onGrid_sub (x y : Q) :
  Double.onGrid x -> Double.onGrid y -> Double.onGrid (x - y).
Proof.
  intros [k Hk] [l Hl]. exists (k - l)%Z.
  rewrite Hk, Hl. unfold Z.sub. rewrite inject_Z_plus, inject_Z_opp. ring.
Qed.

(** No underflow to zero: the rounded difference of two doubles has the
    sign of the exact difference. *)
Lemma round64_pos (x : Q) : Double.onGrid x -> 0 < x -> 0 < Double.round64 x.
Proof.
  intros [k Hk] Hx.
  pose proof (pow2_pos (-1074)) as Hp.
  assert (Hk1 : (1 <= k)%Z).
  { destruct (Z_lt_le_dec k 1) as [H | H]; [exfalso | exact H].
    assert (Hk0 : inject_Z k <= 0).
    { change 0 with (inject_Z 0). rewrite <- Zle_Qle. lia. }
    assert (inject_Z k * Double.pow2 (-1074) <= 0); [| lra].
    apply Qle_trans with (0 * Double.pow2 (-1074)); [| lra].
    apply Qmult_le_compat_r; lra. }
  assert (Hge : inject_Z 1 * Double.pow2 (-1074) <= x).
  { rewrite Hk. apply Qmult_le_compat_r; [| lra].
    rewrite <- Zle_Qle. exact Hk1. }
  apply round64_le in Hge.
  rewrite round64_dyadic in Hge by lia.
  change (inject_Z 1) with 1 in Hge. lra.
Qed.

Lemma round64_sign (x : Q) :
  Double.onGrid x ->
  (0 < Double.round64 x <-> 0 < x)
  /\ (Double.round64 x == 0 <-> x == 0)
  /\ (Double.round64 x < 0 <-> x < 0).
Proof.
  intros Hg.
  assert (Hg' : Double.onGrid (- x)).
  { destruct Hg as [k Hk]. exists (- k)%Z. rewrite Hk, inject_Z_opp. ring. }
  pose proof (round64_pos x Hg) as Hp.
  pose proof (round64_pos (- x) Hg') as Hn. rewrite round64_opp in Hn.
  pose proof (round64_nonneg x) as H1. pose proof (round64_nonpos x) as H2.
  destruct (Qlt_le_dec 0 x) as [Hx | Hx].
  { specialize (Hp Hx). repeat split; intros; lra. }
  destruct (Qlt_le_dec x 0) as [Hx' | Hx'].
  { specialize (Hn ltac:(lra)). repeat split; intros; lra. }
  assert (E : x == 0) by lra.
  rewrite (round64_comp _ _ E). change (Double.round64 0) with 0.
  repeat split; intros; lra.
Qed.

(** *** Operations on doubles *)

Lemma sub_sign (x y : Q) :
  Double.onGrid x -> Double.onGrid y ->
  (Double.sub x y < 0 <-> x < y)
  /\ (Double.sub x y == 0 <-> x == y)
  /\ (0 < Double.sub x y <-> y < x).
Proof.
  intros Hx Hy. unfold Double.sub.
  destruct (round64_sign (x - y) (onGrid_sub x y Hx Hy)) as (Hp & Hz & Hn).
  rewrite Hp, Hz, Hn. repeat split; intros; lra.
Qed.

Lemma sub_comp (x x' y y' : Q) :
  x == x' -> y == y' -> Double.sub x y == Double.sub x' y'.
Proof.
  intros Hx Hy. unfold Double.sub. apply round64_comp.
  rewrite Hx, Hy. reflexivity.
Qed.

Lemma sub_le (x x' y y' : Q) :
  x <= x' -> y' <= y -> Double.sub x y <= Double.sub x' y'.
Proof. intros Hx Hy. unfold Double.sub. apply round64_le. lra. Qed.

Lemma div_comp (x x' y : Q) :
  x == x' -> Double.div x y == Double.div x' y.
Proof.
  intros Hx. unfold Double.div. apply round64_comp.
  rewrite Hx. reflexivity.
Qed.

Lemma div_le (x x' y : Q) :
  0 < y -> x <= x' -> Double.div x y <= Double.div x' y.
Proof.
  intros Hy Hx. unfold Double.div. apply round64_le.
  apply Qmult_le_compat_r; [exact Hx |].
  apply Qlt_le_weak, Qinv_lt_0_compat, Hy.
Qed.

(** The constant [1000 * 60 * 60]. *)
Lemma millisPerHour : Double.mul (Double.mul 1000 60) 60 == 3600000.
Proof. vm_compute. reflexivity. Qed.

(** Adding an urgency bonus to a priority weight is exact. *)
Lemma add_bonus (p : Priority) :
  Double.add (PRIORITY_WEIGHTS p) 1000 == PRIORITY_WEIGHTS p + 1000
  /\ Double.add (PRIORITY_WEIGHTS p) 500 == PRIORITY_WEIGHTS p + 500
  /\ Double.add (PRIORITY_WEIGHTS p) 200 == PRIORITY_WEIGHTS p + 200
  /\ Double.add (PRIORITY_WEIGHTS p) 50 == PRIORITY_WEIGHTS p + 50.
Proof. destruct p; repeat split; vm_compute; reflexivity. Qed.

(** The PrimFloat operations of the kernel give the same values. *)
Example round64_agrees_with_floats :
  Double.isFloat (Double.div 361200000 3600000) (361200000 / 3600000)%float
  && Double.isFloat (Double.div 181200000 3600000) (181200000 / 3600000)%float
  && Double.isFloat (Double.div 1 3600000) (1 / 3600000)%float
  && Double.isFloat (Double.div (-90000001) 3600000) (-90000001 / 3600000)%float
  && Double.isFloat (Double.div 1 3) (1 / 3)%float
  && Double.isFloat (Double.sub 150 (Double.div 361200000 3600000))
                    (150 - 361200000 / 3600000)%float
  && Double.isFloat (Double.sub 100 (Double.div 181200000 3600000))
                    (100 - 181200000 / 3600000)%float
  && Double.isFloat (Double.sub (inject_Z 8640000000000000)
                                (inject_Z (-8639999999999999)))
                    (8640000000000000 - -8639999999999999)%float
  && Double.isFloat (Double.div 1 10) (1 / 10)%float
  && Double.isFloat (Double.mul (Double.div 1 10) 3) (1 / 10 * 3)%float
  && Double.isFloat (Double.add (Double.div 1 10) (Double.div 2 10))
                    (1 / 10 + 2 / 10)%float
  = true.
Proof. vm_compute. reflexivity. Qed.

(** ** The score in double arithmetic *)

Lemma Double_hoursUntilDeadline_eq (now d : Z) :
  Double.hoursUntilDeadline now d
  == Double.round64 (Double.round64 (inject_Z (d - now)) / 3600000).
Proof.
  unfold Double.hoursUntilDeadline, Double.div, Double.sub.
  rewrite millisPerHour, inject_Z_minus. reflexivity.
Qed.

(** When the two time values are less than 2^53 ms apart, their difference
    is exact, and the hours are the quotient rounded once. *)
Lemma Double_hoursUntilDeadline_exact (now d : Z) :
  (Z.abs (d - now) < 2 ^ 53)%Z ->
  Double.hoursUntilDeadline now d
  == Double.round64 (inject_Z (d - now) / 3600000).
Proof.
  intros H. rewrite Double_hoursUntilDeadline_eq, (round64_Z _ H).
  reflexivity.
Qed.

Lemma Double_hoursUntilDeadline_le (now d1 d2 : Z) :
  (d1 <= d2)%Z ->
  Double.hoursUntilDeadline now d1 <= Double.hoursUntilDeadline now d2.
Proof.
  intros H. rewrite !Double_hoursUntilDeadline_eq.
  apply round64_le.
  apply Qmult_le_compat_r; [| discriminate].
  apply round64_le. rewrite <- Zle_Qle. lia.
Qed.

(** The score of an incomplete task: weight plus bonus, less the capped
    hours, rounded once. *)
Lemma Double_calculateTaskScore_incomplete (now : Z) (task : Task) :
  completed task = false ->
  Double.calculateTaskScore now task
  == Double.round64
       (PRIORITY_WEIGHTS (priority task)
        + spec_bonus (Double.hoursUntilDeadline now (deadline task))
        - Qmin (Double.hoursUntilDeadline now (deadline task)) 1000).
Proof.
  intros Hc. unfold Double.calculateTaskScore. rewrite Hc. cbv zeta.
  unfold spec_bonus, Math_min.
  destruct (add_bonus (priority task)) as (H1 & H2 & H3 & H4).
  set (h := Double.hoursUntilDeadline now (deadline task)).
  destruct (Qlt_bool h 0); [apply sub_comp; [exact H1 | reflexivity] |].
  destruct (Qlt_bool h 24); [apply sub_comp; [exact H2 | reflexivity] |].
  destruct (Qlt_bool h 48); [apply sub_comp; [exact H3 | reflexivity] |].
  destruct (Qlt_bool h 168); [apply sub_comp; [exact H4 | reflexivity] |].
  apply sub_comp; [ring | reflexivity].
Qed.

Lemma Double_calculateTaskScore_onGrid (now : Z) (task : Task) :
  Double.onGrid (Double.calculateTaskScore now task).
Proof.
  unfold Double.calculateTaskScore.
  destruct (completed task); [apply (inject_Z_onGrid (-1000)) |].
  apply round64_onGrid.
Qed.

(** On 1300 pseudo-random deadlines around a clock reading of February
    2026 (within eight days, within six weeks, and anywhere in the range of
    time values), for each priority, the score is the value the kernel's
    floats give. *)
Example Double_agrees_with_Binary64 :
  forallb (scoresAgree 1771583400000)
          (map (Z.add 1771583400000) (sampleTimes 400 1 700000000)
           ++ map (Z.add 1771583400000) (sampleTimes 400 2 4000000000)
           ++ sampleTimes 400 3 8640000000000000)
  && forallb (fun now => scoresAgree now 8640000000000000)
             (sampleTimes 100 4 8640000000000000)
  = true.
Proof. vm_compute. reflexivity. Qed.

(** ** Integrality of the score *)

Lemma weight_plus_bonus_Z (p : Priority) (h : Q) :
  exists B : Z,
    (10 <= B <= 1100)%Z /\ PRIORITY_WEIGHTS p + spec_bonus h == inject_Z B.
Proof.
  unfold spec_bonus.
  destruct p; cbn [PRIORITY_WEIGHTS];
    repeat (match goal with
            | |- context [if Qlt_bool ?x ?y then _ else _] =>
              destruct (Qlt_bool x y)
            end);
    match goal with
    | |- exists B : Z, _ /\ ?q == _ =>
      let v := eval vm_compute in (Qnum (Qred q)) in exists v
    end; (split; [lia | reflexivity]).
Qed.

Lemma spec_bonus_far (h : Q) : 168 <= h -> spec_bonus h == 0.
Proof.
  intros H. unfold spec_bonus.
  repeat (match goal with
          | |- context [if Qlt_bool ?x ?y then _ else _] =>
            destruct (Qlt_bool x y) eqn:?E
          end); try reflexivity;
    match goal with E : Qlt_bool _ _ = true |- _ =>
      apply Qlt_bool_iff in E; lra end.
Qed.

(** Between two consecutive integers of magnitude at most 2^30 the doubles
    are less than 2^-22 apart: a number at least 2^-22 away from both
    rounds to a double that is as far away. *)
Lemma round64_between (k : Z) (x : Q) :
  (Z.abs k <= 2 ^ 30 + 1200)%Z ->
  inject_Z k + Double.pow2 (-22) <= x ->
  x <= inject_Z (k + 1) - Double.pow2 (-22) ->
  inject_Z k + Double.pow2 (-22) <= Double.round64 x
  /\ Double.round64 x <= inject_Z (k + 1) - Double.pow2 (-22).
Proof.
  intros Hk Hlo Hhi.
  assert (Hp : Double.pow2 22 * Double.pow2 (-22) == 1).
  { rewrite <- pow2_add. reflexivity. }
  assert (E1 : inject_Z (k * 2 ^ 22 + 1) * Double.pow2 (-22)
               == inject_Z k + Double.pow2 (-22)).
  { rewrite inject_Z_plus, inject_Z_mult, <- (pow2_inject_Z 22) by lia.
    change (inject_Z 1) with 1.
    transitivity (inject_Z k * (Double.pow2 22 * Double.pow2 (-22))
                  + Double.pow2 (-22)); [ring |].
    rewrite Hp. ring. }
  assert (E2 : inject_Z ((k + 1) * 2 ^ 22 - 1) * Double.pow2 (-22)
               == inject_Z (k + 1) - Double.pow2 (-22)).
  { rewrite inject_Z_minus, inject_Z_mult, <- (pow2_inject_Z 22) by lia.
    change (inject_Z 1) with 1.
    transitivity (inject_Z (k + 1) * (Double.pow2 22 * Double.pow2 (-22))
                  - Double.pow2 (-22)); [ring |].
    rewrite Hp. ring. }
  split.
  - apply round64_le in Hlo.
    rewrite <- (round64_comp _ _ E1) in Hlo.
    rewrite round64_dyadic in Hlo by lia.
    rewrite E1 in Hlo. exact Hlo.
  - apply round64_le in Hhi.
    rewrite <- (round64_comp _ _ E2) in Hhi.
    rewrite round64_dyadic in Hhi by lia.
    rewrite E2 in Hhi. exact Hhi.
Qed.

(** A number of milliseconds that is no whole number of hours is at least
    one millisecond, which is more than 2^-22 hours, away from one. *)
Lemma hours_between (ms : Z) :
  ~ (3600000 | ms)%Z ->
  inject_Z (ms / 3600000) + Double.pow2 (-22) <= inject_Z ms / 3600000
  /\ inject_Z ms / 3600000
     <= inject_Z (ms / 3600000 + 1) - Double.pow2 (-22).
Proof.
  intros Hnd.
  pose proof (Z.div_mod ms 3600000 ltac:(lia)) as Hdm.
  pose proof (Z.mod_pos_bound ms 3600000 ltac:(lia)) as Hb.
  assert (Hr : (ms mod 3600000 <> 0)%Z).
  { intros H0. apply Hnd. apply Z.mod_divide; [lia | exact H0]. }
  set (k := (ms / 3600000)%Z) in *. set (r := (ms mod 3600000)%Z) in *.
  assert (Hms : inject_Z ms / 3600000 == inject_Z k + inject_Z r / 3600000).
  { rewrite Hdm, inject_Z_plus, inject_Z_mult.
    change (inject_Z 3600000) with 3600000. field. }
  assert (Hr1 : 1 <= inject_Z r).
  { change 1 with (inject_Z 1). rewrite <- Zle_Qle. lia. }
  assert (Hr2 : inject_Z r <= 3599999).
  { change 3599999 with (inject_Z 3599999). rewrite <- Zle_Qle. lia. }
  assert (He : Double.pow2 (-22) == 1 # 4194304) by reflexivity.
  rewrite Hms, He, inject_Z_plus. change (inject_Z 1) with 1.
  split.
  - apply Qplus_le_r. apply Qle_shift_div_l; [reflexivity |]. lra.
  - assert (inject_Z r / 3600000 <= 3599999 / 3600000).
    { apply Qmult_le_compat_r; [exact Hr2 | discriminate]. }
    assert (3599999 / 3600000 <= 1 - (1 # 4194304)) by discriminate.
    lra.
Qed.

Example score_taskHalfHour : calculateTaskScore 0 taskHalfHour == 1199 # 2.
Proof. reflexivity. Qed.

(** In double arithmetic too: 1800000 / 3600000 is 0.5 exactly. *)
Example binary64_score_taskHalfHour :
  Binary64.calculateTaskScore 0 taskHalfHour = 599.5%float
  /\ Binary64.Number_isInteger (Binary64.calculateTaskScore 0 taskHalfHour)
     = false.
Proof. split; vm_compute; reflexivity. Qed.

Example binary64_score_scenario :
  Binary64.calculateTaskScore 0 taskA = 1101%float
  /\ Binary64.calculateTaskScore 0 taskB = 50%float
  /\ Binary64.calculateTaskScore 0 taskC = (-1000)%float.
Proof. repeat split; vm_compute; reflexivity. Qed.

(** The source computes in doubles, and so does this example: 1800000 /
    3600000 is 0.5 exactly. *)
Example Double_score_taskHalfHour :
  Double.calculateTaskScore 0 taskHalfHour == 1199 # 2
  /\ Double.isFloat (Double.calculateTaskScore 0 taskHalfHour)
                    (Binary64.calculateTaskScore 0 taskHalfHour) = true.
Proof. split; vm_compute; reflexivity. Qed.

(** A quotient that is no double is rounded, and 3600000 times the score
    is then no integer either: HIGH, due in 25 hours and one millisecond,
    scores 274.99999972222224. *)
Example Double_score_rounded :
  let t := sampleTask "r" HIGH 90000001 false in
  Double.isFloat (Double.calculateTaskScore 0 t)
                 (Binary64.calculateTaskScore 0 t) = true
  /\ Number_isInteger (Double.calculateTaskScore 0 t) = false
  /\ Number_isInteger (Double.mul (Double.calculateTaskScore 0 t) 3600000)
     = false
  /\ Double.isFloat (Double.mul (Double.calculateTaskScore 0 t) 3600000)
                    (Binary64.calculateTaskScore 0 t * 3600000)%float = true.
Proof. repeat split; vm_compute; reflexivity. Qed.

(** C8, as stated, fails: the HIGH task due in thirty minutes scores
    100 + 500 - 0.5 = 599.5, which is no integer. *)
Lemma calculateTaskScore_not_always_integer :
  ~ (forall (now : Z) (task : Task),
        Number_isInteger (Double.calculateTaskScore now task) = true).
Proof.
  intros H. specialize (H 0%Z taskHalfHour). vm_compute in H. discriminate.
Qed.

(** C8, amended: for a task that is not more than 2^30 hours overdue, the
    score, computed in doubles, is an integer exactly when the task is
    completed, or the deadline is at least 1000 hours after [now], or the
    deadline is a whole number of hours away from [now]. *)
Theorem calculateTaskScore_integer_iff (now : Z) (task : Task) :
  (- (2 ^ 30 * 3600000) <= deadline task - now)%Z ->
  (Number_isInteger (Double.calculateTaskScore now task) = true <->
     completed task = true
     \/ (1000 * 3600000 <= deadline task - now)%Z
     \/ (3600000 | deadline task - now)%Z).
Proof.
  intros Hr. rewrite Number_isInteger_spec.
  destruct (completed task) eqn:Hc.
  { unfold Double.calculateTaskScore. rewrite Hc.
    split; [auto | intros _; exists (-1000)%Z; reflexivity]. }
  rewrite (Qintegral_proper _ _
             (Double_calculateTaskScore_incomplete now task Hc)).
  set (ms := (deadline task - now)%Z) in *.
  set (h := Double.hoursUntilDeadline now (deadline task)).
  destruct (weight_plus_bonus_Z (priority task) h) as (B & HB & HBeq).
  destruct (Z_le_gt_dec (1000 * 3600000) ms) as [Hfar | Hnear].
  - (* at least 1000 hours left: the subtrahend is the cap *)
    assert (Hh : 1000 <= h).
    { unfold h. rewrite Double_hoursUntilDeadline_eq. fold ms.
      assert (H1 : inject_Z 3600000000 <= inject_Z ms)
        by (rewrite <- Zle_Qle; lia).
      apply round64_le in H1. rewrite round64_Z in H1 by lia.
      assert (H2 : 1000 <= Double.round64 (inject_Z ms) / 3600000).
      { apply Qle_shift_div_l; [reflexivity |].
        change (1000 * 3600000) with (inject_Z 3600000000). exact H1. }
      apply round64_le in H2.
      change 1000 with (inject_Z 1000) in H2 at 1.
      rewrite round64_Z in H2 by lia. exact H2. }
    assert (E : PRIORITY_WEIGHTS (priority task) + spec_bonus h - Qmin h 1000
                == inject_Z (B - 1000)).
    { rewrite HBeq, (Q.min_r h 1000 Hh), inject_Z_minus. reflexivity. }
    rewrite (Qintegral_proper _ _ (round64_comp _ _ E)).
    rewrite (Qintegral_proper _ _ (round64_Z (B - 1000) ltac:(lia))).
    split; [intros _; right; left; exact Hfar | intros _; eexists; reflexivity].
  - assert (Hms : (Z.abs ms < 2 ^ 53)%Z) by lia.
    assert (Eh : h == Double.round64 (inject_Z ms / 3600000)).
    { unfold h. apply Double_hoursUntilDeadline_exact. exact Hms. }
    assert (Hdec : (3600000 | ms)%Z \/ ~ (3600000 | ms)%Z).
    { destruct (Z.eq_dec (ms mod 3600000)%Z 0%Z) as [Hm | Hm].
      - left. apply Z.mod_divide; [lia | exact Hm].
      - right. intros Hd. apply Hm. apply Z.mod_divide; [lia | exact Hd]. }
    destruct Hdec as [[k Hk] | Hnd].
    + (* a whole number of hours *)
      assert (Ek : inject_Z ms / 3600000 == inject_Z k).
      { rewrite Hk, inject_Z_mult. change (inject_Z 3600000) with 3600000.
        field. }
      rewrite (round64_comp _ _ Ek), round64_Z in Eh by lia.
      assert (Hk1 : h <= 1000).
      { rewrite Eh. change 1000 with (inject_Z 1000).
        rewrite <- Zle_Qle. lia. }
      assert (E : PRIORITY_WEIGHTS (priority task) + spec_bonus h - Qmin h 1000
                  == inject_Z (B - k)).
      { rewrite HBeq, (Q.min_l h 1000 Hk1), Eh, inject_Z_minus. reflexivity. }
      rewrite (Qintegral_proper _ _ (round64_comp _ _ E)).
      rewrite (Qintegral_proper _ _ (round64_Z (B - k) ltac:(lia))).
      split; [intros _; right; right; exists k; exact Hk
             | intros _; eexists; reflexivity].
    + (* no whole number of hours: the score lies strictly between two
         consecutive integers *)
      split; [| intros [H | [H | H]]; [discriminate | lia | contradiction]].
      intros [z Hz]. exfalso.
      pose proof (pow2_pos (-22)) as Hp.
      destruct (hours_between ms Hnd) as [Hlo Hhi].
      set (k := (ms / 3600000)%Z) in *.
      assert (Hkr : (- 2 ^ 30 <= k <= 999)%Z).
      { unfold k. split.
        - apply Z.div_le_lower_bound; lia.
        - assert (ms / 3600000 < 1000)%Z; [| lia].
          apply Z.div_lt_upper_bound; lia. }
      destruct (round64_between k _ ltac:(lia) Hlo Hhi) as [Hlo' Hhi'].
      rewrite <- Eh in Hlo', Hhi'.
      assert (Hk1 : h <= 1000).
      { assert (inject_Z (k + 1) <= 1000); [| lra].
        change 1000 with (inject_Z 1000). rewrite <- Zle_Qle. lia. }
      assert (E : PRIORITY_WEIGHTS (priority task) + spec_bonus h - Qmin h 1000
                  == inject_Z B - h).
      { rewrite HBeq, (Q.min_l h 1000 Hk1). reflexivity. }
      rewrite (round64_comp _ _ E) in Hz.
      assert (Hy1 : inject_Z (B - k - 1) + Double.pow2 (-22) <= inject_Z B - h).
      { replace (B - k - 1)%Z with (B - (k + 1))%Z by lia.
        rewrite inject_Z_minus. lra. }
      assert (Hy2 : inject_Z B - h
                    <= inject_Z (B - k - 1 + 1) - Double.pow2 (-22)).
      { replace (B - k - 1 + 1)%Z with (B - k)%Z by lia.
        rewrite inject_Z_minus. lra. }
      destruct (round64_between (B - k - 1) _ ltac:(lia) Hy1 Hy2) as [Hs1 Hs2].
      rewrite Hz in Hs1, Hs2.
      assert (H1 : inject_Z (B - k - 1) < inject_Z z) by lra.
      assert (H2 : inject_Z z < inject_Z (B - k - 1 + 1)) by lra.
      rewrite <- Zlt_Qlt in H1, H2. lia.
Qed.

Lemma calculateTaskScore_integer_iff_witness :
  Number_isInteger (Double.calculateTaskScore 0 taskA) = true <->
  completed taskA = true
  \/ (1000 * 3600000 <= deadline taskA - 0)%Z
  \/ (3600000 | deadline taskA - 0)%Z.
Proof.
  apply (calculateTaskScore_integer_iff 0 taskA). vm_compute. discriminate.
Defined.

(** Far in the past the doubles are too coarse for the characterisation:
    between 2^32 and 2^33 hours they are 2^-20 hours (3.4 ms) apart, and
    beyond 2^53 ms the difference of the two time values is itself
    rounded.  This task is overdue by 4.4e9 hours and one millisecond, and
    its score is the integer 4400001100. *)
Example integer_score_far_overdue :
  let t := sampleTask "old" HIGH (-7200000000000001) false in
  let now := 8640000000000000%Z in
  TimeValue now /\ TimeValue (deadline t)
  /\ ~ (3600000 | deadline t - now)%Z
  /\ Double.calculateTaskScore now t == 4400001100
  /\ Double.isFloat (Double.calculateTaskScore now t)
                    (Binary64.calculateTaskScore now t) = true.
Proof.
  split; [vm_compute; discriminate |].
  split; [vm_compute; discriminate |].
  split.
  { intros [k Hk]. cbn in Hk. lia. }
  split; vm_compute; reflexivity.
Qed.

(** ** [Array.prototype.sort] *)

Lemma Forall_List_filter {A : Type} (P : A -> Prop) (f : A -> bool) (l : list A) :
  Forall P l -> Forall P (List.filter f l).
Proof.
  induction 1 as [| x l Hx Hl IH]; cbn; [constructor |].
  destruct (f x); [constructor |]; assumption.
Qed.

Section ArraySortFacts.

Context {A : Type} (comparefn : A -> A -> Q).

Lemma sortedInsert_Permutation (x : A) (l : list A) :
  Permutation (x :: l) (sortedInsert comparefn x l).
Proof.
  induction l as [| y l IH]; cbn; [reflexivity |].
  destruct (Qlt_bool 0 (comparefn x y)); [| reflexivity].
  rewrite perm_swap. apply perm_skip. exact IH.
Qed.

Lemma Array_sort_Permutation (l : list A) :
  Permutation l (Array_sort comparefn l).
Proof.
  induction l as [| x l IH]; cbn; [constructor |].
  rewrite <- sortedInsert_Permutation. apply perm_skip. exact IH.
Qed.

Lemma Array_sort_length (l : list A) :
  length (Array_sort comparefn l) = length l.
Proof. symmetry. apply Permutation_length, Array_sort_Permutation. Qed.

(** An element that may stand before the whole list is inserted in front. *)
Lemma sortedInsert_front (x : A) (l : list A) :
  Forall (sortsBefore comparefn x) l -> sortedInsert comparefn x l = x :: l.
Proof.
  destruct 1 as [| y l Hy _]; cbn; [reflexivity |].
  unfold sortsBefore in Hy.
  destruct (Qlt_bool 0 (comparefn x y)) eqn:E; [| reflexivity].
  apply Qlt_bool_iff in E. lra.
Qed.

Lemma Array_sort_sorted_id (l : list A) :
  StronglySorted (sortsBefore comparefn) l -> Array_sort comparefn l = l.
Proof.
  induction 1 as [| x l Hs IH Hx]; cbn; [reflexivity |].
  rewrite IH. apply sortedInsert_front, Hx.
Qed.

(** What ECMAScript calls a consistent comparator: the signs of
    [comparefn a b] and [comparefn b a] are opposite, and "not after" is
    transitive. *)
Hypothesis comparefn_antisym :
  forall a b, 0 < comparefn a b <-> comparefn b a < 0.
Hypothesis comparefn_trans :
  forall a b c,
    comparefn a b <= 0 -> comparefn b c <= 0 -> comparefn a c <= 0.

Lemma sameRank_iff (a b : A) :
  sameRank comparefn a b = true <-> comparefn a b == 0.
Proof. unfold sameRank. apply Qeq_bool_iff. Qed.

Lemma comparefn_zero_sym (a b : A) :
  comparefn a b == 0 -> comparefn b a == 0.
Proof.
  intros H.
  destruct (Qlt_le_dec 0 (comparefn b a)) as [Hlt | Hle].
  - apply comparefn_antisym in Hlt. lra.
  - destruct (Qlt_le_dec (comparefn b a) 0) as [Hlt | Hge]; [| lra].
    apply comparefn_antisym in Hlt. lra.
Qed.

Lemma sortsBefore_refl (a : A) : sortsBefore comparefn a a.
Proof.
  unfold sortsBefore.
  destruct (Qlt_le_dec 0 (comparefn a a)) as [Hlt | Hle]; [| exact Hle].
  pose proof (proj1 (comparefn_antisym a a) Hlt). lra.
Qed.

Lemma sortedInsert_StronglySorted (x : A) (l : list A) :
  StronglySorted (sortsBefore comparefn) l ->
  StronglySorted (sortsBefore comparefn) (sortedInsert comparefn x l).
Proof.
  induction 1 as [| y l Hs IH Hy]; cbn.
  - repeat constructor.
  - destruct (Qlt_bool 0 (comparefn x y)) eqn:E.
    + apply Qlt_bool_iff in E. constructor; [exact IH |].
      rewrite <- sortedInsert_Permutation. constructor; [| exact Hy].
      apply comparefn_antisym in E. unfold sortsBefore. lra.
    + apply Qlt_bool_false_iff in E.
      constructor; [constructor; assumption |].
      constructor; [exact E |].
      eapply List.Forall_impl; [| exact Hy].
      intros z Hz. exact (comparefn_trans x y z E Hz).
Qed.

Lemma Array_sort_StronglySorted (l : list A) :
  StronglySorted (sortsBefore comparefn) (Array_sort comparefn l).
Proof.
  induction l as [| x l IH]; cbn; [constructor |].
  apply sortedInsert_StronglySorted, IH.
Qed.

(** Filtering commutes with insertion into a sorted array. *)
Lemma filter_sortedInsert (P : A -> bool) (x : A) (l : list A) :
  StronglySorted (sortsBefore comparefn) l ->
  List.filter P (sortedInsert comparefn x l)
  = if P x then sortedInsert comparefn x (List.filter P l)
    else List.filter P l.
Proof.
  induction 1 as [| y l Hs IH Hy]; cbn.
  - destruct (P x); reflexivity.
  - destruct (Qlt_bool 0 (comparefn x y)) eqn:E.
    + cbn. rewrite IH.
      destruct (P y), (P x); cbn; rewrite ?E; reflexivity.
    + apply Qlt_bool_false_iff in E. cbn.
      destruct (P x); [| reflexivity].
      symmetry. apply sortedInsert_front.
      apply (Forall_List_filter _ P (y :: l)).
      constructor; [exact E |].
      eapply List.Forall_impl; [| exact Hy].
      intros z Hz. exact (comparefn_trans x y z E Hz).
Qed.

(** Filtering commutes with sorting, whatever the predicate. *)
Lemma Array_sort_filter (P : A -> bool) (l : list A) :
  List.filter P (Array_sort comparefn l)
  = Array_sort comparefn (List.filter P l).
Proof.
  induction l as [| x l IH]; cbn; [reflexivity |].
  rewrite filter_sortedInsert by apply Array_sort_StronglySorted.
  rewrite IH. destruct (P x); reflexivity.
Qed.

Lemma sameRank_class_sorted (z : A) (l : list A) :
  StronglySorted (sortsBefore comparefn) (List.filter (sameRank comparefn z) l).
Proof.
  induction l as [| x l IH]; cbn; [constructor |].
  destruct (sameRank comparefn z x) eqn:Ex; [| exact IH].
  constructor; [exact IH |].
  apply sameRank_iff in Ex.
  apply List.Forall_forall. intros y Hy. apply filter_In in Hy as [_ Ey].
  apply sameRank_iff in Ey.
  apply (comparefn_trans x z y).
  - apply comparefn_zero_sym in Ex. lra.
  - lra.
Qed.

(** Stability: the elements the comparator calls equal to [z] keep the
    order they had in the input. *)
Lemma Array_sort_stable (z : A) (l : list A) :
  List.filter (sameRank comparefn z) (Array_sort comparefn l)
  = List.filter (sameRank comparefn z) l.
Proof.
  rewrite Array_sort_filter.
  apply Array_sort_sorted_id, sameRank_class_sorted.
Qed.

(** Two sorted arrangements of the same elements that keep each class of
    equals in the same order are the same array. *)
Lemma stable_sorted_unique (l1 l2 : list A) :
  Permutation l1 l2 ->
  StronglySorted (sortsBefore comparefn) l1 ->
  StronglySorted (sortsBefore comparefn) l2 ->
  (forall z, List.filter (sameRank comparefn z) l1
             = List.filter (sameRank comparefn z) l2) ->
  l1 = l2.
Proof.
  revert l2. induction l1 as [| x l1 IH]; intros l2 Hp Hs1 Hs2 Hf.
  - apply Permutation_nil in Hp. congruence.
  - destruct l2 as [| y l2].
    { symmetry in Hp. apply Permutation_nil in Hp. discriminate. }
    apply StronglySorted_inv in Hs1 as [Hs1 Hx].
    apply StronglySorted_inv in Hs2 as [Hs2 Hy].
    assert (Hxy : sortsBefore comparefn x y).
    { assert (Hin : In y (x :: l1))
        by (eapply Permutation_in; [symmetry; exact Hp | left; reflexivity]).
      destruct Hin as [<- | Hin]; [apply sortsBefore_refl |].
      exact (proj1 (List.Forall_forall _ _) Hx y Hin). }
    assert (Hyx : sortsBefore comparefn y x).
    { assert (Hin : In x (y :: l2))
        by (eapply Permutation_in; [exact Hp | left; reflexivity]).
      destruct Hin as [<- | Hin]; [apply sortsBefore_refl |].
      exact (proj1 (List.Forall_forall _ _) Hy x Hin). }
    unfold sortsBefore in Hxy, Hyx.
    assert (Exy : comparefn x y == 0).
    { destruct (Qlt_le_dec (comparefn x y) 0) as [Hlt | Hge]; [| lra].
      apply comparefn_antisym in Hlt. lra. }
    assert (Heq : x = y).
    { pose proof (Hf x) as Hfx. cbn in Hfx.
      rewrite (proj2 (sameRank_iff x y) Exy) in Hfx.
      assert (Exx : sameRank comparefn x x = true).
      { apply sameRank_iff. pose proof (sortsBefore_refl x) as Hr.
        unfold sortsBefore in Hr.
        destruct (Qlt_le_dec (comparefn x x) 0) as [Hlt | Hge]; [| lra].
        apply comparefn_antisym in Hlt. lra. }
      rewrite Exx in Hfx. congruence. }
    subst y. f_equal. apply IH; try assumption.
    + eapply Permutation_cons_inv. exact Hp.
    + intros z. specialize (Hf z). cbn in Hf.
      destruct (sameRank comparefn z x); congruence.
Qed.

(** Hence every stable sort agrees with [Array_sort]. *)
Lemma Array_sort_unique (l l' : list A) :
  Permutation l l' ->
  StronglySorted (sortsBefore comparefn) l' ->
  (forall z, List.filter (sameRank comparefn z) l'
             = List.filter (sameRank comparefn z) l) ->
  l' = Array_sort comparefn l.
Proof.
  intros Hp Hs Hf. apply stable_sorted_unique.
  - rewrite <- Hp. apply Array_sort_Permutation.
  - exact Hs.
  - apply Array_sort_StronglySorted.
  - intros z. rewrite Hf, Array_sort_stable. reflexivity.
Qed.

End ArraySortFacts.

(** ** The comparator of [sortTasksByPriority] *)

Lemma inject_Z_sign (z : Z) :
  (inject_Z z < 0 <-> (z < 0)%Z)
  /\ (inject_Z z == 0 <-> z = 0%Z)
  /\ (0 < inject_Z z <-> (0 < z)%Z).
Proof.
  unfold Qlt, Qeq. cbn. repeat split; lia.
Qed.

(** The sign of the comparator, read off the three keys. *)
Lemma sortComparator_neg_iff (now : Z) (a b : Task) :
  sortComparator now a b < 0 <-> rankedAhead now a b.
Proof.
  unfold sortComparator, rankedAhead.
  destruct (inject_Z_sign (deadline a - deadline b)) as (Hn & _ & _).
  destruct (completed a), (completed b); cbn [andb negb];
    try (split; [intros H; try lra; auto | intros [[? ?] | [[? ?] | [? ?]]]; try discriminate; try lra]; fail).
  all: destruct (Qeq_bool (calculateTaskScore now a) (calculateTaskScore now b)) eqn:E;
    cbn [negb];
    [apply Qeq_bool_iff in E | apply Qeq_bool_neq in E].
  all: rewrite ?Hn; split;
    [ intros H; right;
      first [ right; repeat split; [exact E | lia] | left; split; [reflexivity | lra] ]
    | intros [[? ?] | [[_ ?] | [_ [? ?]]]]; try discriminate; try lra; try lia ].
Qed.

Lemma sortComparator_zero_iff (now : Z) (a b : Task) :
  sortComparator now a b == 0 <-> residualTie now a b.
Proof.
  unfold sortComparator, residualTie.
  destruct (inject_Z_sign (deadline a - deadline b)) as (_ & Hz & _).
  destruct (completed a), (completed b); cbn [andb negb];
    try (split; [intros H; lra | intros [? _]; discriminate]; fail).
  all: destruct (Qeq_bool (calculateTaskScore now a) (calculateTaskScore now b)) eqn:E;
    cbn [negb];
    [apply Qeq_bool_iff in E | apply Qeq_bool_neq in E].
  all: rewrite ?Hz; split;
    [ intros H; repeat split; first [reflexivity | lia | lra]
    | intros (_ & ? & ?); first [lia | lra] ].
Qed.

Lemma sortComparator_swap (now : Z) (a b : Task) :
  sortComparator now b a == - sortComparator now a b.
Proof.
  unfold sortComparator.
  destruct (completed a), (completed b); cbn [andb negb]; try reflexivity.
  all: rewrite (Qeq_bool_comm (calculateTaskScore now b));
    destruct (Qeq_bool (calculateTaskScore now a) (calculateTaskScore now b));
    cbn [negb]; try ring;
    replace (deadline b - deadline a)%Z with (- (deadline a - deadline b))%Z
      by lia;
    rewrite inject_Z_opp; reflexivity.
Qed.

Lemma sortComparator_pos_iff (now : Z) (a b : Task) :
  0 < sortComparator now a b <-> rankedAhead now b a.
Proof.
  rewrite <- sortComparator_neg_iff, sortComparator_swap. split; lra.
Qed.

Lemma sortComparator_antisym (now : Z) (a b : Task) :
  0 < sortComparator now a b <-> sortComparator now b a < 0.
Proof. rewrite sortComparator_swap. split; lra. Qed.

Lemma sortsBefore_iff (now : Z) (a b : Task) :
  sortsBefore (sortComparator now) a b
  <-> rankedAhead now a b \/ residualTie now a b.
Proof.
  unfold sortsBefore.
  rewrite <- sortComparator_neg_iff, <- sortComparator_zero_iff.
  split; [intros H | intros [H | H]; lra].
  destruct (Qlt_le_dec (sortComparator now a b) 0); [left | right]; lra.
Qed.

Lemma sortComparator_trans (now : Z) (a b c : Task) :
  sortComparator now a b <= 0 ->
  sortComparator now b c <= 0 ->
  sortComparator now a c <= 0.
Proof.
  intros Hab Hbc.
  apply (sortsBefore_iff now a b) in Hab.
  apply (sortsBefore_iff now b c) in Hbc.
  apply (sortsBefore_iff now a c).
  unfold rankedAhead, residualTie in *.
  set (sa := calculateTaskScore now a) in *.
  set (sb := calculateTaskScore now b) in *.
  set (sc := calculateTaskScore now c) in *.
  destruct (completed a), (completed b), (completed c);
    try (left; left; split; reflexivity);
    try (exfalso;
         destruct Hab as [[[? ?] | [[? ?] | (? & ? & ?)]] | (? & ? & ?)];
         discriminate);
    try (exfalso;
         destruct Hbc as [[[? ?] | [[? ?] | (? & ? & ?)]] | (? & ? & ?)];
         discriminate).
  all: destruct Hab as [[[? ?] | [[_ Hab] | (_ & Hab & Hab')]] | (_ & Hab & Hab')];
    try discriminate;
    destruct Hbc as [[[? ?] | [[_ Hbc] | (_ & Hbc & Hbc')]] | (_ & Hbc & Hbc')];
    try discriminate;
    first
      [ left; right; left; split; [reflexivity | lra]
      | left; right; right; repeat split; [lra | lia]
      | right; repeat split; [lra | lia] ].
Qed.


(** The order is total: of two tasks, one is ranked ahead or they tie. *)
Lemma rankedAhead_total (now : Z) (a b : Task) :
  rankedAhead now a b \/ residualTie now a b \/ rankedAhead now b a.
Proof.
  rewrite <- sortComparator_neg_iff, <- sortComparator_zero_iff,
    <- sortComparator_pos_iff.
  destruct (Qlt_le_dec (sortComparator now a b) 0) as [H | H]; [left; exact H |].
  destruct (Qlt_le_dec 0 (sortComparator now a b)) as [H' | H'];
    [right; right; exact H' | right; left; lra].
Qed.

Lemma residualTieb_iff (now : Z) (a b : Task) :
  residualTieb now a b = true <-> residualTie now a b.
Proof.
  unfold residualTieb, residualTie.
  rewrite !andb_true_iff, Bool.eqb_true_iff, Qeq_bool_iff, Z.eqb_eq. tauto.
Qed.

Lemma residualTieb_sameRank (now : Z) (a b : Task) :
  residualTieb now a b = sameRank (sortComparator now) a b.
Proof.
  apply eq_true_iff_eq.
  rewrite residualTieb_iff. unfold sameRank.
  rewrite Qeq_bool_iff. symmetry. apply sortComparator_zero_iff.
Qed.

(** ** The wall clock *)





Section ClockedSort.

Context {A : Type} (clk : Clocked.Clock).
Context (comparefnM : A -> A -> Clocked.M Q) (comparefn : A -> A -> Q).

(** Whatever the comparator answers, sorting only rearranges. *)
Lemma Clocked_sortedInsert_Permutation (x : A) (l : list A) (n : nat) :
  Permutation (x :: l) (fst (Clocked.sortedInsert comparefnM x l clk n)).
Proof.
  revert n. induction l as [| y l IH]; intros n; cbn; [reflexivity |].
  unfold Clocked.bind.
  destruct (comparefnM x y clk n) as [c n1].
  destruct (Qlt_bool 0 c); [| reflexivity].
  specialize (IH n1).
  destruct (Clocked.sortedInsert comparefnM x l clk n1) as [r n2].
  cbn in *. rewrite perm_swap. apply perm_skip. exact IH.
Qed.

Lemma Clocked_Array_sort_Permutation (l : list A) (n : nat) :
  Permutation l (fst (Clocked.Array_sort comparefnM l clk n)).
Proof.
  revert n. induction l as [| x l IH]; intros n; cbn; [constructor |].
  unfold Clocked.bind. specialize (IH n).
  destruct (Clocked.Array_sort comparefnM l clk n) as [s n1].
  cbn in IH. rewrite <- Clocked_sortedInsert_Permutation.
  apply perm_skip. exact IH.
Qed.

(** When the comparator answers as a pure one does, so does the sort. *)
Hypothesis comparefnM_pure :
  forall a b n, fst (comparefnM a b clk n) = comparefn a b.

Lemma Clocked_sortedInsert_pure (x : A) (l : list A) (n : nat) :
  fst (Clocked.sortedInsert comparefnM x l clk n)
  = sortedInsert comparefn x l.
Proof.
  revert n. induction l as [| y l IH]; intros n; cbn; [reflexivity |].
  unfold Clocked.bind. pose proof (comparefnM_pure x y n) as Hc.
  destruct (comparefnM x y clk n) as [c n1]. cbn in Hc.
  subst c. destruct (Qlt_bool 0 (comparefn x y)); [| reflexivity].
  specialize (IH n1).
  destruct (Clocked.sortedInsert comparefnM x l clk n1) as [r n2].
  cbn in *. congruence.
Qed.

Lemma Clocked_Array_sort_pure (l : list A) (n : nat) :
  fst (Clocked.Array_sort comparefnM l clk n) = Array_sort comparefn l.
Proof.
  revert n. induction l as [| x l IH]; intros n; cbn; [reflexivity |].
  unfold Clocked.bind. specialize (IH n).
  destruct (Clocked.Array_sort comparefnM l clk n) as [s n1].
  cbn in IH. subst s. apply Clocked_sortedInsert_pure.
Qed.

End ClockedSort.


(** ** Sorting *)

Lemma StronglySorted_lookup {A : Type} (R : A -> A -> Prop) (l : list A)
    (i j : nat) (a b : A) :
  StronglySorted R l ->
  l !! i = Some a -> l !! j = Some b -> (i < j)%nat -> R a b.
Proof.
  intros Hs. revert i j.
  induction Hs as [| x l Hs IH Hx]; intros i j Hi Hj Hlt.
  - discriminate.
  - destruct j as [| j]; [lia |]. cbn in Hj.
    destruct i as [| i]; cbn in Hi.
    + injection Hi as ->.
      apply (proj1 (List.Forall_forall _ _) Hx).
      apply list_elem_of_In. apply list_elem_of_lookup. eauto.
    + apply (IH i j Hi Hj). lia.
Qed.


Lemma sortTasksByPriority_Permutation (now : Z) (tasks : list Task) :
  Permutation tasks (sortTasksByPriority now tasks).
Proof. apply Array_sort_Permutation. Qed.


(** Tasks in a residual tie keep their input order. *)
Lemma sortTasksByPriority_stable (now : Z) (tasks : list Task) (z : Task) :
  List.filter (residualTieb now z) (sortTasksByPriority now tasks)
  = List.filter (residualTieb now z) tasks.
Proof.
  rewrite !(List.filter_ext _ _ (residualTieb_sameRank now z)).
  apply Array_sort_stable.
  - apply sortComparator_antisym.
  - apply sortComparator_trans.
Qed.

(** Any stable sort by the same comparator returns what the model does. *)
Lemma sortTasksByPriority_unique (now : Z) (tasks sorted : list Task) :
  Permutation tasks sorted ->
  StronglySorted (sortsBefore (sortComparator now)) sorted ->
  (forall z, List.filter (residualTieb now z) sorted
             = List.filter (residualTieb now z) tasks) ->
  sorted = sortTasksByPriority now tasks.
Proof.
  intros Hp Hs Hf. apply Array_sort_unique; try assumption.
  - apply sortComparator_antisym.
  - apply sortComparator_trans.
  - intros z.
    rewrite <- !(List.filter_ext _ _ (residualTieb_sameRank now z)).
    apply Hf.
Qed.

Example sort_scenario :
  sortTasksByPriority 0 [taskC; taskB; taskA] = [taskA; taskB; taskC].
Proof. reflexivity. Qed.

Example sort_tie_keeps_order :
  sortTasksByPriority 0 [tieB; taskC; tieA] = [tieB; tieA; taskC].
Proof. reflexivity. Qed.

(** ** Arrays as objects *)

Lemma Ref_spread_spec (h : Ref.heap) (arr : Ref.ref) (elems : list Task) :
  h !! arr = Some elems ->
  Ref.spread arr h = Some (length h, h ++ [elems]).
Proof. unfold Ref.spread. intros ->. reflexivity. Qed.

Lemma Ref_filter_spec (p : Task -> bool) (h : Ref.heap) (arr : Ref.ref)
    (elems : list Task) :
  h !! arr = Some elems ->
  Ref.filter p arr h = Some (length h, h ++ [List.filter p elems]).
Proof. unfold Ref.filter. intros ->. reflexivity. Qed.

Lemma Ref_sortTasksByPriority_spec (now : Z) (h : Ref.heap) (tasks : Ref.ref)
    (elems : list Task) :
  h !! tasks = Some elems ->
  Ref.sortTasksByPriority now tasks h
  = Some (length h, h ++ [sortTasksByPriority now elems]).
Proof.
  intros H. unfold Ref.sortTasksByPriority.
  rewrite (Ref_spread_spec h tasks elems H). cbn.
  unfold Ref.sort. rewrite list_lookup_middle by reflexivity. cbn.
  rewrite insert_app_r_alt by lia. rewrite Nat.sub_diag. reflexivity.
Qed.

Lemma Ref_filterTasks_spec (h : Ref.heap) (tasks : Ref.ref)
    (filter : TaskFilter) (elems : list Task) :
  h !! tasks = Some elems ->
  exists result h',
    Ref.filterTasks tasks filter h = Some (result, h')
    /\ h' !! result = Some (filterTasks elems filter)
    /\ h' !! tasks = Some elems.
Proof.
  intros H. unfold Ref.filterTasks, filterTasks.
  pose proof (lookup_lt_Some _ _ _ H) as Hlt.
  destruct (String.eqb filter "active");
    [| destruct (String.eqb filter "completed")].
  - rewrite (Ref_filter_spec _ h tasks elems H). eexists _, _.
    split; [reflexivity |]. split.
    + apply list_lookup_middle. reflexivity.
    + rewrite lookup_app_l by exact Hlt. exact H.
  - rewrite (Ref_filter_spec _ h tasks elems H). eexists _, _.
    split; [reflexivity |]. split.
    + apply list_lookup_middle. reflexivity.
    + rewrite lookup_app_l by exact Hlt. exact H.
  - eexists _, _. split; [reflexivity |]. split; exact H.
Qed.

(** [filterTasks] hands back the input array itself under [all]; the
    copy [sortTasksByPriority] takes before sorting keeps the caller's array
    intact all the same. *)
Lemma Ref_sortAndFilterTasks_spec (now : Z) (h : Ref.heap) (tasks : Ref.ref)
    (filter : TaskFilter) (elems : list Task) :
  h !! tasks = Some elems ->
  exists result h',
    Ref.sortAndFilterTasks now tasks filter h = Some (result, h')
    /\ h' !! result = Some (sortAndFilterTasks now elems filter)
    /\ h' !! tasks = Some elems
    /\ result <> tasks.
Proof.
  intros H. unfold Ref.sortAndFilterTasks.
  destruct (Ref_filterTasks_spec h tasks filter elems H)
    as (filtered & h1 & Hrun & Hres & Hin).
  rewrite Hrun. cbn.
  rewrite (Ref_sortTasksByPriority_spec now h1 filtered _ Hres).
  pose proof (lookup_lt_Some _ _ _ Hin) as Hlt.
  eexists _, _. split; [reflexivity |]. split; [| split].
  - apply list_lookup_middle. reflexivity.
  - rewrite lookup_app_l by exact Hlt. exact Hin.
  - lia.
Qed.

(** ** The comparator in double arithmetic *)

(** The sign of the comparator, read off the three keys: the rounded
    differences it returns have the sign of the exact ones. *)
Lemma Double_sortComparator_sign (now : Z) (a b : Task) :
  (Double.sortComparator now a b < 0 <-> Double.rankedAhead now a b)
  /\ (Double.sortComparator now a b == 0 <-> Double.residualTie now a b)
  /\ (0 < Double.sortComparator now a b <-> Double.rankedAhead now b a).
Proof.
  unfold Double.sortComparator, Double.rankedAhead, Double.residualTie.
  pose proof (Double_calculateTaskScore_onGrid now a) as Ga.
  pose proof (Double_calculateTaskScore_onGrid now b) as Gb.
  set (sa := Double.calculateTaskScore now a) in *.
  set (sb := Double.calculateTaskScore now b) in *.
  destruct (sub_sign sb sa Gb Ga) as (S1 & S2 & S3).
  destruct (sub_sign (inject_Z (deadline a)) (inject_Z (deadline b))
              (inject_Z_onGrid _) (inject_Z_onGrid _)) as (D1 & D2 & D3).
  rewrite <- Zlt_Qlt in D1, D3. rewrite inject_Z_injective in D2.
  destruct (completed a), (completed b); cbn [andb negb].
  1, 4: destruct (Qeq_bool sa sb) eqn:E; cbn [negb];
    [apply Qeq_bool_iff in E | apply Qeq_bool_neq in E];
    cbv zeta; rewrite ?S1, ?S2, ?S3, ?D1, ?D2, ?D3.
  all: repeat split; intros;
    repeat match goal with
           | H : _ \/ _ |- _ => destruct H
           | H : _ /\ _ |- _ => destruct H
           end;
    try discriminate; try lra; try lia; try reflexivity; try assumption;
    try (exfalso; lra); try (exfalso; lia);
    first [ right; left; split; [reflexivity | lra]
          | right; right; repeat split; [lra | lia]
          | left; split; reflexivity
          | idtac ].
Qed.

Lemma Double_sortComparator_antisym (now : Z) (a b : Task) :
  0 < Double.sortComparator now a b <-> Double.sortComparator now b a < 0.
Proof.
  destruct (Double_sortComparator_sign now a b) as (_ & _ & H1).
  destruct (Double_sortComparator_sign now b a) as (H2 & _ & _).
  rewrite H1, H2. reflexivity.
Qed.

Lemma Double_sortsBefore_iff (now : Z) (a b : Task) :
  sortsBefore (Double.sortComparator now) a b
  <-> Double.rankedAhead now a b \/ Double.residualTie now a b.
Proof.
  unfold sortsBefore.
  destruct (Double_sortComparator_sign now a b) as (H1 & H2 & _).
  rewrite <- H1, <- H2.
  split; [intros H | intros [H | H]; lra].
  destruct (Qlt_le_dec (Double.sortComparator now a b) 0); [left | right]; lra.
Qed.

Lemma Double_sortComparator_trans (now : Z) (a b c : Task) :
  Double.sortComparator now a b <= 0 ->
  Double.sortComparator now b c <= 0 ->
  Double.sortComparator now a c <= 0.
Proof.
  intros Hab Hbc.
  apply (Double_sortsBefore_iff now a b) in Hab.
  apply (Double_sortsBefore_iff now b c) in Hbc.
  apply (Double_sortsBefore_iff now a c).
  unfold Double.rankedAhead, Double.residualTie in *.
  set (sa := Double.calculateTaskScore now a) in *.
  set (sb := Double.calculateTaskScore now b) in *.
  set (sc := Double.calculateTaskScore now c) in *.
  destruct (completed a), (completed b), (completed c);
    try (left; left; split; reflexivity);
    try (exfalso;
         destruct Hab as [[[? ?] | [[? ?] | (? & ? & ?)]] | (? & ? & ?)];
         discriminate);
    try (exfalso;
         destruct Hbc as [[[? ?] | [[? ?] | (? & ? & ?)]] | (? & ? & ?)];
         discriminate).
  all: destruct Hab as [[[? ?] | [[_ Hab] | (_ & Hab & Hab')]] | (_ & Hab & Hab')];
    try discriminate;
    destruct Hbc as [[[? ?] | [[_ Hbc] | (_ & Hbc & Hbc')]] | (_ & Hbc & Hbc')];
    try discriminate;
    first
      [ left; right; left; split; [reflexivity | lra]
      | left; right; right; repeat split; [lra | lia]
      | right; repeat split; [lra | lia] ].
Qed.

Lemma Double_rankedAhead_asym (now : Z) (a b : Task) :
  Double.rankedAhead now a b -> ~ Double.rankedAhead now b a.
Proof.
  destruct (Double_sortComparator_sign now a b) as (H1 & _ & H3).
  rewrite <- H1, <- H3. lra.
Qed.

(** Of two tasks, one is ranked ahead of the other or they tie. *)
Lemma Double_rankedAhead_total (now : Z) (a b : Task) :
  Double.rankedAhead now a b \/ Double.residualTie now a b
  \/ Double.rankedAhead now b a.
Proof.
  destruct (Double_sortComparator_sign now a b) as (H1 & H2 & H3).
  rewrite <- H1, <- H2, <- H3.
  destruct (Qlt_le_dec (Double.sortComparator now a b) 0) as [H | H];
    [left; exact H |].
  destruct (Qlt_le_dec 0 (Double.sortComparator now a b)) as [H' | H'];
    [right; right; exact H' | right; left; lra].
Qed.

Lemma Double_residualTieb_iff (now : Z) (a b : Task) :
  Double.residualTieb now a b = true <-> Double.residualTie now a b.
Proof.
  unfold Double.residualTieb, Double.residualTie.
  rewrite !andb_true_iff, Bool.eqb_true_iff, Qeq_bool_iff, Z.eqb_eq. tauto.
Qed.

Lemma Double_residualTieb_sameRank (now : Z) (a b : Task) :
  Double.residualTieb now a b = sameRank (Double.sortComparator now) a b.
Proof.
  apply eq_true_iff_eq.
  rewrite Double_residualTieb_iff. unfold sameRank.
  rewrite Qeq_bool_iff. symmetry.
  apply (Double_sortComparator_sign now a b).
Qed.

(** ** Sorting in double arithmetic *)

Lemma Double_sortTasksByPriority_StronglySorted (now : Z) (tasks : list Task) :
  StronglySorted (sortsBefore (Double.sortComparator now))
                 (Double.sortTasksByPriority now tasks).
Proof.
  apply Array_sort_StronglySorted.
  - apply Double_sortComparator_antisym.
  - apply Double_sortComparator_trans.
Qed.

Lemma Double_sortTasksByPriority_Permutation (now : Z) (tasks : list Task) :
  Permutation tasks (Double.sortTasksByPriority now tasks).
Proof. apply Array_sort_Permutation. Qed.

(** A task ranked strictly ahead of another stands at a smaller index. *)
Lemma Double_sortTasksByPriority_ranked (now : Z) (tasks : list Task)
    (i j : nat) (a b : Task) :
  Double.sortTasksByPriority now tasks !! i = Some a ->
  Double.sortTasksByPriority now tasks !! j = Some b ->
  Double.rankedAhead now a b ->
  (i < j)%nat.
Proof.
  intros Hi Hj Hab.
  pose proof (Double_sortTasksByPriority_StronglySorted now tasks) as Hs.
  destruct (Nat.lt_trichotomy i j) as [Hlt | [Heq | Hgt]]; [exact Hlt | |].
  - subst j. rewrite Hi in Hj. injection Hj as <-.
    exfalso. exact (Double_rankedAhead_asym now a a Hab Hab).
  - exfalso.
    pose proof (StronglySorted_lookup _ _ j i b a Hs Hj Hi Hgt) as Hba.
    apply Double_sortsBefore_iff in Hba as [Hba | Hba].
    + exact (Double_rankedAhead_asym now a b Hab Hba).
    + destruct (Double_sortComparator_sign now b a) as (_ & Hz & Hp).
      apply Hz in Hba. apply Hp in Hab. lra.
Qed.

(** Tasks in a residual tie keep their input order. *)
Lemma Double_sortTasksByPriority_stable (now : Z) (tasks : list Task)
    (z : Task) :
  List.filter (Double.residualTieb now z) (Double.sortTasksByPriority now tasks)
  = List.filter (Double.residualTieb now z) tasks.
Proof.
  rewrite !(List.filter_ext _ _ (Double_residualTieb_sameRank now z)).
  apply Array_sort_stable.
  - apply Double_sortComparator_antisym.
  - apply Double_sortComparator_trans.
Qed.

(** Any stable sort by the same comparator returns what the model does. *)
Lemma Double_sortTasksByPriority_unique (now : Z) (tasks sorted : list Task) :
  Permutation tasks sorted ->
  StronglySorted (sortsBefore (Double.sortComparator now)) sorted ->
  (forall z, List.filter (Double.residualTieb now z) sorted
             = List.filter (Double.residualTieb now z) tasks) ->
  sorted = Double.sortTasksByPriority now tasks.
Proof.
  intros Hp Hs Hf. apply Array_sort_unique; try assumption.
  - apply Double_sortComparator_antisym.
  - apply Double_sortComparator_trans.
  - intros z.
    rewrite <- !(List.filter_ext _ _ (Double_residualTieb_sameRank now z)).
    apply Hf.
Qed.

(** The sort commutes with any filter. *)
Lemma Double_sortTasksByPriority_filter (now : Z) (p : Task -> bool)
    (tasks : list Task) :
  List.filter p (Double.sortTasksByPriority now tasks)
  = Double.sortTasksByPriority now (List.filter p tasks).
Proof.
  apply Array_sort_filter.
  - apply Double_sortComparator_antisym.
  - apply Double_sortComparator_trans.
Qed.

(** ** The engine under a clock *)

(** A score of an incomplete task takes one reading of the clock, and is
    the score at the time read. *)
Lemma Engine_calculateTaskScore_reads (clk : Clocked.Clock) (t : Task)
    (n : nat) :
  Engine.calculateTaskScore t clk n
  = (Double.calculateTaskScore (clk n) t, if completed t then n else S n).
Proof.
  unfold Engine.calculateTaskScore, Double.calculateTaskScore.
  destruct (completed t); reflexivity.
Qed.

Lemma Engine_sortComparator_reads (clk : Clocked.Clock) (a b : Task)
    (n : nat) :
  snd (Engine.sortComparator a b clk n)
  = if completed a || completed b then n else S (S n).
Proof.
  unfold Engine.sortComparator.
  destruct (completed a) eqn:Ea, (completed b) eqn:Eb;
    cbn [andb negb orb]; try reflexivity.
  all: unfold Clocked.bind;
    rewrite Engine_calculateTaskScore_reads, Ea;
    rewrite Engine_calculateTaskScore_reads, Eb;
    destruct (negb _); reflexivity.
Qed.

Lemma Engine_sortComparator_steady (now : Z) (a b : Task) (n : nat) :
  fst (Engine.sortComparator a b (Clocked.steady now) n)
  = Double.sortComparator now a b.
Proof.
  unfold Engine.sortComparator, Double.sortComparator.
  destruct (completed a && negb (completed b)); [reflexivity |].
  destruct (negb (completed a) && completed b); [reflexivity |].
  unfold Clocked.bind.
  rewrite !Engine_calculateTaskScore_reads.
  cbv zeta. unfold Clocked.steady. destruct (negb _); reflexivity.
Qed.

Lemma Engine_sortTasksByPriority_steady (now : Z) (tasks : list Task)
    (n : nat) :
  fst (Engine.sortTasksByPriority tasks (Clocked.steady now) n)
  = Double.sortTasksByPriority now tasks.
Proof.
  apply Clocked_Array_sort_pure. intros a b k.
  apply Engine_sortComparator_steady.
Qed.

Lemma Engine_sortAndFilterTasks_steady (now : Z) (tasks : list Task)
    (filter : TaskFilter) (n : nat) :
  fst (Engine.sortAndFilterTasks tasks filter (Clocked.steady now) n)
  = Double.sortAndFilterTasks now tasks filter.
Proof. apply Engine_sortTasksByPriority_steady. Qed.

(** Whatever the clock shows, the sort works on a copy: the caller's array
    keeps its contents, and the new array holds what the sort of the
    contents returns. *)
Lemma Engine_Arrays_sortTasksByPriority_spec (clk : Clocked.Clock)
    (h : Ref.heap) (tasks : Ref.ref) (elems : list Task) (n : nat) :
  h !! tasks = Some elems ->
  Engine.Arrays.sortTasksByPriority tasks h clk n
  = (Some (length h,
           h ++ [fst (Engine.sortTasksByPriority elems clk n)]),
     snd (Engine.sortTasksByPriority elems clk n)).
Proof.
  intros H. unfold Engine.Arrays.sortTasksByPriority.
  rewrite (Ref_spread_spec h tasks elems H).
  unfold Engine.Arrays.sort. rewrite list_lookup_middle by reflexivity.
  unfold Clocked.bind, Engine.sortTasksByPriority.
  destruct (Clocked.Array_sort Engine.sortComparator elems clk n) as [s n'].
  unfold Clocked.ret. cbn [fst snd].
  rewrite insert_app_r_alt by lia. rewrite Nat.sub_diag. reflexivity.
Qed.

(** ** The order of [sortTasksByPriority] *)

Example Double_sort_scenario :
  Double.sortTasksByPriority 0 [taskC; taskB; taskA] = [taskA; taskB; taskC].
Proof. vm_compute. reflexivity. Qed.

(** Two scores that are equal in exact arithmetic (150 - 301/3 and
    100 - 151/3) differ in doubles, as each quotient is rounded before the
    subtraction; the sort goes by the doubles. *)
Example Double_scores_differ_by_rounding :
  let a := sampleTask "A" HIGH 361200000 false in
  let b := sampleTask "B" MEDIUM 181200000 false in
  calculateTaskScore 0 a == calculateTaskScore 0 b
  /\ Double.calculateTaskScore 0 b < Double.calculateTaskScore 0 a
  /\ Double.isFloat (Double.calculateTaskScore 0 a)
                    (Binary64.calculateTaskScore 0 a) = true
  /\ Double.isFloat (Double.calculateTaskScore 0 b)
                    (Binary64.calculateTaskScore 0 b) = true
  /\ Double.sortTasksByPriority 0 [b; a] = [a; b].
Proof. repeat split; vm_compute; reflexivity. Qed.

(** C2, as stated, fails when the clock advances during the sort: HIGH and
    LOW are due at the same instant, 24 hours after the first reading, so
    at every reading HIGH has the higher score; but the comparator, called
    on HIGH and LOW, scores HIGH at the first reading (24 hours left, 100 +
    200 - 24 = 276) and LOW at the second, one millisecond later (less than
    24 hours left, 10 + 500 - 23.9999997 = 486.0000003), and its positive
    answer puts HIGH after LOW.  An engine that submits the pair of a
    two-element array the other way round makes this same call on the input
    [[dueLow; dueHigh]].  In the same way two tasks that tie at every
    instant change places. *)
Lemma sortTasksByPriority_order_needs_steady_clock :
  fst (Engine.sortTasksByPriority [dueHigh; dueLow] (oneTick 0) 0%nat)
  = [dueLow; dueHigh]
  /\ snd (Engine.sortTasksByPriority [dueHigh; dueLow] (oneTick 0) 0%nat)
     = 2%nat
  /\ completed dueHigh = completed dueLow
  /\ (forall k : nat,
        Double.calculateTaskScore (oneTick 0 k) dueLow
        < Double.calculateTaskScore (oneTick 0 k) dueHigh)
  /\ 0 < fst (Engine.sortComparator dueHigh dueLow (oneTick 0) 0%nat)
  /\ Double.residualTie 0 tieA tieB /\ Double.residualTie 1 tieA tieB
  /\ fst (Engine.sortTasksByPriority [tieA; tieB] (oneTick 0) 0%nat)
     = [tieB; tieA]
  /\ fst (Engine.calculateTaskScore dueHigh (oneTick 0) 0%nat) == 276
  /\ Double.isFloat
       (fst (Engine.calculateTaskScore dueLow (oneTick 0) 1%nat))
       (Binary64.calculateTaskScore 1 dueLow) = true.
Proof.
  split; [vm_compute; reflexivity |].
  split; [vm_compute; reflexivity |].
  split; [reflexivity |].
  split; [intros [| k]; vm_compute; reflexivity |].
  repeat split; vm_compute; reflexivity.
Qed.

(** C2, amended: whatever the clock shows, [sortTasksByPriority] leaves the
    input array as it was and returns a new array holding the same tasks;
    and when every reading of the clock taken during the call shows the
    same time [now], every incomplete task stands before every completed
    one; of two tasks of equal completion status the one with the higher
    score at [now] stands first; of two with equal status and score the one
    with the earlier deadline stands first; tasks equal in status, score
    and deadline keep their input order; and of any two tasks one is ranked
    ahead of the other or they are in such a tie.  Scores are the doubles
    the source computes. *)
Theorem sortTasksByPriority_total_order (now : Z) (h : Ref.heap)
    (tasks : Ref.ref) (elems : list Task) :
  h !! tasks = Some elems ->
  (forall (clk : Clocked.Clock) (n : nat),
     exists result h' n' sorted,
       Engine.Arrays.sortTasksByPriority tasks h clk n
       = (Some (result, h'), n')
       /\ h' !! tasks = Some elems
       /\ result <> tasks
       /\ h' !! result = Some sorted
       /\ Permutation elems sorted)
  /\ (forall n : nat,
        exists result h' n',
          Engine.Arrays.sortTasksByPriority tasks h (Clocked.steady now) n
          = (Some (result, h'), n')
          /\ h' !! result = Some (Double.sortTasksByPriority now elems))
  /\ (forall i j a b,
        Double.sortTasksByPriority now elems !! i = Some a ->
        Double.sortTasksByPriority now elems !! j = Some b ->
        (completed a = false -> completed b = true -> (i < j)%nat)
        /\ (completed a = completed b ->
            Double.calculateTaskScore now b < Double.calculateTaskScore now a ->
            (i < j)%nat)
        /\ (completed a = completed b ->
            Double.calculateTaskScore now a == Double.calculateTaskScore now b ->
            (deadline a < deadline b)%Z ->
            (i < j)%nat))
  /\ (forall z,
        List.filter (Double.residualTieb now z)
                    (Double.sortTasksByPriority now elems)
        = List.filter (Double.residualTieb now z) elems)
  /\ (forall a b : Task,
        Double.rankedAhead now a b \/ Double.residualTie now a b
        \/ Double.rankedAhead now b a).
Proof.
  intros H.
  pose proof (lookup_lt_Some _ _ _ H) as Hlt.
  split.
  { intros clk n.
    rewrite (Engine_Arrays_sortTasksByPriority_spec clk h tasks elems n H).
    eexists _, _, _, _. split; [reflexivity |].
    split; [rewrite lookup_app_l by exact Hlt; exact H |].
    split; [lia |].
    split; [apply list_lookup_middle; reflexivity |].
    apply Clocked_Array_sort_Permutation. }
  split.
  { intros n.
    rewrite (Engine_Arrays_sortTasksByPriority_spec _ h tasks elems n H).
    eexists _, _, _. split; [reflexivity |].
    rewrite Engine_sortTasksByPriority_steady.
    apply list_lookup_middle. reflexivity. }
  split.
  { intros i j a b Hi Hj.
    pose proof (Double_sortTasksByPriority_ranked now elems i j a b Hi Hj) as Hr.
    unfold Double.rankedAhead in Hr. repeat split; intros; apply Hr; tauto. }
  split; [intros z; apply Double_sortTasksByPriority_stable |].
  apply Double_rankedAhead_total.
Qed.

Lemma sortTasksByPriority_total_order_witness :
  (forall (clk : Clocked.Clock) (n : nat),
     exists result h' n' sorted,
       Engine.Arrays.sortTasksByPriority 0%nat [[taskC; tieB; taskA; tieA]]
                                         clk n
       = (Some (result, h'), n')
       /\ h' !! 0%nat = Some [taskC; tieB; taskA; tieA]
       /\ result <> 0%nat
       /\ h' !! result = Some sorted
       /\ Permutation [taskC; tieB; taskA; tieA] sorted)
  /\ (forall n : nat,
        exists result h' n',
          Engine.Arrays.sortTasksByPriority 0%nat [[taskC; tieB; taskA; tieA]]
                                            (Clocked.steady 0) n
          = (Some (result, h'), n')
          /\ h' !! result
             = Some (Double.sortTasksByPriority 0 [taskC; tieB; taskA; tieA]))
  /\ (forall i j a b,
        Double.sortTasksByPriority 0 [taskC; tieB; taskA; tieA] !! i = Some a ->
        Double.sortTasksByPriority 0 [taskC; tieB; taskA; tieA] !! j = Some b ->
        (completed a = false -> completed b = true -> (i < j)%nat)
        /\ (completed a = completed b ->
            Double.calculateTaskScore 0 b < Double.calculateTaskScore 0 a ->
            (i < j)%nat)
        /\ (completed a = completed b ->
            Double.calculateTaskScore 0 a == Double.calculateTaskScore 0 b ->
            (deadline a < deadline b)%Z ->
            (i < j)%nat))
  /\ (forall z,
        List.filter (Double.residualTieb 0 z)
                    (Double.sortTasksByPriority 0 [taskC; tieB; taskA; tieA])
        = List.filter (Double.residualTieb 0 z) [taskC; tieB; taskA; tieA])
  /\ (forall a b : Task,
        Double.rankedAhead 0 a b \/ Double.residualTie 0 a b
        \/ Double.rankedAhead 0 b a).
Proof.
  apply (sortTasksByPriority_total_order 0 [[taskC; tieB; taskA; tieA]] 0%nat).
  reflexivity.
Defined.

Example Double_sort_tie_keeps_order :
  Double.sortTasksByPriority 0 [tieB; taskC; tieA] = [tieB; tieA; taskC].
Proof. vm_compute. reflexivity. Qed.

(** ** Filtering *)

Lemma sublist_List_filter {A : Type} (p : A -> bool) (l : list A) :
  sublist (List.filter p l) l.
Proof.
  induction l as [| x l IH]; cbn; [constructor |].
  destruct (p x); [apply sublist_skip | apply sublist_cons]; exact IH.
Qed.

Lemma Forall_List_filter_true {A : Type} (p : A -> bool) (l : list A) :
  Forall (fun x => p x = true) (List.filter p l).
Proof.
  apply List.Forall_forall. intros x Hx. apply filter_In in Hx. tauto.
Qed.

Lemma filterTasks_active (tasks : list Task) :
  filterTasks tasks "active"
  = List.filter (fun task => negb (completed task)) tasks.
Proof. reflexivity. Qed.

Lemma filterTasks_completed (tasks : list Task) :
  filterTasks tasks "completed"
  = List.filter (fun task => completed task) tasks.
Proof. reflexivity. Qed.

Lemma filterTasks_sublist (tasks : list Task) (filter : TaskFilter) :
  sublist (filterTasks tasks filter) tasks.
Proof.
  unfold filterTasks.
  destruct (String.eqb filter "active");
    [| destruct (String.eqb filter "completed")];
    try apply sublist_List_filter.
  reflexivity.
Qed.

(** Every selection is a [List.filter] by some predicate. *)
Lemma filterTasks_as_filter (filter : TaskFilter) :
  exists p : Task -> bool, forall tasks, filterTasks tasks filter = List.filter p tasks.
Proof.
  unfold filterTasks.
  destruct (String.eqb filter "active");
    [| destruct (String.eqb filter "completed")].
  - eexists. reflexivity.
  - eexists. reflexivity.
  - exists (fun _ => true). intros tasks.
    induction tasks as [| x l IH]; cbn; congruence.
Qed.

Example filter_scenario_active :
  filterTasks [taskC; taskB; taskA] "active" = [taskB; taskA].
Proof. reflexivity. Qed.

Example filter_scenario_completed :
  filterTasks [taskC; taskB; taskA] "completed" = [taskC].
Proof. reflexivity. Qed.

(** C3: the active selection holds incomplete tasks only, the completed
    selection completed tasks only, the selection [all] is the input itself
    (the same array, all tasks in their order); every result is a
    subsequence of the input in the input's order, and the input array is
    left as it was. *)
Theorem filterTasks_correct (h : Ref.heap) (tasks : Ref.ref)
    (elems : list Task) :
  h !! tasks = Some elems ->
  Forall (fun t => completed t = false) (filterTasks elems "active")
  /\ Forall (fun t => completed t = true) (filterTasks elems "completed")
  /\ filterTasks elems "all" = elems
  /\ Ref.filterTasks tasks "all" h = Some (tasks, h)
  /\ forall filter : TaskFilter,
       sublist (filterTasks elems filter) elems
       /\ exists result h',
            Ref.filterTasks tasks filter h = Some (result, h')
            /\ h' !! result = Some (filterTasks elems filter)
            /\ h' !! tasks = Some elems.
Proof.
  intros H. split; [| split; [| split; [reflexivity | split; [reflexivity |]]]].
  - rewrite filterTasks_active.
    eapply List.Forall_impl;
      [| apply (Forall_List_filter_true (fun task => negb (completed task)))].
    intros t Ht. apply negb_true_iff in Ht. exact Ht.
  - rewrite filterTasks_completed.
    apply (Forall_List_filter_true (fun task => completed task)).
  - intros filter. split; [apply filterTasks_sublist |].
    apply Ref_filterTasks_spec, H.
Qed.

Lemma filterTasks_correct_witness :
  Forall (fun t => completed t = false)
         (filterTasks [taskC; taskB; taskA] "active")
  /\ Forall (fun t => completed t = true)
            (filterTasks [taskC; taskB; taskA] "completed")
  /\ filterTasks [taskC; taskB; taskA] "all" = [taskC; taskB; taskA]
  /\ Ref.filterTasks 0%nat "all" [[taskC; taskB; taskA]]
     = Some (0%nat, [[taskC; taskB; taskA]])
  /\ forall filter : TaskFilter,
       sublist (filterTasks [taskC; taskB; taskA] filter) [taskC; taskB; taskA]
       /\ exists result h',
            Ref.filterTasks 0%nat filter [[taskC; taskB; taskA]]
            = Some (result, h')
            /\ h' !! result = Some (filterTasks [taskC; taskB; taskA] filter)
            /\ h' !! 0%nat = Some [taskC; taskB; taskA].
Proof.
  apply (filterTasks_correct [[taskC; taskB; taskA]] 0%nat). reflexivity.
Defined.

(** C6: a selection that is none of [all], [active], [completed] is treated
    as [all]: the result is the input array itself, with all tasks in their
    order, and no error is raised. *)
Theorem filterTasks_unrecognized (tasks : list Task) (filter : TaskFilter) :
  filter <> "all" -> filter <> "active" -> filter <> "completed" ->
  filterTasks tasks filter = tasks
  /\ filterTasks tasks filter = filterTasks tasks "all"
  /\ forall (h : Ref.heap) (arr : Ref.ref),
       Ref.filterTasks arr filter h = Some (arr, h).
Proof.
  intros _ Ha Hc.
  apply String.eqb_neq in Ha. apply String.eqb_neq in Hc.
  unfold Ref.filterTasks, filterTasks. rewrite Ha, Hc. cbn. auto.
Qed.

Lemma filterTasks_unrecognized_witness :
  filterTasks [taskC; taskB; taskA] "urgent" = [taskC; taskB; taskA]
  /\ filterTasks [taskC; taskB; taskA] "urgent"
     = filterTasks [taskC; taskB; taskA] "all"
  /\ forall (h : Ref.heap) (arr : Ref.ref),
       Ref.filterTasks arr "urgent" h = Some (arr, h).
Proof.
  apply (filterTasks_unrecognized [taskC; taskB; taskA] "urgent");
    discriminate.
Defined.

(** ** Sorting and filtering together *)


Example sortAndFilter_scenario :
  sortAndFilterTasks 0 [taskC; taskB; taskA] "active" = [taskA; taskB].
Proof. reflexivity. Qed.


(** ** Counting *)

Lemma length_filter_incomplete (tasks : list Task) :
  length (List.filter (fun task => negb (completed task)) tasks)
  = countCompleted false tasks.
Proof.
  unfold countCompleted.
  induction tasks as [| t l IH]; cbn; [reflexivity |].
  destruct (completed t); cbn; rewrite IH; reflexivity.
Qed.

Lemma length_filter_complete (tasks : list Task) :
  length (List.filter (fun task => completed task) tasks)
  = countCompleted true tasks.
Proof.
  unfold countCompleted.
  induction tasks as [| t l IH]; cbn; [reflexivity |].
  destruct (completed t); cbn; rewrite IH; reflexivity.
Qed.

Lemma countCompleted_sum (tasks : list Task) :
  length tasks = (countCompleted false tasks + countCompleted true tasks)%nat.
Proof.
  unfold countCompleted.
  induction tasks as [| t l IH]; cbn; [reflexivity |].
  destruct (completed t); cbn; lia.
Qed.

Lemma getTaskCounts_all (tasks : list Task) :
  getTaskCounts tasks !! "all" = Some (length tasks).
Proof. unfold getTaskCounts. apply lookup_insert_eq. Qed.

Lemma getTaskCounts_active (tasks : list Task) :
  getTaskCounts tasks !! "active" = Some (countCompleted false tasks).
Proof.
  unfold getTaskCounts.
  rewrite lookup_insert_ne by discriminate.
  rewrite lookup_insert_eq, length_filter_incomplete. reflexivity.
Qed.

Lemma getTaskCounts_completed (tasks : list Task) :
  getTaskCounts tasks !! "completed" = Some (countCompleted true tasks).
Proof.
  unfold getTaskCounts.
  rewrite !lookup_insert_ne by discriminate.
  rewrite lookup_insert_eq, length_filter_complete. reflexivity.
Qed.

Example counts_scenario :
  getTaskCounts [taskA; taskB; taskC] !! "all" = Some 3%nat
  /\ getTaskCounts [taskA; taskB; taskC] !! "active" = Some 2%nat
  /\ getTaskCounts [taskA; taskB; taskC] !! "completed" = Some 1%nat.
Proof.
  rewrite getTaskCounts_all, getTaskCounts_active, getTaskCounts_completed.
  repeat split.
Qed.

(** C4: [getTaskCounts] gives under [all] the length of the list, under
    [active] the number of incomplete tasks and under [completed] the number
    of completed ones; the first is the sum of the other two; and each is
    the size of what [filterTasks] selects from the whole list under that
    name, whatever selection the caller currently shows. *)
Theorem getTaskCounts_correct (tasks : list Task) :
  exists all active completed : nat,
    getTaskCounts tasks !! "all" = Some all
    /\ getTaskCounts tasks !! "active" = Some active
    /\ getTaskCounts tasks !! "completed" = Some completed
    /\ all = length tasks
    /\ active = countCompleted false tasks
    /\ completed = countCompleted true tasks
    /\ all = (active + completed)%nat
    /\ all = length (filterTasks tasks "all")
    /\ active = length (filterTasks tasks "active")
    /\ completed = length (filterTasks tasks "completed").
Proof.
  exists (length tasks), (countCompleted false tasks),
    (countCompleted true tasks).
  rewrite getTaskCounts_all, getTaskCounts_active, getTaskCounts_completed.
  rewrite filterTasks_active, filterTasks_completed.
  rewrite length_filter_incomplete, length_filter_complete.
  repeat split. apply countCompleted_sum.
Qed.

(** ** The wall clock, read during a sort *)

Example tie_at_any_instant (now : Z) : residualTie now tieA tieB.
Proof.
  unfold residualTie. repeat split.
Qed.

(** In double arithmetic too, one millisecond later the same task scores
    higher. *)
Example binary64_score_one_ms_later :
  Binary64.calculateTaskScore 0 tieA = 540%float
  /\ PrimFloat.ltb (Binary64.calculateTaskScore 0 tieA)
                   (Binary64.calculateTaskScore 1 tieB) = true.
Proof. split; vm_compute; reflexivity. Qed.



(** * Properties of the code around the ranking engine *)

(** ** Date utilities *)

Lemma hoursUntilDeadline_lt (now deadline k : Z) :
  hoursUntilDeadline now deadline < inject_Z k
  <-> (deadline - now < k * 3600000)%Z.
Proof.
  unfold hoursUntilDeadline. cbv zeta.
  change (inject_Z (1000 * 60 * 60)) with (inject_Z 3600000).
  unfold Qlt, Qdiv, Qmult, Qinv. cbn. lia.
Qed.

Lemma hoursUntilDeadline_lt_bool (now deadline k : Z) :
  Qlt_bool (hoursUntilDeadline now deadline) (inject_Z k)
  = (deadline - now <? k * 3600000)%Z.
Proof.
  apply eq_true_iff_eq.
  rewrite Qlt_bool_iff, hoursUntilDeadline_lt, Z.ltb_lt. reflexivity.
Qed.

Lemma floor_minutes (now deadline : Z) :
  Math_floor (hoursUntilDeadline now deadline * 60)
  = ((deadline - now) / 60000)%Z.
Proof.
  unfold Math_floor. rewrite Zdiv_Qdiv. apply Qfloor_comp.
  unfold hoursUntilDeadline. cbv zeta.
  change (inject_Z (1000 * 60 * 60)) with (inject_Z 3600000).
  change (inject_Z 60000) with 60000. change (inject_Z 3600000) with 3600000.
  field.
Qed.

Lemma floor_hours (now deadline : Z) :
  Math_floor (hoursUntilDeadline now deadline)
  = ((deadline - now) / 3600000)%Z.
Proof. unfold Math_floor. rewrite Zdiv_Qdiv. reflexivity. Qed.

Lemma floor_days (now deadline : Z) :
  Math_floor (hoursUntilDeadline now deadline / 24)
  = ((deadline - now) / 86400000)%Z.
Proof.
  unfold Math_floor. rewrite Zdiv_Qdiv. apply Qfloor_comp.
  unfold hoursUntilDeadline. cbv zeta.
  change (inject_Z (1000 * 60 * 60)) with (inject_Z 3600000).
  change (inject_Z 86400000) with 86400000.
  change (inject_Z 3600000) with 3600000.
  field.
Qed.

Lemma hasSpace_app (s1 s2 : string) :
  hasSpace (s1 +:+ String Ascii.Space s2) = true.
Proof.
  induction s1 as [| c s1 IH]; [reflexivity |].
  change (hasSpace (String c (s1 +:+ String Ascii.Space s2)) = true).
  cbn [hasSpace]. rewrite IH. apply orb_true_r.
Qed.

Lemma quantityLeft_not_Overdue (n : Z) (unit : string) :
  quantityLeft n unit <> "Overdue".
Proof.
  unfold quantityLeft. intros H.
  pose proof (hasSpace_app (pretty n)
                (unit +:+ (if (n =? 1)%Z then "" else "s") +:+ " left")) as Hs.
  change (String Ascii.Space ?s) with (" " +:+ s) in Hs.
  rewrite H in Hs. discriminate.
Qed.

Example timeRemaining_samples :
  getTimeRemainingText 0 (-1) = "Overdue"
  /\ getTimeRemainingText 0 0 = "0 mins left"
  /\ getTimeRemainingText 0 119999 = "1 min left"
  /\ getTimeRemainingText 0 3599999 = "59 mins left"
  /\ getTimeRemainingText 0 3600000 = "1 hour left"
  /\ getTimeRemainingText 0 86399999 = "23 hours left"
  /\ getTimeRemainingText 0 86400000 = "1 day left"
  /\ getTimeRemainingText 0 (50 * hourMs) = "2 days left".
Proof. repeat split; vm_compute; reflexivity. Qed.

(** On every whole minute below an hour, every whole hour below a day and
    every whole day of ten years, double arithmetic floors to the same
    number as the exact quotient. *)
Example binary64_floor_boundaries :
  forallb (fun k => (Binary64Text.minutes 0 (60000 * Z.of_nat k) =? Z.of_nat k)%Z)
          (seq 0 60)
  && forallb (fun k => (Binary64Text.roundedHours 0 (3600000 * Z.of_nat k)
                        =? Z.of_nat k)%Z)
             (seq 1 23)
  && forallb (fun k => (Binary64Text.days 0 (86400000 * Z.of_nat k)
                        =? Z.of_nat k)%Z)
             (seq 1 3650)
  = true.
Proof. vm_compute. reflexivity. Qed.

(** The text in whole-number arithmetic on the milliseconds left. *)
Lemma getTimeRemainingText_cases (now deadline : Z) :
  getTimeRemainingText now deadline
  = if (deadline - now <? 0)%Z then "Overdue"
    else if (deadline - now <? 3600000)%Z then
      quantityLeft ((deadline - now) / 60000) "min"
    else if (deadline - now <? 86400000)%Z then
      quantityLeft ((deadline - now) / 3600000) "hour"
    else quantityLeft ((deadline - now) / 86400000) "day".
Proof.
  unfold getTimeRemainingText. cbv zeta.
  rewrite floor_minutes, floor_hours, floor_days.
  change 0 with (inject_Z 0). change 1 with (inject_Z 1).
  change 24 with (inject_Z 24).
  rewrite !hoursUntilDeadline_lt_bool.
  change (0 * 3600000)%Z with 0%Z. change (1 * 3600000)%Z with 3600000%Z.
  change (24 * 3600000)%Z with 86400000%Z.
  unfold quantityLeft.
  repeat (match goal with
          | |- context [if (?x <? ?y)%Z then _ else _] => destruct (x <? y)%Z
          end); try reflexivity.
  all: match goal with
       | |- context [(?n =? 1)%Z] => destruct (n =? 1)%Z
       end; reflexivity.
Qed.

Lemma getTimeRemainingText_Overdue_iff (now deadline : Z) :
  getTimeRemainingText now deadline = "Overdue" <-> (deadline < now)%Z.
Proof.
  rewrite getTimeRemainingText_cases.
  destruct (deadline - now <? 0)%Z eqn:E0.
  - apply Z.ltb_lt in E0. split; [lia | reflexivity].
  - apply Z.ltb_ge in E0. split; [| lia].
    repeat (match goal with
            | |- context [if (?x <? ?y)%Z then _ else _] =>
              destruct (x <? y)%Z
            end); intros H; exfalso;
      exact (quantityLeft_not_Overdue _ _ H).
Qed.

(** X1: the remaining-time text is "Overdue" exactly when the deadline lies
    before [now]; otherwise it is "<n> min(s) left" with n the whole minutes
    left, from 0 to 59, below one hour; "<n> hour(s) left" with n from 1 to
    23 below one day; and "<n> day(s) left" with n at least 1 from one day
    on; the unit is in the singular exactly for n = 1. *)
Theorem getTimeRemainingText_shape (now deadline : Z) :
  (getTimeRemainingText now deadline = "Overdue" <-> (deadline < now)%Z)
  /\ ((now <= deadline)%Z ->
      exists (n : Z) (unit : string),
        getTimeRemainingText now deadline = quantityLeft n unit
        /\ ((unit = "min" /\ (deadline - now < 3600000)%Z
             /\ n = ((deadline - now) / 60000)%Z /\ (0 <= n <= 59)%Z)
            \/ (unit = "hour" /\ (3600000 <= deadline - now < 86400000)%Z
                /\ n = ((deadline - now) / 3600000)%Z /\ (1 <= n <= 23)%Z)
            \/ (unit = "day" /\ (86400000 <= deadline - now)%Z
                /\ n = ((deadline - now) / 86400000)%Z /\ (1 <= n)%Z))).
Proof.
  split; [apply getTimeRemainingText_Overdue_iff |].
  rewrite getTimeRemainingText_cases.
  { intros Hle.
    destruct (deadline - now <? 0)%Z eqn:E0; [apply Z.ltb_lt in E0; lia |].
    destruct (deadline - now <? 3600000)%Z eqn:E1;
      [apply Z.ltb_lt in E1 | apply Z.ltb_ge in E1].
    { eexists _, _. split; [reflexivity |]. left.
      repeat split; try lia.
      - apply Z.div_pos; lia.
      - assert ((deadline - now) / 60000 < 60)%Z
          by (apply Z.div_lt_upper_bound; lia).
        lia. }
    destruct (deadline - now <? 86400000)%Z eqn:E2;
      [apply Z.ltb_lt in E2 | apply Z.ltb_ge in E2].
    { eexists _, _. split; [reflexivity |]. right; left.
      repeat split; try lia.
      - apply Z.div_le_lower_bound; lia.
      - assert ((deadline - now) / 3600000 < 24)%Z
          by (apply Z.div_lt_upper_bound; lia).
        lia. }
    eexists _, _. split; [reflexivity |]. right; right.
    repeat split; try lia.
    apply Z.div_le_lower_bound; lia. }
Qed.

Lemma isOverdue_iff (now : Z) (task : Task) :
  isOverdue now (deadline task) (completed task) = true
  <-> completed task = false /\ (deadline task < now)%Z.
Proof.
  unfold isOverdue, isPast. destruct (completed task).
  - split; [discriminate | intros [? _]; discriminate].
  - rewrite Z.ltb_lt. tauto.
Qed.

Lemma hoursUntilDeadline_neg_iff (now deadline : Z) :
  hoursUntilDeadline now deadline < 0 <-> (deadline < now)%Z.
Proof.
  pose proof (hoursUntilDeadline_lt now deadline 0) as Hh.
  change (inject_Z 0) with 0 in Hh. rewrite Hh. lia.
Qed.

Lemma calculateTaskScore_overdue_lower_bound (now : Z) (task : Task) :
  completed task = false -> (deadline task < now)%Z ->
  1010 < calculateTaskScore now task.
Proof.
  intros Ec Hlt.
  assert (Hneg : spec_hoursRemaining now task < 0).
  { rewrite <- hoursUntilDeadline_spec. apply hoursUntilDeadline_neg_iff, Hlt. }
  rewrite calculateTaskScore_spec_score. unfold spec_score. rewrite Ec.
  destruct (spec_bonus_tiers (spec_hoursRemaining now task)) as (Hb & _).
  rewrite (Hb Hneg).
  pose proof (spec_base_bounds (priority task)).
  pose proof (Q.le_min_l (spec_hoursRemaining now task) 1000).
  lra.
Qed.

(** X2: [isOverdue], [getTimeRemainingText] and [calculateTaskScore] agree
    on what overdue means at one time [now]: the card is marked overdue
    exactly when the task is incomplete and its remaining-time text reads
    "Overdue", which is exactly when the scoring sees negative hours; such
    a task scores above 1010. *)
Theorem isOverdue_agrees (now : Z) (task : Task) :
  (isOverdue now (deadline task) (completed task) = true
   <-> completed task = false
       /\ getTimeRemainingText now (deadline task) = "Overdue")
  /\ (isOverdue now (deadline task) (completed task) = true
      <-> completed task = false
          /\ hoursUntilDeadline now (deadline task) < 0)
  /\ (isOverdue now (deadline task) (completed task) = true ->
      1010 < calculateTaskScore now task).
Proof.
  rewrite isOverdue_iff, getTimeRemainingText_Overdue_iff,
    hoursUntilDeadline_neg_iff.
  split; [reflexivity |]. split; [reflexivity |].
  intros [Hc Hlt]. apply calculateTaskScore_overdue_lower_bound; assumption.
Qed.

(** ** How urgency and priority rank *)





(** A LOW task due in 167 hours and a HIGH task due in 168 hours. *)
Example priority_overrides_at_seven_days :
  calculateTaskScore 0 (sampleTask "low" LOW (167 * hourMs) false) == -107
  /\ calculateTaskScore 0 (sampleTask "high" HIGH (168 * hourMs) false) == -68.
Proof. split; reflexivity. Qed.



Lemma spec_bonus_antitone (h1 h2 : Q) :
  h1 <= h2 -> spec_bonus h2 <= spec_bonus h1.
Proof.
  intros H. unfold spec_bonus.
  repeat (match goal with
          | |- context [if Qlt_bool ?x ?y then _ else _] =>
            destruct (Qlt_bool x y) eqn:?E
          end);
    repeat (match goal with
            | E : Qlt_bool _ _ = true |- _ => apply Qlt_bool_iff in E
            | E : Qlt_bool _ _ = false |- _ => apply Qlt_bool_false_iff in E
            end);
    first [ lra | discriminate ].
Qed.

(** X5: when the clock shows the same time at every reading taken during
    the sort, of two incomplete tasks of the same priority the one with the
    earlier deadline never scores lower and is sorted first.  Rounding can
    make the two scores equal; the deadline then decides. *)
Theorem same_priority_earlier_deadline_first (now : Z) (a b : Task) :
  completed a = false -> completed b = false ->
  priority a = priority b ->
  (deadline a < deadline b)%Z ->
  Double.calculateTaskScore now b <= Double.calculateTaskScore now a
  /\ forall (tasks : list Task) (n i j : nat),
       fst (Engine.sortTasksByPriority tasks (Clocked.steady now) n) !! i
       = Some a ->
       fst (Engine.sortTasksByPriority tasks (Clocked.steady now) n) !! j
       = Some b ->
       (i < j)%nat.
Proof.
  intros Ha Hb Hp Hd.
  assert (Hle : Double.calculateTaskScore now b
                <= Double.calculateTaskScore now a).
  { rewrite (Double_calculateTaskScore_incomplete now a Ha).
    rewrite (Double_calculateTaskScore_incomplete now b Hb).
    pose proof (Double_hoursUntilDeadline_le now (deadline a) (deadline b)
                  ltac:(lia)) as Hh.
    set (ha := Double.hoursUntilDeadline now (deadline a)) in *.
    set (hb := Double.hoursUntilDeadline now (deadline b)) in *.
    pose proof (spec_bonus_antitone ha hb Hh) as Hbonus.
    assert (Hmin : Qmin ha 1000 <= Qmin hb 1000).
    { apply Q.min_le_compat_r. exact Hh. }
    apply round64_le. rewrite Hp. lra. }
  split; [exact Hle |].
  intros tasks n i j. rewrite Engine_sortTasksByPriority_steady.
  intros Hi Hj.
  apply (Double_sortTasksByPriority_ranked now tasks i j a b Hi Hj).
  right.
  destruct (Qlt_le_dec (Double.calculateTaskScore now b)
                       (Double.calculateTaskScore now a)) as [Hlt | Hge].
  - left. split; [congruence | exact Hlt].
  - right. repeat split; [congruence | lra | exact Hd].
Qed.

Lemma same_priority_earlier_deadline_first_witness :
  Double.calculateTaskScore 0 (sampleTask "later" MEDIUM (2000 * hourMs) false)
  <= Double.calculateTaskScore 0
       (sampleTask "sooner" MEDIUM (1500 * hourMs) false)
  /\ forall (tasks : list Task) (n i j : nat),
       fst (Engine.sortTasksByPriority tasks (Clocked.steady 0) n) !! i
       = Some (sampleTask "sooner" MEDIUM (1500 * hourMs) false) ->
       fst (Engine.sortTasksByPriority tasks (Clocked.steady 0) n) !! j
       = Some (sampleTask "later" MEDIUM (2000 * hourMs) false) ->
       (i < j)%nat.
Proof.
  apply (same_priority_earlier_deadline_first 0
           (sampleTask "sooner" MEDIUM (1500 * hourMs) false)
           (sampleTask "later" MEDIUM (2000 * hourMs) false));
    reflexivity.
Defined.

(** With a clock that advances between the two readings of the one
    comparison the earlier deadline can come second: the tasks are due one
    millisecond apart, and the later one is scored two milliseconds later. *)
Example earlier_deadline_second_under_advancing_clock :
  let sooner := sampleTask "sooner" MEDIUM (10 * hourMs) false in
  let later := sampleTask "later" MEDIUM (10 * hourMs + 1) false in
  fst (Engine.sortTasksByPriority [sooner; later]
         (fun i => Z.of_nat (2 * i)) 0%nat)
  = [later; sooner].
Proof. vm_compute. reflexivity. Qed.

(** The hours left between two time values are at least -4.8e9, and the
    number the score rounds is below 2^53 in magnitude. *)
Lemma Double_hoursUntilDeadline_lower (now d : Z) :
  TimeValue now -> TimeValue d ->
  -4800000000 <= Double.hoursUntilDeadline now d.
Proof.
  unfold TimeValue. intros Hn Hd.
  rewrite Double_hoursUntilDeadline_eq.
  assert (H1 : inject_Z (-17280000000000000) <= inject_Z (d - now))
    by (rewrite <- Zle_Qle; lia).
  apply round64_le in H1.
  assert (E1 : Double.round64 (inject_Z (-17280000000000000))
               == inject_Z (-17280000000000000))
    by (vm_compute; reflexivity).
  rewrite E1 in H1.
  assert (H2 : inject_Z (-4800000000)
               <= Double.round64 (inject_Z (d - now)) / 3600000).
  { apply Qle_shift_div_l; [reflexivity |].
    change (inject_Z (-4800000000) * 3600000)
      with (inject_Z (-17280000000000000)). exact H1. }
  apply round64_le in H2. rewrite round64_Z in H2 by lia. exact H2.
Qed.

(** Rounding keeps two numbers apart that have two integers between them. *)
Lemma round64_lt_apart (x y : Q) :
  -2 ^ 52 <= x -> y <= 2 ^ 52 -> x + 2 <= y ->
  Double.round64 x < Double.round64 y.
Proof.
  intros Hx Hy Hxy.
  set (n := Qceiling x).
  pose proof (Qle_ceiling x) as H1. pose proof (Qceiling_lt x) as H2.
  fold n in H1, H2. rewrite inject_Z_minus in H2.
  change (inject_Z 1) with 1 in H2.
  assert (Hn1 : (- 2 ^ 52 <= n)%Z).
  { rewrite Zle_Qle. change (inject_Z (- 2 ^ 52)) with (- 2 ^ 52). lra. }
  assert (Hn2 : (n + 1 <= 2 ^ 52)%Z).
  { rewrite Zle_Qle, inject_Z_plus.
    change (inject_Z (2 ^ 52)) with (2 ^ 52). change (inject_Z 1) with 1.
    lra. }
  assert (Ha : Double.round64 x <= inject_Z n).
  { rewrite <- (round64_Z n) by lia. apply round64_le, H1. }
  assert (Hb : inject_Z (n + 1) <= Double.round64 y).
  { rewrite <- (round64_Z (n + 1)) by lia. apply round64_le.
    rewrite inject_Z_plus. change (inject_Z 1) with 1. lra. }
  rewrite inject_Z_plus in Hb. change (inject_Z 1) with 1 in Hb. lra.
Qed.

(** X6: when the clock shows the same time at every reading taken during
    the sort, of two incomplete tasks with the same deadline the one of
    higher priority scores strictly higher and is sorted first (deadline
    and clock being time values). *)
Theorem same_deadline_higher_priority_first (now : Z) (a b : Task) :
  TimeValue now -> TimeValue (deadline a) ->
  completed a = false -> completed b = false ->
  deadline a = deadline b ->
  PRIORITY_WEIGHTS (priority b) < PRIORITY_WEIGHTS (priority a) ->
  Double.calculateTaskScore now b < Double.calculateTaskScore now a
  /\ forall (tasks : list Task) (n i j : nat),
       fst (Engine.sortTasksByPriority tasks (Clocked.steady now) n) !! i
       = Some a ->
       fst (Engine.sortTasksByPriority tasks (Clocked.steady now) n) !! j
       = Some b ->
       (i < j)%nat.
Proof.
  intros Hn Ht Ha Hb Hd Hw.
  assert (Hlt : Double.calculateTaskScore now b
                < Double.calculateTaskScore now a).
  { rewrite (Double_calculateTaskScore_incomplete now a Ha).
    rewrite (Double_calculateTaskScore_incomplete now b Hb).
    rewrite <- Hd.
    pose proof (Double_hoursUntilDeadline_lower now (deadline a) Hn Ht) as Hh.
    set (h := Double.hoursUntilDeadline now (deadline a)) in *.
    pose proof (spec_bonus_nonneg h) as Hb0.
    assert (Hb1 : spec_bonus h <= 1000).
    { unfold spec_bonus.
      repeat (match goal with
              | |- context [if Qlt_bool ?x ?y then _ else _] =>
                destruct (Qlt_bool x y)
              end); discriminate. }
    assert (Hm1 : Qmin h 1000 <= 1000) by apply Q.le_min_r.
    assert (Hm2 : -4800000000 <= Qmin h 1000).
    { apply Q.min_glb; [exact Hh | discriminate]. }
    assert (Hp52 : 2 ^ 52 == 4503599627370496) by reflexivity.
    apply round64_lt_apart; rewrite ?Hp52;
      destruct (priority a), (priority b); cbn [PRIORITY_WEIGHTS] in *;
      lra. }
  split; [exact Hlt |].
  intros tasks n i j. rewrite Engine_sortTasksByPriority_steady.
  intros Hi Hj.
  apply (Double_sortTasksByPriority_ranked now tasks i j a b Hi Hj).
  right; left. split; [congruence | exact Hlt].
Qed.

Lemma same_deadline_higher_priority_first_witness :
  Double.calculateTaskScore 0 (sampleTask "low" LOW (30 * hourMs) false)
  < Double.calculateTaskScore 0 (sampleTask "high" HIGH (30 * hourMs) false)
  /\ forall (tasks : list Task) (n i j : nat),
       fst (Engine.sortTasksByPriority tasks (Clocked.steady 0) n) !! i
       = Some (sampleTask "high" HIGH (30 * hourMs) false) ->
       fst (Engine.sortTasksByPriority tasks (Clocked.steady 0) n) !! j
       = Some (sampleTask "low" LOW (30 * hourMs) false) ->
       (i < j)%nat.
Proof.
  apply (same_deadline_higher_priority_first 0
           (sampleTask "high" HIGH (30 * hourMs) false)
           (sampleTask "low" LOW (30 * hourMs) false));
    first [ reflexivity | vm_compute; discriminate ].
Defined.

(** ** The task reducer *)

Lemma taskReducer_keeps_quiet (state : TaskState) (action : TaskAction) :
  (loading state = true -> error state = None) ->
  loading (taskReducer state action) = true ->
  error (taskReducer state action) = None.
Proof. destruct action; cbn; auto; discriminate. Qed.

(** X7: whatever actions are dispatched from the initial state, the store
    never shows an error while it is loading. *)
Theorem taskReducer_no_error_while_loading (actions : list TaskAction) :
  loading (dispatchAll initialTaskState actions) = true ->
  error (dispatchAll initialTaskState actions) = None.
Proof.
  unfold dispatchAll.
  assert (H : forall state,
             (loading state = true -> error state = None) ->
             loading (fold_left taskReducer actions state) = true ->
             error (fold_left taskReducer actions state) = None).
  { induction actions as [| a l IH]; intros state Hs; cbn; [exact Hs |].
    apply IH. apply taskReducer_keeps_quiet, Hs. }
  apply H. discriminate.
Qed.

Lemma taskReducer_no_error_while_loading_witness :
  error (dispatchAll initialTaskState
           [TASKS_ERROR "offline"; TASK_ADDED taskA; TASKS_LOADING])
  = None.
Proof.
  apply (taskReducer_no_error_while_loading
           [TASKS_ERROR "offline"; TASK_ADDED taskA; TASKS_LOADING]).
  reflexivity.
Defined.

Lemma filter_id_absent (i : string) (l : list Task) :
  Forall (fun t => id t <> i) l ->
  List.filter (fun task => negb (String.eqb (id task) i)) l = l.
Proof.
  induction 1 as [| t l Ht Hl IH]; cbn; [reflexivity |].
  apply String.eqb_neq in Ht. rewrite Ht. cbn. rewrite IH. reflexivity.
Qed.

(** X8: [TASK_DELETED] removes every task with the given id and nothing
    else: no task of that id remains, the others keep their order, a task
    of another id stays, deleting an id that is not in the list changes
    nothing, and deleting twice is deleting once. *)
Theorem taskReducer_delete (state : TaskState) (taskId : string) :
  Forall (fun t => id t <> taskId)
         (tasks (taskReducer state (TASK_DELETED taskId)))
  /\ sublist (tasks (taskReducer state (TASK_DELETED taskId))) (tasks state)
  /\ (forall t, In t (tasks state) -> id t <> taskId ->
                In t (tasks (taskReducer state (TASK_DELETED taskId))))
  /\ (Forall (fun t => id t <> taskId) (tasks state) ->
      tasks (taskReducer state (TASK_DELETED taskId)) = tasks state)
  /\ tasks (taskReducer (taskReducer state (TASK_DELETED taskId))
                        (TASK_DELETED taskId))
     = tasks (taskReducer state (TASK_DELETED taskId)).
Proof.
  cbn [taskReducer tasks].
  assert (Hall : Forall (fun t => id t <> taskId)
                   (List.filter (fun task => negb (String.eqb (id task) taskId))
                                (tasks state))).
  { apply List.Forall_forall. intros t Ht. apply filter_In in Ht as [_ Ht].
    apply negb_true_iff, String.eqb_neq in Ht. exact Ht. }
  split; [exact Hall |].
  split; [apply sublist_List_filter |].
  split.
  { intros t Hin Hne. apply filter_In. split; [exact Hin |].
    apply negb_true_iff, String.eqb_neq, Hne. }
  split; [apply filter_id_absent |].
  apply filter_id_absent, Hall.
Qed.

Lemma map_update_absent (p : Task) (l : list Task) :
  Forall (fun t => id t <> id p) l ->
  map (fun task => if String.eqb (id task) (id p) then p else task) l = l.
Proof.
  induction 1 as [| t l Ht Hl IH]; cbn; [reflexivity |].
  apply String.eqb_neq in Ht. rewrite Ht, IH. reflexivity.
Qed.

Lemma map_update_ids (p : Task) (l : list Task) :
  map id (map (fun task => if String.eqb (id task) (id p) then p else task) l)
  = map id l.
Proof.
  induction l as [| t l IH]; cbn; [reflexivity |].
  rewrite IH. destruct (String.eqb (id t) (id p)) eqn:E; [| reflexivity].
  apply String.eqb_eq in E. congruence.
Qed.

Lemma map_update_unique (p : Task) (l : list Task) (k : nat) (t : Task) :
  NoDup (map id l) ->
  l !! k = Some t -> id t = id p ->
  map (fun task => if String.eqb (id task) (id p) then p else task) l
  = <[k := p]> l.
Proof.
  revert k. induction l as [| x l IH]; intros k Hnd Hk Hid; [discriminate |].
  cbn in Hnd. apply NoDup_cons in Hnd as [Hx Hnd].
  destruct k as [| k]; cbn in Hk.
  - injection Hk as ->. cbn. rewrite Hid, String.eqb_refl. f_equal.
    apply map_update_absent. apply List.Forall_forall.
    intros y Hy Heq. apply Hx. rewrite Hid, <- Heq.
    apply list_elem_of_In. apply in_map. exact Hy.
  - cbn. rewrite (IH k Hnd Hk Hid).
    destruct (String.eqb (id x) (id p)) eqn:E; [| reflexivity].
    exfalso. apply String.eqb_eq in E. apply Hx. rewrite E, <- Hid.
    apply list_elem_of_In. apply in_map.
    apply list_elem_of_In. apply list_elem_of_lookup. eauto.
Qed.

(** X9: [TASK_UPDATED] never adds or removes a task: the list keeps its
    length and its ids position by position; when no task has the
    payload's id the list is unchanged (the update does not insert); and
    when the ids are distinct, only the task with that id is replaced. *)
Theorem taskReducer_update (state : TaskState) (payload : Task) :
  length (tasks (taskReducer state (TASK_UPDATED payload)))
  = length (tasks state)
  /\ map id (tasks (taskReducer state (TASK_UPDATED payload)))
     = map id (tasks state)
  /\ (Forall (fun t => id t <> id payload) (tasks state) ->
      tasks (taskReducer state (TASK_UPDATED payload)) = tasks state)
  /\ (forall (k : nat) (t : Task),
        NoDup (map id (tasks state)) ->
        tasks state !! k = Some t -> id t = id payload ->
        tasks (taskReducer state (TASK_UPDATED payload))
        = <[k := payload]> (tasks state)).
Proof.
  cbn [taskReducer tasks].
  split; [apply length_map |].
  split; [apply map_update_ids |].
  split; [apply map_update_absent |].
  intros k t. apply map_update_unique.
Qed.

(** X10: adding a task and then deleting its id gives back the task list,
    provided no task had that id before. *)
Theorem taskReducer_add_then_delete (state : TaskState) (task : Task) :
  Forall (fun t => id t <> id task) (tasks state) ->
  tasks (dispatchAll state [TASK_ADDED task; TASK_DELETED (id task)])
  = tasks state.
Proof.
  intros H. cbn. rewrite List.filter_app. cbn.
  rewrite String.eqb_refl. cbn. rewrite app_nil_r.
  apply filter_id_absent, H.
Qed.

Lemma taskReducer_add_then_delete_witness :
  tasks (dispatchAll (mkTaskState [taskA; taskB] false None)
           [TASK_ADDED taskC; TASK_DELETED (id taskC)])
  = [taskA; taskB].
Proof.
  apply (taskReducer_add_then_delete (mkTaskState [taskA; taskB] false None)
           taskC).
  repeat constructor; discriminate.
Defined.

(** X11: [TASK_ADDED] appends without looking at the ids: when the list
    already holds a task with the new task's id (as after a snapshot that
    arrived first), the list then holds that id twice and the badge under
    [all] counts one more. *)
Theorem taskReducer_add_duplicates (state : TaskState) (task : Task) :
  In (id task) (map id (tasks state)) ->
  ~ NoDup (map id (tasks (taskReducer state (TASK_ADDED task))))
  /\ getTaskCounts (tasks (taskReducer state (TASK_ADDED task))) !! "all"
     = Some (S (length (tasks state))).
Proof.
  intros Hin. cbn [taskReducer tasks]. split.
  - rewrite map_app. cbn. intros Hnd.
    apply NoDup_app in Hnd as (_ & Hdisj & _).
    apply (Hdisj (id task)).
    + apply list_elem_of_In, Hin.
    + apply list_elem_of_In. left. reflexivity.
  - rewrite getTaskCounts_all, length_app. cbn. f_equal. lia.
Qed.

Lemma taskReducer_add_duplicates_witness :
  ~ NoDup (map id (tasks (taskReducer
                            (taskReducer initialTaskState
                                         (TASKS_LOADED [taskA; taskB]))
                            (TASK_ADDED taskB))))
  /\ getTaskCounts (tasks (taskReducer
                             (taskReducer initialTaskState
                                          (TASKS_LOADED [taskA; taskB]))
                             (TASK_ADDED taskB))) !! "all"
     = Some 3%nat.
Proof.
  apply (taskReducer_add_duplicates
           (taskReducer initialTaskState (TASKS_LOADED [taskA; taskB])) taskB).
  right; left; reflexivity.
Defined.

(** ** The operations of [TaskProvider] *)

Lemma find_by_id_unique (l : list Task) (k : nat) (t : Task) :
  NoDup (map id l) -> l !! k = Some t ->
  List.find (fun x => String.eqb (id x) (id t)) l = Some t.
Proof.
  revert k. induction l as [| x l IH]; intros k Hnd Hk; [discriminate |].
  cbn in Hnd. apply NoDup_cons in Hnd as [Hx Hnd].
  destruct k as [| k]; cbn in Hk.
  - injection Hk as ->. cbn. rewrite String.eqb_refl. reflexivity.
  - cbn. destruct (String.eqb (id x) (id t)) eqn:E; [| exact (IH k Hnd Hk)].
    exfalso. apply String.eqb_eq in E. apply Hx. rewrite E.
    apply list_elem_of_In. apply in_map.
    apply list_elem_of_In. apply list_elem_of_lookup. eauto.
Qed.

Lemma countCompleted_insert (l : list Task) (k : nat) (t t' : Task) (c : bool) :
  l !! k = Some t ->
  (countCompleted c (<[k := t']> l)
   + (if Bool.eqb (completed t) c then 1 else 0)
   = countCompleted c l + (if Bool.eqb (completed t') c then 1 else 0))%nat.
Proof.
  intros Hk.
  rewrite insert_take_drop by (eapply lookup_lt_Some; exact Hk).
  rewrite <- (take_drop_middle l k t Hk) at 3.
  unfold countCompleted. rewrite !map_app. cbn [map].
  rewrite !count_occ_app. cbn [count_occ].
  destruct (Bool.bool_dec (completed t') c) as [E' | E'];
    destruct (Bool.bool_dec (completed t) c) as [E | E];
    try (apply Bool.eqb_true_iff in E as ->);
    try (apply Bool.eqb_true_iff in E' as ->);
    try (apply Bool.eqb_false_iff in E as ->);
    try (apply Bool.eqb_false_iff in E' as ->); lia.
Qed.

(** X12: marking an incomplete task complete, with distinct ids and the
    closure holding the current state: no error is thrown, only that task
    changes, and only in its [completed] field; the badge under [all] stays,
    the one under [active] loses one and the one under [completed] gains
    one; the task leaves the active view and enters the completed view. *)
Theorem toggleTaskCompletion_completes (now : Z) (state : TaskState)
    (k : nat) (t : Task) :
  NoDup (map id (tasks state)) ->
  tasks state !! k = Some t ->
  completed t = false ->
  let result := toggleTaskCompletion true (Resolved tt) state (id t) true in
  let state' := dispatchAll state (fst result) in
  snd result = None
  /\ tasks state' = <[k := withCompleted true t]> (tasks state)
  /\ getTaskCounts (tasks state') !! "all"
     = getTaskCounts (tasks state) !! "all"
  /\ (exists active completed : nat,
        getTaskCounts (tasks state) !! "active" = Some (S active)
        /\ getTaskCounts (tasks state) !! "completed" = Some completed
        /\ getTaskCounts (tasks state') !! "active" = Some active
        /\ getTaskCounts (tasks state') !! "completed" = Some (S completed))
  /\ Forall (fun x => id x <> id t)
            (TaskListScreen.displayTasks now (tasks state') "active")
  /\ In (withCompleted true t)
        (TaskListScreen.displayTasks now (tasks state') "completed").
Proof.
  intros Hnd Hk Hc result state'.
  assert (Hres : result = ([TASK_UPDATED (withCompleted true t)], None)).
  { unfold result, toggleTaskCompletion. cbn [negb].
    rewrite (find_by_id_unique _ k t Hnd Hk). reflexivity. }
  assert (Ht' : tasks state' = <[k := withCompleted true t]> (tasks state)).
  { unfold state'. rewrite Hres. cbn [fst dispatchAll fold_left].
    cbn [taskReducer tasks].
    apply (map_update_unique _ _ k t Hnd Hk). reflexivity. }
  split; [rewrite Hres; reflexivity |].
  split; [exact Ht' |].
  rewrite Ht'.
  pose proof (countCompleted_insert (tasks state) k t (withCompleted true t)
                false Hk) as Hf.
  pose proof (countCompleted_insert (tasks state) k t (withCompleted true t)
                true Hk) as Htr.
  rewrite Hc in Hf, Htr. cbn in Hf, Htr.
  split.
  { rewrite !getTaskCounts_all, length_insert. reflexivity. }
  split.
  { rewrite !getTaskCounts_active, !getTaskCounts_completed.
    exists (countCompleted false (<[k:=withCompleted true t]> (tasks state))),
      (countCompleted true (tasks state)).
    repeat split; f_equal; lia. }
  assert (Hin : In (withCompleted true t)
                  (<[k := withCompleted true t]> (tasks state))).
  { apply list_elem_of_In. apply list_elem_of_lookup. exists k.
    apply list_lookup_insert_eq. eapply lookup_lt_Some. exact Hk. }
  split.
  - unfold TaskListScreen.displayTasks, sortAndFilterTasks.
    rewrite <- sortTasksByPriority_Permutation.
    rewrite filterTasks_active. apply List.Forall_forall.
    intros x Hx Hid. apply filter_In in Hx as [Hx Hxc].
    apply negb_true_iff in Hxc.
    apply list_elem_of_In, list_elem_of_lookup in Hx as [j Hj].
    destruct (decide (j = k)) as [-> | Hne].
    + rewrite list_lookup_insert_eq in Hj
        by (eapply lookup_lt_Some; exact Hk).
      injection Hj as <-. discriminate.
    + rewrite list_lookup_insert_ne in Hj by congruence.
      apply Hne.
      assert (Hidj : map id (tasks state) !! j = Some (id x))
        by (rewrite list_lookup_fmap, Hj; reflexivity).
      assert (Hidk : map id (tasks state) !! k = Some (id t))
        by (rewrite list_lookup_fmap, Hk; reflexivity).
      rewrite Hid in Hidj.
      exact (NoDup_lookup _ _ _ _ Hnd Hidj Hidk).
  - unfold TaskListScreen.displayTasks, sortAndFilterTasks.
    eapply Permutation_in; [apply sortTasksByPriority_Permutation |].
    rewrite filterTasks_completed. apply filter_In.
    split; [exact Hin | reflexivity].
Qed.

Lemma toggleTaskCompletion_completes_witness :
  let result :=
    toggleTaskCompletion true (Resolved tt)
      (mkTaskState [taskA; taskB] false None) (id taskB) true in
  let state' := dispatchAll (mkTaskState [taskA; taskB] false None)
                            (fst result) in
  snd result = None
  /\ tasks state' = <[1%nat := withCompleted true taskB]> [taskA; taskB]
  /\ getTaskCounts (tasks state') !! "all"
     = getTaskCounts [taskA; taskB] !! "all"
  /\ (exists active completed : nat,
        getTaskCounts [taskA; taskB] !! "active" = Some (S active)
        /\ getTaskCounts [taskA; taskB] !! "completed" = Some completed
        /\ getTaskCounts (tasks state') !! "active" = Some active
        /\ getTaskCounts (tasks state') !! "completed" = Some (S completed))
  /\ Forall (fun x => id x <> id taskB)
            (TaskListScreen.displayTasks 0 (tasks state') "active")
  /\ In (withCompleted true taskB)
        (TaskListScreen.displayTasks 0 (tasks state') "completed").
Proof.
  apply (toggleTaskCompletion_completes 0
           (mkTaskState [taskA; taskB] false None) 1 taskB);
    [ compute_done | reflexivity | reflexivity ].
Defined.

(** A task list seen by a closure, and the newer one in the store, where
    the title of task B has been edited meanwhile. *)
Example toggle_with_stale_closure :
  let seen := mkTaskState [taskA; taskB] false None in
  let edited :=
    mkTask (id taskB) (userId taskB) "new title" (description taskB)
           (dateTime taskB) (deadline taskB) (priority taskB)
           (category taskB) (completed taskB) (createdAt taskB)
           (updatedAt taskB) in
  let current := mkTaskState [taskA; edited] false None in
  tasks (dispatchAll current
           (fst (toggleTaskCompletion true (Resolved tt) seen (id taskB) true)))
  = [taskA; withCompleted true taskB].
Proof. reflexivity. Qed.

(** X13: what [toggleTaskCompletion] writes to the store is computed from
    the state its closure holds, not from the store: when the closure's
    list has no task of the given id nothing is dispatched, and otherwise
    every task of that id in the store becomes the closure's copy of the
    task with the new [completed], whatever the store held for it. *)
Theorem toggleTaskCompletion_uses_closure_state (seen current : TaskState)
    (taskId : string) (completed' : bool) :
  let result :=
    toggleTaskCompletion true (Resolved tt) seen taskId completed' in
  snd result = None
  /\ (Forall (fun t => id t <> taskId) (tasks seen) ->
      dispatchAll current (fst result) = current)
  /\ (forall tSeen : Task,
        List.find (fun t => String.eqb (id t) taskId) (tasks seen)
        = Some tSeen ->
        forall x : Task,
          In x (tasks (dispatchAll current (fst result))) ->
          id x = taskId ->
          x = withCompleted completed' tSeen).
Proof.
  cbv zeta. unfold toggleTaskCompletion. cbn [negb].
  destruct (List.find (fun t => String.eqb (id t) taskId) (tasks seen))
    as [e |] eqn:Ef.
  - split; [reflexivity |]. split.
    + intros Hall. exfalso.
      apply find_some in Ef as [Hin He]. apply String.eqb_eq in He.
      exact (proj1 (List.Forall_forall _ _) Hall e Hin He).
    + intros tSeen [= <-] x Hx Hid.
      apply find_some in Ef as [_ He]. apply String.eqb_eq in He.
      cbn in Hx. apply in_map_iff in Hx as (y & Hy & _).
      cbn in Hy.
      destruct (String.eqb (id y) (id e)) eqn:E; [congruence |].
      apply String.eqb_neq in E. congruence.
  - split; [reflexivity |]. split; [reflexivity | discriminate].
Qed.

(** The operations of the provider handle failure alike: when the
    service call is rejected the message is recorded in the store, loading
    is off, the task list is as it was, and the message is thrown to the
    caller; when no user is signed in nothing is dispatched and an error is
    thrown, whatever the service would have answered. *)
Lemma provider_failure_keeps_tasks (state seen : TaskState)
    (message taskId : string) (completed' : bool) :
  Forall (fun result : list TaskAction * option string =>
            snd result = Some message
            /\ dispatchAll state (fst result)
               = {| tasks := tasks state; loading := false;
                    error := Some message |})
         [addTask true (Rejected message);
          deleteTask true (Rejected message) taskId;
          toggleTaskCompletion true (Rejected message) seen taskId completed']
  /\ forall (s1 : Outcome Task) (s2 s3 : Outcome unit),
       Forall (fun result : list TaskAction * option string =>
                 fst result = [] /\ snd result <> None
                 /\ dispatchAll state (fst result) = state)
              [addTask false s1; deleteTask false s2 taskId;
               toggleTaskCompletion false s3 seen taskId completed'].
Proof.
  split.
  - repeat constructor.
  - intros s1 s2 s3. repeat constructor; discriminate.
Qed.

(** ** The task list screen *)

Lemma List_filter_comm {A : Type} (p q : A -> bool) (l : list A) :
  List.filter p (List.filter q l) = List.filter q (List.filter p l).
Proof.
  induction l as [| x l IH]; cbn; [reflexivity |].
  destruct (p x) eqn:Ep, (q x) eqn:Eq; cbn; rewrite ?Ep, ?Eq, IH; reflexivity.
Qed.

(** At one clock reading, filtering before sorting or after gives the same
    list in double arithmetic too. *)
Lemma Double_sortAndFilterTasks_commute (now : Z) (tasks : list Task)
    (filter : TaskFilter) :
  Double.sortAndFilterTasks now tasks filter
  = filterTasks (Double.sortTasksByPriority now tasks) filter.
Proof.
  unfold Double.sortAndFilterTasks.
  destruct (filterTasks_as_filter filter) as [p Hp].
  rewrite !Hp. symmetry. apply Double_sortTasksByPriority_filter.
Qed.

(** X14: deleting a task takes its cards off the screen and does nothing
    else to it: the list computed after [TASK_DELETED] is, card for card
    and in the same order, the list computed from the undeleted store at
    the same time without the cards of the deleted id, under every filter
    (the clock showing one time [now] at every reading of both sorts). *)
Theorem delete_keeps_display_order (now : Z) (state : TaskState)
    (taskId : string) (activeFilter : TaskFilter) (n n' : nat) :
  fst (Engine.displayTasks
         (tasks (taskReducer state (TASK_DELETED taskId))) activeFilter
         (Clocked.steady now) n')
  = List.filter (fun task => negb (String.eqb (id task) taskId))
      (fst (Engine.displayTasks (tasks state) activeFilter
              (Clocked.steady now) n)).
Proof.
  unfold Engine.displayTasks.
  rewrite !Engine_sortAndFilterTasks_steady.
  unfold Double.sortAndFilterTasks. cbn [taskReducer tasks].
  destruct (filterTasks_as_filter activeFilter) as [p Hp].
  rewrite !Hp, List_filter_comm. symmetry.
  apply Double_sortTasksByPriority_filter.
Qed.

(** Between two renders the clock does advance, and the remaining cards can
    change places for that reason alone: P (LOW) is due one millisecond
    after the 24-hour mark and Q (HIGH) in 30 hours; at time 0 the screen
    shows Q before P, and the render that follows the deletion of R two
    milliseconds later shows P before Q, as any render at that time
    would. *)
Example later_render_reorders :
  let P := sampleTask "P" LOW (24 * hourMs + 1) false in
  let Q := sampleTask "Q" HIGH (30 * hourMs) false in
  let R := sampleTask "R" MEDIUM (5 * hourMs) false in
  let state := mkTaskState [P; Q; R] false None in
  fst (Engine.displayTasks (tasks state) "all" (Clocked.steady 0) 0%nat)
  = [R; Q; P]
  /\ fst (Engine.displayTasks (tasks (taskReducer state (TASK_DELETED "R")))
            "all" (Clocked.steady 2) 0%nat)
     = [P; Q]
  /\ fst (Engine.displayTasks (tasks state) "all" (Clocked.steady 2) 0%nat)
     = [R; P; Q].
Proof. repeat split; vm_compute; reflexivity. Qed.

Lemma List_filter_nil {A : Type} (p : A -> bool) (l : list A) :
  List.filter p l = [] -> Forall (fun x => p x = false) l.
Proof.
  induction l as [| x l IH]; cbn; [constructor |].
  destruct (p x) eqn:E; [discriminate |].
  intros H. constructor; auto.
Qed.

Lemma displayTasks_length (now : Z) (tasks : list Task)
    (activeFilter : TaskFilter) :
  length (TaskListScreen.displayTasks now tasks activeFilter)
  = length (filterTasks tasks activeFilter).
Proof. apply Array_sort_length. Qed.

(** X15: the badge of a tab carries the number of cards the list shows when
    that tab is active, and is hidden exactly when the list is then empty;
    a selection that is none of the three tabs has no badge. *)
Theorem badge_counts_the_cards (now : Z) (tasks : list Task)
    (activeFilter : TaskFilter) :
  (In activeFilter (map fst FilterBar.filters) ->
   FilterBar.badge (TaskListScreen.taskCounts tasks) activeFilter
   = match TaskListScreen.displayTasks now tasks activeFilter with
     | [] => None
     | items => Some (length items)
     end)
  /\ (~ In activeFilter (map fst FilterBar.filters) ->
      FilterBar.badge (TaskListScreen.taskCounts tasks) activeFilter = None).
Proof.
  unfold FilterBar.badge, TaskListScreen.taskCounts. split.
  - intros Hin.
    assert (Hc : getTaskCounts tasks !! activeFilter
                 = Some (length (TaskListScreen.displayTasks now tasks
                                   activeFilter))).
    { rewrite displayTasks_length.
      cbn in Hin. destruct Hin as [<- | [<- | [<- | []]]].
      - apply getTaskCounts_all.
      - rewrite getTaskCounts_active, filterTasks_active,
          length_filter_incomplete. reflexivity.
      - rewrite getTaskCounts_completed, filterTasks_completed,
          length_filter_complete. reflexivity. }
    rewrite Hc.
    destruct (TaskListScreen.displayTasks now tasks activeFilter);
      reflexivity.
  - intros Hnot. cbn in Hnot.
    unfold getTaskCounts.
    rewrite !lookup_insert_ne by (intros <-; apply Hnot; auto).
    reflexivity.
Qed.

(** X16: the empty state tells the truth: it is shown only when the store
    is not loading, with the content of the active filter; it says "All
    caught up!" only when no task is incomplete, "No completed tasks yet"
    only when no task is completed, and "No tasks yet" only when there is no
    task at all. *)
Theorem empty_state_is_truthful (now : Z) (state : TaskState)
    (activeFilter : TaskFilter) (content : EmptyState.Content) :
  TaskListScreen.listArea now state activeFilter
  = TaskListScreen.Empty content ->
  loading state = false
  /\ content = EmptyState.getEmptyStateContent activeFilter
  /\ (EmptyState.title content = "All caught up!" ->
      Forall (fun t => completed t = true) (tasks state))
  /\ (EmptyState.title content = "No completed tasks yet" ->
      Forall (fun t => completed t = false) (tasks state))
  /\ (EmptyState.title content = "No tasks yet" -> tasks state = []).
Proof.
  unfold TaskListScreen.listArea, TaskListScreen.renderEmptyState.
  destruct (TaskListScreen.displayTasks now (tasks state) activeFilter)
    as [| x items] eqn:Ed; [| discriminate].
  destruct (loading state); [discriminate |].
  intros [= <-]. split; [reflexivity |]. split; [reflexivity |].
  assert (Hf : filterTasks (tasks state) activeFilter = []).
  { apply Permutation_nil. rewrite <- Ed. symmetry.
    unfold TaskListScreen.displayTasks, sortAndFilterTasks.
    apply sortTasksByPriority_Permutation. }
  unfold EmptyState.getEmptyStateContent. unfold filterTasks in Hf.
  destruct (String.eqb activeFilter "active");
    [| destruct (String.eqb activeFilter "completed")]; cbn.
  - apply List_filter_nil in Hf.
    split; [| split; discriminate]. intros _.
    eapply List.Forall_impl; [| exact Hf].
    intros t Ht. apply negb_false_iff in Ht. exact Ht.
  - apply List_filter_nil in Hf.
    split; [discriminate |]. split; [| discriminate]. intros _. exact Hf.
  - split; [discriminate |]. split; [discriminate |]. intros _. exact Hf.
Qed.

Lemma empty_state_is_truthful_witness :
  loading (mkTaskState [taskC] false None) = false
  /\ EmptyState.getEmptyStateContent "active"
     = EmptyState.getEmptyStateContent "active"
  /\ (EmptyState.title (EmptyState.getEmptyStateContent "active")
      = "All caught up!" ->
      Forall (fun t => completed t = true)
             (tasks (mkTaskState [taskC] false None)))
  /\ (EmptyState.title (EmptyState.getEmptyStateContent "active")
      = "No completed tasks yet" ->
      Forall (fun t => completed t = false)
             (tasks (mkTaskState [taskC] false None)))
  /\ (EmptyState.title (EmptyState.getEmptyStateContent "active")
      = "No tasks yet" -> tasks (mkTaskState [taskC] false None) = []).
Proof.
  apply (empty_state_is_truthful 0 (mkTaskState [taskC] false None) "active").
  reflexivity.
Defined.

(** ** Regular expressions *)

Lemma nullable_Matches (r : RegExp.regex) :
  RegExp.nullable r = true <-> RegExp.Matches r [].
Proof.
  induction r as [| | p | r1 IH1 r2 IH2 | r1 IH1 r2 IH2 | r IH]; cbn.
  - split; [discriminate | inversion 1].
  - split; [constructor | reflexivity].
  - split; [discriminate | inversion 1].
  - rewrite andb_true_iff, IH1, IH2. split.
    + intros [H1 H2]. exact (RegExp.MSeq _ _ [] [] H1 H2).
    + intros H. inversion H as [| | ra rb s1 s2 H1 H2 | | | |]; subst.
      match goal with
      | Heq : _ ++ _ = [] |- _ => apply app_eq_nil in Heq as [-> ->]
      end. auto.
  - rewrite orb_true_iff, IH1, IH2. split.
    + intros [H | H]; [apply RegExp.MAltL | apply RegExp.MAltR]; exact H.
    + inversion 1; subst; auto.
  - split; [constructor | reflexivity].
Qed.

Lemma deriv_sound (c : N) (r : RegExp.regex) (s : list N) :
  RegExp.Matches (RegExp.deriv c r) s -> RegExp.Matches r (c :: s).
Proof.
  revert s.
  induction r as [| | p | r1 IH1 r2 IH2 | r1 IH1 r2 IH2 | r IH];
    intros s H; cbn in H.
  - inversion H.
  - inversion H.
  - destruct (p c) eqn:E; inversion H; subst. constructor. exact E.
  - destruct (RegExp.nullable r1) eqn:En.
    + inversion H as [| | | ? ? ? HL | ? ? ? HR | |]; subst.
      * inversion HL as [| | ? ? s1 s2 H1 H2 | | | |]; subst.
        exact (RegExp.MSeq _ _ (c :: s1) s2 (IH1 _ H1) H2).
      * apply nullable_Matches in En.
        exact (RegExp.MSeq _ _ [] (c :: s) En (IH2 _ HR)).
    + inversion H as [| | ? ? s1 s2 H1 H2 | | | |]; subst.
      exact (RegExp.MSeq _ _ (c :: s1) s2 (IH1 _ H1) H2).
  - inversion H; subst;
      [apply RegExp.MAltL; auto | apply RegExp.MAltR; auto].
  - inversion H as [| | ? ? s1 s2 H1 H2 | | | |]; subst.
    exact (RegExp.MStarCons _ (c :: s1) s2 (IH _ H1) H2).
Qed.

Lemma deriv_complete (c : N) (r : RegExp.regex) (s : list N) :
  RegExp.Matches r (c :: s) -> RegExp.Matches (RegExp.deriv c r) s.
Proof.
  intros H. remember (c :: s) as cs eqn:Ecs. revert s Ecs.
  induction H as [| p x Hp | r1 r2 s1 s2 H1 IH1 H2 IH2
                  | r1 r2 s0 H0 IH0 | r1 r2 s0 H0 IH0
                  | r | r s1 s2 H1 IH1 H2 IH2]; intros s Ecs.
  - discriminate.
  - injection Ecs as -> <-. cbn. rewrite Hp. constructor.
  - cbn. destruct s1 as [| y s1]; cbn in Ecs.
    + subst s2. apply nullable_Matches in H1. rewrite H1.
      apply RegExp.MAltR. apply IH2. reflexivity.
    + injection Ecs as -> <-.
      destruct (RegExp.nullable r1);
        [apply RegExp.MAltL |]; apply RegExp.MSeq; auto.
  - cbn. apply RegExp.MAltL. auto.
  - cbn. apply RegExp.MAltR. auto.
  - discriminate.
  - destruct s1 as [| y s1]; cbn in Ecs.
    + apply IH2. exact Ecs.
    + injection Ecs as -> <-. cbn. apply RegExp.MSeq; auto.
Qed.

(** The matcher decides the matching relation. *)
Lemma test_Matches (r : RegExp.regex) (s : list N) :
  RegExp.test r s = true <-> RegExp.Matches r s.
Proof.
  revert r. induction s as [| c s IH]; intros r; cbn.
  - apply nullable_Matches.
  - rewrite IH. split; [apply deriv_sound | apply deriv_complete].
Qed.

Lemma Matches_Class (p : N -> bool) (s : list N) :
  RegExp.Matches (RegExp.Class p) s <-> exists c, s = [c] /\ p c = true.
Proof.
  split.
  - inversion 1; subst. eauto.
  - intros (c & -> & Hc). constructor. exact Hc.
Qed.

Lemma Matches_Star_Class (p : N -> bool) (s : list N) :
  RegExp.Matches (RegExp.Star (RegExp.Class p)) s
  <-> Forall (fun c => p c = true) s.
Proof.
  split.
  - intros H. remember (RegExp.Star (RegExp.Class p)) as r eqn:Er.
    induction H as [| | | | | r' | r' s1 s2 H1 _ H2 IH2]; try discriminate.
    + constructor.
    + injection Er as ->. apply Matches_Class in H1 as (c & -> & Hc).
      constructor; auto.
  - induction 1 as [| c s Hc Hs IH]; [constructor |].
    apply (RegExp.MStarCons _ [c] s); [constructor; exact Hc | exact IH].
Qed.

Lemma Matches_Plus_Class (p : N -> bool) (s : list N) :
  RegExp.Matches (RegExp.Plus (RegExp.Class p)) s
  <-> s <> [] /\ Forall (fun c => p c = true) s.
Proof.
  unfold RegExp.Plus. split.
  - inversion 1 as [| | ? ? s1 s2 H1 H2 | | | |]; subst.
    apply Matches_Class in H1 as (c & -> & Hc).
    apply Matches_Star_Class in H2.
    split; [discriminate | constructor; auto].
  - intros [Hne Hall]. destruct Hall as [| c s Hc Hs]; [congruence |].
    apply (RegExp.MSeq _ _ [c] s); [constructor; exact Hc |].
    apply Matches_Star_Class, Hs.
Qed.

(** ** White space *)

Lemma trimStart_noLeadingSpace (s : list N) :
  JSString.noLeadingSpace (JSString.trimStart s).
Proof.
  induction s as [| c s IH]; cbn; [exact I |].
  destruct (JSString.isWhiteSpace c) eqn:E; [exact IH | exact E].
Qed.

Lemma trimStart_id (s : list N) :
  JSString.noLeadingSpace s -> JSString.trimStart s = s.
Proof. destruct s as [| c s]; cbn; [reflexivity | intros ->; reflexivity]. Qed.

Lemma trimStart_snoc (l : list N) (c : N) :
  JSString.isWhiteSpace c = false ->
  JSString.trimStart (l ++ [c]) = JSString.trimStart l ++ [c].
Proof.
  intros Hc. induction l as [| x l IH]; cbn; [rewrite Hc; reflexivity |].
  destruct (JSString.isWhiteSpace x); [exact IH | reflexivity].
Qed.

Lemma trimEnd_noTrailingSpace (s : list N) :
  JSString.noLeadingSpace (rev (JSString.trimEnd s)).
Proof.
  unfold JSString.trimEnd. rewrite rev_involutive.
  apply trimStart_noLeadingSpace.
Qed.

Lemma trimEnd_id (s : list N) :
  JSString.noLeadingSpace (rev s) -> JSString.trimEnd s = s.
Proof.
  intros H. unfold JSString.trimEnd. rewrite (trimStart_id _ H).
  apply rev_involutive.
Qed.

Lemma trimEnd_keeps_head (s : list N) :
  JSString.noLeadingSpace s -> JSString.noLeadingSpace (JSString.trimEnd s).
Proof.
  destruct s as [| c s]; [intros _; exact I |]. cbn. intros Hc.
  unfold JSString.trimEnd. cbn [rev].
  rewrite (trimStart_snoc _ c Hc), rev_app_distr. cbn. exact Hc.
Qed.

Lemma trim_noLeadingSpace (s : list N) : JSString.noLeadingSpace (JSString.trim s).
Proof. apply trimEnd_keeps_head, trimStart_noLeadingSpace. Qed.

Lemma trim_noTrailingSpace (s : list N) :
  JSString.noLeadingSpace (rev (JSString.trim s)).
Proof. apply trimEnd_noTrailingSpace. Qed.

Lemma trim_idempotent (s : list N) :
  JSString.trim (JSString.trim s) = JSString.trim s.
Proof.
  unfold JSString.trim at 1.
  rewrite (trimStart_id _ (trim_noLeadingSpace s)).
  apply trimEnd_id, trim_noTrailingSpace.
Qed.

Lemma trimStart_length (s : list N) :
  (length (JSString.trimStart s) <= length s)%nat.
Proof.
  induction s as [| c s IH]; cbn; [lia |].
  destruct (JSString.isWhiteSpace c); cbn; lia.
Qed.

Lemma trim_length (s : list N) :
  (length (JSString.trim s) <= length s)%nat.
Proof.
  unfold JSString.trim, JSString.trimEnd. rewrite length_rev.
  etransitivity; [apply trimStart_length |].
  rewrite length_rev. apply trimStart_length.
Qed.

Lemma trimStart_all_space (s : list N) :
  Forall (fun c => JSString.isWhiteSpace c = true) s ->
  JSString.trimStart s = [].
Proof.
  induction 1 as [| c s Hc Hs IH]; cbn; [reflexivity |].
  rewrite Hc. exact IH.
Qed.

(** ** Form validation *)

Lemma Matches_emailRegex (s : list N) :
  RegExp.Matches Validators.emailRegex s
  <-> exists localPart domain tld : list N,
        s = localPart ++ Validators.atSign :: domain
            ++ Validators.fullStop :: tld
        /\ localPart <> [] /\ domain <> [] /\ tld <> []
        /\ Forall (fun c => Validators.notSpaceNorAt c = true)
                  (localPart ++ domain ++ tld).
Proof.
  unfold Validators.emailRegex. split.
  - intros H.
    inversion H as [| | ? ? a s1 Ha H1 | | | |]; subst; clear H.
    inversion H1 as [| | ? ? at_ s2 Hat H2 | | | |]; subst; clear H1.
    inversion H2 as [| | ? ? b s3 Hb H3 | | | |]; subst; clear H2.
    inversion H3 as [| | ? ? dot c Hdot Hc | | | |]; subst; clear H3.
    apply Matches_Plus_Class in Ha as [Hane Ha].
    apply Matches_Plus_Class in Hb as [Hbne Hb].
    apply Matches_Plus_Class in Hc as [Hcne Hc].
    apply Matches_Class in Hat as (x & -> & Hx). apply N.eqb_eq in Hx as <-.
    apply Matches_Class in Hdot as (y & -> & Hy). apply N.eqb_eq in Hy as <-.
    exists a, b, c. repeat split; try assumption.
    rewrite !List.Forall_app. auto.
  - intros (a & b & c & -> & Hane & Hbne & Hcne & Hall).
    rewrite !List.Forall_app in Hall. destruct Hall as (Ha & Hb & Hc).
    apply RegExp.MSeq; [apply Matches_Plus_Class; auto |].
    apply (RegExp.MSeq _ _ [Validators.atSign]);
      [constructor; apply N.eqb_refl |].
    apply RegExp.MSeq; [apply Matches_Plus_Class; auto |].
    apply (RegExp.MSeq _ _ [Validators.fullStop]);
      [constructor; apply N.eqb_refl |].
    apply Matches_Plus_Class; auto.
Qed.

Lemma validateEmail_None_iff (email : list N) :
  Validators.validateEmail email = None
  <-> RegExp.Matches Validators.emailRegex (JSString.trim email).
Proof.
  unfold Validators.validateEmail. rewrite <- test_Matches.
  destruct (Validators.isEmptyString email
            || (length (JSString.trim email) =? 0)%nat) eqn:E.
  - split; [discriminate |]. intros Ht. exfalso.
    assert (Hnil : JSString.trim email = []).
    { apply orb_true_iff in E as [E | E].
      - destruct email; [reflexivity | discriminate].
      - apply Nat.eqb_eq in E. destruct (JSString.trim email);
          [reflexivity | discriminate]. }
    rewrite Hnil in Ht. discriminate.
  - destruct (RegExp.test Validators.emailRegex (JSString.trim email));
      cbn; split; congruence.
Qed.

(** X17: [validateEmail] accepts an email exactly when, once trimmed, it
    is a local part, an at sign, a domain, a full stop and a final part,
    each part non-empty and free of white space and at signs; the domain
    and the final part may hold further full stops. *)
Theorem validateEmail_accepts (email : list N) :
  Validators.validateEmail email = None
  <-> exists localPart domain tld : list N,
        JSString.trim email
        = localPart ++ Validators.atSign :: domain
          ++ Validators.fullStop :: tld
        /\ localPart <> [] /\ domain <> [] /\ tld <> []
        /\ Forall (fun c => Validators.notSpaceNorAt c = true)
                  (localPart ++ domain ++ tld).
Proof. rewrite validateEmail_None_iff. apply Matches_emailRegex. Qed.

Example validateEmail_samples :
  Validators.validateEmail (JSString.ofAscii "  ann@example.co.uk ") = None
  /\ Validators.validateEmail (JSString.ofAscii "ann@example")
     = Some "Please enter a valid email address"
  /\ Validators.validateEmail (JSString.ofAscii "a b@example.com")
     = Some "Please enter a valid email address"
  /\ Validators.validateEmail (JSString.ofAscii "a@b@example.com")
     = Some "Please enter a valid email address"
  /\ Validators.validateEmail (JSString.ofAscii "ann@.com")
     = Some "Please enter a valid email address"
  /\ Validators.validateEmail (JSString.ofAscii "   ")
     = Some "Email is required".
Proof. repeat split; vm_compute; reflexivity. Qed.

Lemma notSpaceNorAt_facts (l : list N) :
  Forall (fun c => Validators.notSpaceNorAt c = true) l ->
  Forall (fun c => JSString.isWhiteSpace c = false) l
  /\ count_occ N.eq_dec l Validators.atSign = 0%nat.
Proof.
  induction 1 as [| c l Hc Hl [IH1 IH2]]; [split; [constructor | reflexivity] |].
  unfold Validators.notSpaceNorAt in Hc.
  apply negb_true_iff, orb_false_iff in Hc as [Hw Hat].
  apply N.eqb_neq in Hat.
  split; [constructor; assumption |].
  cbn. destruct (N.eq_dec c Validators.atSign); [contradiction | exact IH2].
Qed.

Lemma accepted_email_facts (e : list N) :
  RegExp.Matches Validators.emailRegex e ->
  Forall (fun c => JSString.isWhiteSpace c = false) e
  /\ count_occ N.eq_dec e Validators.atSign = 1%nat.
Proof.
  intros H. apply Matches_emailRegex in H
    as (a & b & c & -> & _ & _ & _ & Hall).
  rewrite !List.Forall_app in Hall. destruct Hall as (Ha & Hb & Hc).
  apply notSpaceNorAt_facts in Ha as [Ha1 Ha2].
  apply notSpaceNorAt_facts in Hb as [Hb1 Hb2].
  apply notSpaceNorAt_facts in Hc as [Hc1 Hc2].
  split.
  - apply List.Forall_app. split; [exact Ha1 |].
    constructor; [reflexivity |].
    apply List.Forall_app. split; [exact Hb1 |].
    constructor; [reflexivity | exact Hc1].
  - rewrite count_occ_app. cbn [count_occ].
    destruct (N.eq_dec Validators.atSign Validators.atSign); [| contradiction].
    rewrite count_occ_app. cbn [count_occ].
    destruct (N.eq_dec Validators.fullStop Validators.atSign);
      [discriminate | lia].
Qed.

Lemma validatePassword_None_iff (password : list N) :
  Validators.validatePassword password = None
  <-> (6 <= length password)%nat.
Proof.
  unfold Validators.validatePassword.
  destruct password as [| c s]; cbn [Validators.isEmptyString orb length].
  - split; [discriminate | lia].
  - cbn [Nat.eqb]. destruct (S (length s) <? 6)%nat eqn:E.
    + apply Nat.ltb_lt in E. split; [discriminate | lia].
    + apply Nat.ltb_ge in E. split; [intros _; exact E | reflexivity].
Qed.

Lemma noMessage_validateEmail (email : list N) :
  noMessage (Validators.validateEmail email) = true
  <-> Validators.validateEmail email = None.
Proof.
  unfold Validators.validateEmail.
  repeat (match goal with
          | |- context [if ?b then _ else _] => destruct b
          end); cbn; split; congruence.
Qed.

Lemma noMessage_validatePassword (password : list N) :
  noMessage (Validators.validatePassword password) = true
  <-> Validators.validatePassword password = None.
Proof.
  unfold Validators.validatePassword.
  repeat (match goal with
          | |- context [if ?b then _ else _] => destruct b
          end); cbn; split; congruence.
Qed.

Lemma noMessage_validatePasswordMatch (password confirmPassword : list N) :
  noMessage (Validators.validatePasswordMatch password confirmPassword) = true
  <-> Validators.validatePasswordMatch password confirmPassword = None.
Proof.
  unfold Validators.validatePasswordMatch.
  repeat (match goal with
          | |- context [if ?b then _ else _] => destruct b
          end); cbn; split; congruence.
Qed.

(** X18: the login form calls the authentication only with an email that
    is the trimmed input, has no white space, exactly one at sign and
    passes [validateEmail] as it is sent, and with the password as typed
    (not trimmed), of six code units or more; it stops the submission
    exactly when one of the two validators returns a message. *)
Theorem handleLogin_arguments (email password : list N) :
  (LoginScreen.handleLogin email password = None
   <-> Validators.validateEmail email <> None
       \/ Validators.validatePassword password <> None)
  /\ forall e p : list N,
       LoginScreen.handleLogin email password = Some (e, p) ->
       e = JSString.trim email /\ p = password
       /\ Forall (fun c => JSString.isWhiteSpace c = false) e
       /\ count_occ N.eq_dec e Validators.atSign = 1%nat
       /\ Validators.validateEmail e = None
       /\ (6 <= length p)%nat.
Proof.
  unfold LoginScreen.handleLogin, LoginScreen.validateForm. cbv zeta.
  pose proof (noMessage_validateEmail email) as He.
  pose proof (noMessage_validatePassword password) as Hp.
  destruct (noMessage (Validators.validateEmail email)) eqn:E1;
    destruct (noMessage (Validators.validatePassword password)) eqn:E2;
    cbn [andb negb].
  - pose proof (proj1 He eq_refl) as He'.
    pose proof (proj1 Hp eq_refl) as Hp'.
    split; [split; [discriminate | intros [H | H]; contradiction] |].
    intros e p [= <- <-].
    apply validateEmail_None_iff in He'.
    destruct (accepted_email_facts _ He') as [Hw Hc].
    repeat split; try assumption.
    + apply validateEmail_None_iff. rewrite trim_idempotent. exact He'.
    + apply validatePassword_None_iff, Hp'.
  - split; [| discriminate]. split; [intros _ | reflexivity].
    right. intros H. apply Hp in H. discriminate.
  - split; [| discriminate]. split; [intros _ | reflexivity].
    left. intros H. apply He in H. discriminate.
  - split; [| discriminate]. split; [intros _ | reflexivity].
    left. intros H. apply He in H. discriminate.
Qed.

(** X19: the registration form calls the authentication only when, besides
    what the login form asks, the confirmation equals the password code
    unit by code unit. *)
Theorem handleRegister_arguments (email password confirmPassword : list N)
    (e p : list N) :
  RegisterScreen.handleRegister email password confirmPassword = Some (e, p) ->
  e = JSString.trim email /\ p = password
  /\ confirmPassword = password
  /\ count_occ N.eq_dec e Validators.atSign = 1%nat
  /\ Forall (fun c => JSString.isWhiteSpace c = false) e
  /\ (6 <= length p)%nat.
Proof.
  unfold RegisterScreen.handleRegister, RegisterScreen.validateForm. cbv zeta.
  destruct (noMessage (Validators.validateEmail email)) eqn:E1;
    [| discriminate].
  destruct (noMessage (Validators.validatePassword password)) eqn:E2;
    [| discriminate].
  destruct (noMessage (Validators.validatePasswordMatch password
                         confirmPassword)) eqn:E3; [| discriminate].
  cbn. intros [= <- <-].
  apply noMessage_validateEmail, validateEmail_None_iff in E1.
  apply noMessage_validatePassword, validatePassword_None_iff in E2.
  apply noMessage_validatePasswordMatch in E3.
  destruct (accepted_email_facts _ E1) as [Hw Hc].
  repeat split; try assumption.
  unfold Validators.validatePasswordMatch in E3.
  destruct (Validators.isEmptyString confirmPassword
            || (length confirmPassword =? 0)%nat); [discriminate |].
  destruct (bool_decide (password = confirmPassword)) eqn:Eb;
    [| discriminate].
  apply bool_decide_eq_true in Eb. congruence.
Qed.

Lemma handleRegister_arguments_witness :
  JSString.ofAscii "ann@example.com"
  = JSString.trim (JSString.ofAscii " ann@example.com")
  /\ JSString.ofAscii "secret1" = JSString.ofAscii "secret1"
  /\ JSString.ofAscii "secret1" = JSString.ofAscii "secret1"
  /\ count_occ N.eq_dec (JSString.ofAscii "ann@example.com")
               Validators.atSign = 1%nat
  /\ Forall (fun c => JSString.isWhiteSpace c = false)
            (JSString.ofAscii "ann@example.com")
  /\ (6 <= length (JSString.ofAscii "secret1"))%nat.
Proof.
  apply (handleRegister_arguments (JSString.ofAscii " ann@example.com")
           (JSString.ofAscii "secret1") (JSString.ofAscii "secret1")).
  vm_compute. reflexivity.
Defined.

Lemma validateTaskTitle_None_iff (title : list N) :
  Validators.validateTaskTitle title = None
  <-> (1 <= length (JSString.trim title) <= 100)%nat.
Proof.
  unfold Validators.validateTaskTitle.
  destruct (Validators.isEmptyString title
            || (length (JSString.trim title) =? 0)%nat) eqn:E.
  - split; [discriminate |]. intros [H _]. exfalso.
    apply orb_true_iff in E as [E | E].
    + destruct title; [cbn in H; lia | discriminate].
    + apply Nat.eqb_eq in E. lia.
  - apply orb_false_iff in E as [_ E]. apply Nat.eqb_neq in E.
    destruct (100 <? length (JSString.trim title))%nat eqn:E2.
    + apply Nat.ltb_lt in E2. split; [discriminate | lia].
    + apply Nat.ltb_ge in E2. split; [lia | reflexivity].
Qed.

Lemma validateTaskDescription_None_iff (description : list N) :
  Validators.validateTaskDescription description = None
  <-> (length description <= 500)%nat.
Proof.
  unfold Validators.validateTaskDescription.
  destruct description as [| c s]; cbn [Validators.isEmptyString negb andb].
  - cbn. split; [lia | reflexivity].
  - destruct (500 <? length (c :: s))%nat eqn:E.
    + apply Nat.ltb_lt in E. split; [discriminate | lia].
    + apply Nat.ltb_ge in E. split; [intros _; exact E | reflexivity].
Qed.

Lemma noMessage_None_iff (v : option string) :
  (forall s, v = Some s -> s <> "") ->
  noMessage v = true <-> v = None.
Proof.
  intros H. destruct v as [s |]; cbn; [| tauto].
  split; [| discriminate]. intros E. apply String.eqb_eq in E.
  exfalso. exact (H s eq_refl E).
Qed.

Section DateValidators.

Context (Date_getTime : list N -> option Z).

Lemma validateDeadlineAfterStart_None_iff (startDate deadline : list N) :
  Validators.validateDeadlineAfterStart Date_getTime startDate deadline = None
  <-> deadline <> []
      /\ forall s e : Z,
           Date_getTime startDate = Some s ->
           Date_getTime deadline = Some e -> (s < e)%Z.
Proof.
  unfold Validators.validateDeadlineAfterStart, Validators.dateLe. cbv zeta.
  destruct deadline as [| c d]; cbn [Validators.isEmptyString].
  { split; [discriminate | intros [H _]; congruence]. }
  destruct (Date_getTime (c :: d)) as [e |], (Date_getTime startDate) as [s |].
  - destruct (e <=? s)%Z eqn:E.
    + apply Z.leb_le in E. split; [discriminate |].
      intros [_ H]. specialize (H s e eq_refl eq_refl). lia.
    + apply Z.leb_gt in E. split; [| reflexivity].
      intros _. split; [discriminate |]. intros ? ? [= <-] [= <-]. exact E.
  - split; [| reflexivity]. intros _. split; discriminate.
  - split; [| reflexivity]. intros _. split; discriminate.
  - split; [| reflexivity]. intros _. split; discriminate.
Qed.

Lemma validateFutureDate_None_iff (now : Z) (dateString : list N) :
  Validators.validateFutureDate Date_getTime now dateString = None
  <-> dateString <> []
      /\ forall t : Z, Date_getTime dateString = Some t -> (now <= t)%Z.
Proof.
  unfold Validators.validateFutureDate, Validators.dateLt. cbv zeta.
  destruct dateString as [| c d]; cbn [Validators.isEmptyString].
  { split; [discriminate | intros [H _]; congruence]. }
  destruct (Date_getTime (c :: d)) as [t |].
  - destruct (t <? now)%Z eqn:E.
    + apply Z.ltb_lt in E. split; [discriminate |].
      intros [_ H]. specialize (H t eq_refl). lia.
    + apply Z.ltb_ge in E. split; [| reflexivity].
      intros _. split; [discriminate |]. intros ? [= <-]. exact E.
  - split; [| reflexivity]. intros _. split; discriminate.
Qed.

(** X20: the date validators let an unparseable date through: given a
    non-empty string, [validateDeadlineAfterStart] complains only when both
    dates parse and the deadline is not strictly after the start (equal
    dates are refused), and [validateFutureDate] only when the date parses
    and lies before [now] (the present instant is accepted). *)
Theorem date_validators_accept (now : Z) (startDate deadline : list N) :
  (Validators.validateDeadlineAfterStart Date_getTime startDate deadline = None
   <-> deadline <> []
       /\ forall s e : Z,
            Date_getTime startDate = Some s ->
            Date_getTime deadline = Some e -> (s < e)%Z)
  /\ (Validators.validateFutureDate Date_getTime now deadline = None
      <-> deadline <> []
          /\ forall t : Z, Date_getTime deadline = Some t -> (now <= t)%Z)
  /\ (deadline <> [] -> Date_getTime deadline = None ->
      Validators.validateDeadlineAfterStart Date_getTime startDate deadline
      = None
      /\ Validators.validateFutureDate Date_getTime now deadline = None).
Proof.
  split; [apply validateDeadlineAfterStart_None_iff |].
  split; [apply validateFutureDate_None_iff |].
  intros Hne Hnone. split.
  - apply validateDeadlineAfterStart_None_iff. split; [exact Hne |].
    intros s e _ He. congruence.
  - apply validateFutureDate_None_iff. split; [exact Hne |].
    intros t Ht. congruence.
Qed.

Context (toISOString : Z -> list N).

Hypothesis toISOString_parses :
  forall d : Z, Date_getTime (toISOString d) = Some d.
Hypothesis toISOString_not_empty : forall d : Z, toISOString d <> [].

Lemma validateForm_true_iff (title description : list N)
    (dateTime deadline : Z) :
  AddTaskModal.validateForm Date_getTime toISOString title description
    dateTime deadline = true
  <-> (1 <= length (JSString.trim title) <= 100)%nat
      /\ (length description <= 500)%nat
      /\ (dateTime < deadline)%Z.
Proof.
  unfold AddTaskModal.validateForm. cbv zeta.
  rewrite !andb_true_iff.
  rewrite (noMessage_None_iff (Validators.validateTaskTitle title)),
    validateTaskTitle_None_iff.
  2:{ unfold Validators.validateTaskTitle. intros s.
      repeat (match goal with
              | |- context [if ?b then _ else _] => destruct b
              end); intros [= <-]; discriminate. }
  rewrite (noMessage_None_iff (Validators.validateTaskDescription description)),
    validateTaskDescription_None_iff.
  2:{ unfold Validators.validateTaskDescription. intros s.
      destruct (_ && _); intros [= <-]; discriminate. }
  rewrite noMessage_None_iff, validateDeadlineAfterStart_None_iff.
  2:{ unfold Validators.validateDeadlineAfterStart. cbv zeta. intros s.
      repeat (match goal with
              | |- context [if ?b then _ else _] => destruct b
              end); intros [= <-]; discriminate. }
  rewrite !toISOString_parses.
  split.
  - intros [[Ht Hd] [_ Hlt]]. repeat split; try tauto.
    apply (Hlt dateTime deadline); reflexivity.
  - intros (Ht & Hd & Hlt). repeat split; try tauto.
    + apply toISOString_not_empty.
    + intros s e [= <-] [= <-]. exact Hlt.
Qed.

(** X21: the task form hands a payload to [onSave] exactly when the trimmed
    title has 1 to 100 code units, the description as typed at most 500,
    and the start lies strictly before the deadline; the payload then
    carries the trimmed title, without white space at either end, the
    trimmed description, the two dates as the strings that parse back to
    them, and [completed] false for a new task and unchanged for an edited
    one.  Whether the deadline has passed plays no part. *)
Theorem handleSave_payload (editTask : option Task)
    (title description : list N) (dateTime deadline : Z)
    (priority : Priority) (category : Category) :
  (AddTaskModal.handleSave Date_getTime toISOString editTask title description
     dateTime deadline priority category <> None
   <-> (1 <= length (JSString.trim title) <= 100)%nat
       /\ (length description <= 500)%nat
       /\ (dateTime < deadline)%Z)
  /\ forall data : AddTaskModal.TaskData,
       AddTaskModal.handleSave Date_getTime toISOString editTask title
         description dateTime deadline priority category = Some data ->
       AddTaskModal.title data = JSString.trim title
       /\ (1 <= length (AddTaskModal.title data) <= 100)%nat
       /\ JSString.noLeadingSpace (AddTaskModal.title data)
       /\ JSString.noLeadingSpace (rev (AddTaskModal.title data))
       /\ AddTaskModal.description data = JSString.trim description
       /\ (length (AddTaskModal.description data) <= 500)%nat
       /\ Date_getTime (AddTaskModal.dateTime data) = Some dateTime
       /\ Date_getTime (AddTaskModal.deadline data) = Some deadline
       /\ (dateTime < deadline)%Z
       /\ AddTaskModal.completed data
          = match editTask with
            | Some task => completed task
            | None => false
            end.
Proof.
  unfold AddTaskModal.handleSave.
  pose proof (validateForm_true_iff title description dateTime deadline) as Hv.
  destruct (AddTaskModal.validateForm Date_getTime toISOString title
              description dateTime deadline); cbn [negb].
  - pose proof (proj1 Hv eq_refl) as (Ht & Hd & Hlt).
    split; [split; [intros _; auto | discriminate] |].
    intros data [= <-]. cbn.
    repeat split; try tauto; try apply toISOString_parses.
    + apply trim_noLeadingSpace.
    + apply trim_noTrailingSpace.
    + etransitivity; [apply trim_length | exact Hd].
  - split; [| discriminate].
    split; [congruence |]. intros H. apply Hv in H. discriminate.
Qed.

End DateValidators.

Lemma sampleParse_sampleISO (d : Z) : sampleParse (sampleISO d) = Some d.
Proof.
  unfold sampleParse, sampleISO. destruct (d <? 0)%Z eqn:E; cbn; f_equal.
  - apply Z.ltb_lt in E. rewrite N2Z.inj_abs_N. lia.
  - apply Z.ltb_ge in E. rewrite N2Z.inj_abs_N. lia.
Qed.

Lemma handleSave_payload_witness :
  (AddTaskModal.handleSave sampleParse sampleISO None
     (JSString.ofAscii " Buy milk ") [] 10 20 MEDIUM PERSONAL <> None
   <-> (1 <= length (JSString.trim (JSString.ofAscii " Buy milk ")) <= 100)%nat
       /\ (length (@nil N) <= 500)%nat
       /\ (10 < 20)%Z)
  /\ forall data : AddTaskModal.TaskData,
       AddTaskModal.handleSave sampleParse sampleISO None
         (JSString.ofAscii " Buy milk ") [] 10 20 MEDIUM PERSONAL
       = Some data ->
       AddTaskModal.title data = JSString.trim (JSString.ofAscii " Buy milk ")
       /\ (1 <= length (AddTaskModal.title data) <= 100)%nat
       /\ JSString.noLeadingSpace (AddTaskModal.title data)
       /\ JSString.noLeadingSpace (rev (AddTaskModal.title data))
       /\ AddTaskModal.description data = JSString.trim []
       /\ (length (AddTaskModal.description data) <= 500)%nat
       /\ sampleParse (AddTaskModal.dateTime data) = Some 10%Z
       /\ sampleParse (AddTaskModal.deadline data) = Some 20%Z
       /\ (10 < 20)%Z
       /\ AddTaskModal.completed data = false.
Proof.
  apply (handleSave_payload sampleParse sampleISO sampleParse_sampleISO
           (fun d => ltac:(discriminate)) None
           (JSString.ofAscii " Buy milk ") [] 10 20 MEDIUM PERSONAL).
Defined.

(** ** Authentication state *)

Section AuthFacts.

Context {User : Type}.

Lemma authReducer_keeps_quiet (state : Auth.AuthState User)
    (action : Auth.AuthAction User) :
  Auth.authQuiet state -> Auth.authQuiet (Auth.authReducer state action).
Proof.
  unfold Auth.authQuiet. intros [H1 H2].
  destruct action; cbn; try (split; [auto | intros H; congruence]);
    try (split; [discriminate | auto]); auto.
Qed.

(** X22: whatever actions are dispatched from the initial state, the
    authentication state never shows an error while loading, an error
    always comes without a user, and so the root navigator shows the
    application only to a signed-in user and without an error, and shows
    the sign-in screens whenever there is an error. *)
Theorem auth_state_invariant (actions : list (Auth.AuthAction User)) :
  let state := fold_left Auth.authReducer actions Auth.initialAuthState in
  (Auth.loading state = true -> Auth.error state = None)
  /\ (Auth.error state <> None -> Auth.user state = None)
  /\ (Auth.error state <> None -> Auth.RootNavigator state = Auth.AuthStack)
  /\ (Auth.RootNavigator state = Auth.AppStack ->
      Auth.error state = None /\ Auth.user state <> None).
Proof.
  cbv zeta.
  assert (H : forall s, Auth.authQuiet s ->
                        Auth.authQuiet (fold_left Auth.authReducer actions s)).
  { induction actions as [| a l IH]; intros s Hs; cbn; [exact Hs |].
    apply IH, authReducer_keeps_quiet, Hs. }
  specialize (H Auth.initialAuthState).
  destruct H as [H1 H2]; [split; [discriminate | intros H; cbn in H; congruence] |].
  set (state := fold_left Auth.authReducer actions Auth.initialAuthState) in *.
  split; [exact H1 |].
  split; [intros He; apply H2, He |].
  unfold Auth.RootNavigator. split.
  - intros He. destruct (H2 He) as [-> ->]. reflexivity.
  - destruct (Auth.loading state); [discriminate |].
    destruct (Auth.user state) eqn:Eu; [| discriminate].
    intros _. split; [| discriminate].
    destruct (Auth.error state) eqn:Ee; [| reflexivity].
    destruct H2 as [Hu _]; [discriminate | discriminate].
Qed.

End AuthFacts.
